(** * Circuits, DAGs and their converters (qiskit)

    A shallow embedding of
    - [qiskit/_quantumcircuit.py]            (class [QuantumCircuit]),
    - [qiskit/converters/dag_to_circuit.py]  (function [dag_to_circuit]),
    - [qiskit/extensions/standard/cx.py]     (class [CnotGate]),
    together with the properties the specification states about them.

    Python objects that are mutated in place are modelled by explicit state
    passing: a method of a circuit is a function from the state of [self] to
    an outcome and the state of [self] afterwards, also when the outcome is
    an exception (Python does not roll anything back).  Where two circuits
    may be one and the same object ([combine], [extend]) the circuits live in
    a heap and are passed by reference. *)

From Stdlib Require Import ZArith QArith Lia.
From stdpp Require Import prelude strings gmap.

Local Open Scope string_scope.
Local Open Scope list_scope.

(** ** Errors

    Every failure of [_quantumcircuit.py] is a [QISKitError] carrying a
    message; one constructor stands for each message.  The last constructors
    stand for the failures of the classes that are not part of these three
    files, and for the exceptions of the Python runtime. *)

Inductive QISKitError : Type :=
| ExpectedARegister                     (* "expected a register" *)
| RegisterNameAlreadyExists (n : string)(* "register name ... already exists" *)
| CircuitsAreNotCompatible              (* "circuits are not compatible" *)
| ExpectedQuantumRegister               (* "expected quantum register" *)
| ExpectedClassicalRegister             (* "expected classical register" *)
| RegisterNotInThisCircuit (n : string) (* "register ... not in this circuit" *)
| DuplicateQubitArguments               (* "duplicate qubit arguments" *)
| RegisterIndexOutOfRange               (* Register.check_range *)
| DagDuplicateRegister (n : string)     (* DAGCircuit: name declared twice *)
| DagUnknownRegister (n : string)       (* DAGCircuit: undeclared register *)
| DagBasisMismatch (n : string)         (* DAGCircuit: incompatible arity *)
| PyTypeError                           (* Python: TypeError *)
| PyIndexError                          (* Python: IndexError *)
| PyKeyError.                           (* Python: KeyError *)

(** The error kinds of the specification (section 7). *)
Inductive ErrorKind : Type :=
| DuplicateRegisterNameError
| ExpectedRegisterError
| IncompatibleRegistersError
| UnknownRegisterError
| WrongRegisterKindError
| OutOfRangeBitError
| DuplicateQubitArgumentError
| SizeMismatchError
| RuntimeError.

Definition error_kind (e : QISKitError) : ErrorKind :=
  match e with
  | ExpectedARegister => ExpectedRegisterError
  | RegisterNameAlreadyExists _ => DuplicateRegisterNameError
  | CircuitsAreNotCompatible => IncompatibleRegistersError
  | ExpectedQuantumRegister => WrongRegisterKindError
  | ExpectedClassicalRegister => WrongRegisterKindError
  | RegisterNotInThisCircuit _ => UnknownRegisterError
  | DuplicateQubitArguments => DuplicateQubitArgumentError
  | RegisterIndexOutOfRange => OutOfRangeBitError
  | DagDuplicateRegister _ => DuplicateRegisterNameError
  | DagUnknownRegister _ => UnknownRegisterError
  | DagBasisMismatch _ => RuntimeError
  | PyTypeError | PyIndexError | PyKeyError => RuntimeError
  end.

Inductive Result (A : Type) : Type :=
| Ok (a : A)
| Err (e : QISKitError).

Arguments Ok {A} a.
Arguments Err {A} e.

Definition bindR {A B : Type} (r : Result A) (k : A → Result B) : Result B :=
  match r with
  | Ok a => k a
  | Err e => Err e
  end.

Notation "x <- r ;; k" := (bindR r (λ x, k))
  (at level 100, r at next level, right associativity).

(** ** Registers and bit references *)

Inductive RegKind : Type :=
| Quantum
| Classical.

(** Modelled from the spec: the classes [Register], [QuantumRegister] and
    [ClassicalRegister] are not part of the three files.  A register is
    [{name: string, size: uint, kind: Quantum|Classical}]. *)
Record Register : Type := mkRegister {
  reg_name : string;
  reg_size : nat;
  reg_kind : RegKind
}.

Definition QuantumRegister (size : nat) (name : string) : Register :=
  mkRegister name size Quantum.

Definition ClassicalRegister (size : nat) (name : string) : Register :=
  mkRegister name size Classical.

(** [isinstance(r, QuantumRegister)], [isinstance(r, ClassicalRegister)] *)
Definition is_quantum (r : Register) : bool :=
  match reg_kind r with Quantum => true | Classical => false end.

Definition is_classical (r : Register) : bool :=
  match reg_kind r with Quantum => false | Classical => true end.

Definition Bit : Type := Register * Z.

(** Modelled from the spec: [Register.check_range] fails with
    [OutOfRangeBitError] if the index is outside [[0, size)]. *)
Definition check_range (r : Register) (j : Z) : Result unit :=
  if ((j <? 0) || (Z.of_nat (reg_size r) <=? j))%Z
  then Err RegisterIndexOutOfRange
  else Ok tt.

(** Modelled from the spec: indexing a register, [r[j]], yields the bit
    reference [(r, j)], validated against the bounds of the register. *)
Definition Register_getitem (r : Register) (j : Z) : Result Bit :=
  _ <- check_range r j ;; Ok (r, j).

(** The values a caller can hand to [add] and [measure]: a register, a pair
    of a value and an integer (a bit reference when the value is a register),
    or something else. *)
Inductive PyVal : Type :=
| PReg (r : Register)
| PTuple (v : PyVal) (i : Z)
| PNone.

(** ** Instructions *)

(** Modelled from the spec: the class [Instruction] is not part of the three
    files; [_quantumcircuit.py] reads its fields [name], [param], [arg] and
    [control]. *)
Record Instruction : Type := mkInstruction {
  name : string;
  param : list Q;
  arg : list Bit;
  control : option (Register * Z)
}.

(** Modelled from the spec: the class [InstructionSet] is not part of the
    three files; it is an ordered sequence of instructions and [add]
    appends. *)
Record InstructionSet : Type := mkInstructionSet {
  instructions : list Instruction
}.

Definition InstructionSet_add (s : InstructionSet) (g : Instruction) : InstructionSet :=
  mkInstructionSet (instructions s ++ [g]).

(** What [measure] returns: one instruction or a set of them. *)
Inductive RetVal : Type :=
| RInstr (g : Instruction)
| RSet (s : InstructionSet).

(** ** Ordered dictionaries

    An [OrderedDict] with string keys is an association list in insertion
    order. *)

Definition OrderedDict (V : Type) : Type := list (string * V).

Fixpoint dict_get {V : Type} (d : OrderedDict V) (k : string) : option V :=
  match d with
  | [] => None
  | (k', v) :: d' => if String.eqb k' k then Some v else dict_get d' k
  end.

(** [k in d] *)
Definition dict_in {V : Type} (d : OrderedDict V) (k : string) : bool :=
  match dict_get d k with Some _ => true | None => false end.

(** [d[k] = v]: an existing key keeps its position. *)
Fixpoint dict_set {V : Type} (d : OrderedDict V) (k : string) (v : V) : OrderedDict V :=
  match d with
  | [] => [(k, v)]
  | (k', v') :: d' =>
      if String.eqb k' k then (k', v) :: d' else (k', v') :: dict_set d' k v
  end.

(** [d.values()] *)
Definition dict_values {V : Type} (d : OrderedDict V) : list V := map snd d.

(** ** The circuit *)

Record QuantumCircuit : Type := mkQuantumCircuit {
  data : list Instruction;          (* self.data *)
  regs : OrderedDict Register       (* self.regs *)
}.

(** A method of a circuit: the outcome and the state of [self] afterwards. *)
Definition M (A : Type) : Type := QuantumCircuit → Result A * QuantumCircuit.

Definition retM {A : Type} (a : A) : M A := λ self, (Ok a, self).

Definition raise {A : Type} (e : QISKitError) : M A := λ self, (Err e, self).

Definition bindM {A B : Type} (m : M A) (k : A → M B) : M B :=
  λ self,
    match m self with
    | (Ok a, self') => k a self'
    | (Err e, self') => (Err e, self')
    end.

Definition liftR {A : Type} (r : Result A) : M A := λ self, (r, self).

Notation "x <~ m ;; k" := (bindM m (λ x, k))
  (at level 100, m at next level, right associativity).

(** [has_register] (lines 58-72) *)
Definition has_register (self : QuantumCircuit) (register : Register) : bool :=
  if dict_in (regs self) (reg_name register) then
    match dict_get (regs self) (reg_name register) with
    | Some registers =>
        if Nat.eqb (reg_size registers) (reg_size register) then
          if (is_quantum register && is_quantum registers)
             || (is_classical register && is_classical registers)
          then true else false
        else false
    | None => false
    end
  else false.

(** [add] (lines 139-148): the registers are added one after the other, and
    the first value that is refused raises. *)
Fixpoint add (rs : list PyVal) : M unit :=
  match rs with
  | [] => retM tt
  | PReg register :: rs' =>
      λ self,
        if negb (dict_in (regs self) (reg_name register)) then
          add rs' (mkQuantumCircuit (data self)
                     (dict_set (regs self) (reg_name register) register))
        else (Err (RegisterNameAlreadyExists (reg_name register)), self)
  | _ :: _ => raise ExpectedARegister
  end.

(** [__init__] (lines 50-56): an exception leaves no circuit behind. *)
Definition QuantumCircuit_init (rs : list PyVal) : Result QuantumCircuit :=
  match add rs (mkQuantumCircuit [] []) with
  | (Ok _, self) => Ok self
  | (Err e, _) => Err e
  end.

(** [__len__] (lines 126-128) *)
Definition len (self : QuantumCircuit) : nat := length (data self).

(** [_attach] (lines 134-137) *)
Definition _attach (gate : Instruction) : M Instruction :=
  λ self, (Ok gate, mkQuantumCircuit (data self ++ [gate]) (regs self)).

(** [_check_qreg] (lines 150-157) *)
Definition _check_qreg (self : QuantumCircuit) (register : PyVal) : Result unit :=
  match register with
  | PReg r =>
      if negb (is_quantum r) then Err ExpectedQuantumRegister
      else if negb (has_register self r) then Err (RegisterNotInThisCircuit (reg_name r))
      else Ok tt
  | _ => Err ExpectedQuantumRegister
  end.

(** [_check_creg] (lines 164-171) *)
Definition _check_creg (self : QuantumCircuit) (register : PyVal) : Result unit :=
  match register with
  | PReg r =>
      if negb (is_classical r) then Err ExpectedClassicalRegister
      else if negb (has_register self r) then Err (RegisterNotInThisCircuit (reg_name r))
      else Ok tt
  | _ => Err ExpectedClassicalRegister
  end.

(** [v[0]]: the first component of a pair; on a register, its bit 0. *)
Definition getitem0 (v : PyVal) : Result PyVal :=
  match v with
  | PTuple a _ => Ok a
  | PReg r => b <- Register_getitem r 0 ;; Ok (PTuple (PReg (fst b)) (snd b))
  | PNone => Err PyTypeError
  end.

(** [v[0].check_range(v[1])], evaluated once [v[0]] is known to be a
    register: [v] is then a pair and [v[1]] its integer. *)
Definition check_range_of (v : PyVal) : Result unit :=
  match v with
  | PTuple (PReg r) j => check_range r j
  | _ => Err PyTypeError
  end.

(** [_check_qubit] (lines 159-162) *)
Definition _check_qubit (self : QuantumCircuit) (qubit : PyVal) : Result unit :=
  q0 <- getitem0 qubit ;;
  _ <- _check_qreg self q0 ;;
  check_range_of qubit.

Definition as_bit (v : PyVal) : Result Bit :=
  match v with
  | PTuple (PReg r) j => Ok (r, j)
  | _ => Err PyTypeError
  end.

(** Modelled from the spec: the class [Measure] is not part of the three
    files.  A measurement holds exactly one quantum and one classical bit
    reference; [dag] reads them as [arg[0]] and [arg[1]]. *)
Definition Measure (qubit cbit : PyVal) : Result Instruction :=
  q <- as_bit qubit ;;
  c <- as_bit cbit ;;
  Ok (mkInstruction "measure" [] [q; c] None).

(** [measure], the part for one bit (lines 252-255) *)
Definition measure_bit (qubit cbit : PyVal) : M Instruction :=
  _ <~ (λ self, (_check_qubit self qubit, self)) ;;
  _ <~ (λ self, (c0 <- getitem0 cbit ;; _check_creg self c0, self)) ;;
  _ <~ liftR (check_range_of cbit) ;;
  gate <~ liftR (Measure qubit cbit) ;;
  _attach gate.

(** The loop of lines 248-249.  The call [self.measure((qubit, i), (cbit, i))]
    is given two pairs, for which the test of line 245 is false: it runs
    lines 252-255. *)
Fixpoint measure_loop (qubit cbit : Register) (indices : list nat)
    (instructions : InstructionSet) : M InstructionSet :=
  match indices with
  | [] => retM instructions
  | i :: indices' =>
      gate <~ measure_bit (PTuple (PReg qubit) (Z.of_nat i))
                          (PTuple (PReg cbit) (Z.of_nat i)) ;;
      measure_loop qubit cbit indices' (InstructionSet_add instructions gate)
  end.

(** [isinstance(qubit, QuantumRegister) and isinstance(cbit, ClassicalRegister)
    and len(qubit) == len(cbit)] (lines 245-246) *)
Definition is_register_pair (qubit cbit : PyVal) : option (Register * Register) :=
  match qubit, cbit with
  | PReg q, PReg c =>
      if is_quantum q && is_classical c && Nat.eqb (reg_size q) (reg_size c)
      then Some (q, c) else None
  | _, _ => None
  end.

(** [measure] (lines 235-255) *)
Definition measure (qubit cbit : PyVal) : M RetVal :=
  match is_register_pair qubit cbit with
  | Some (q, c) =>
      s <~ measure_loop q c (seq 0 (reg_size q)) (mkInstructionSet []) ;;
      retM (RSet s)
  | None =>
      gate <~ measure_bit qubit cbit ;;
      retM (RInstr gate)
  end.

(** ** The controlled-NOT gate ([cx.py]) *)

(** [CnotGate.__init__] (lines 25-27): [super().__init__("cx", [], [ctl, tgt], circ)] *)
Definition CnotGate (ctl tgt : Bit) : Instruction :=
  mkInstruction "cx" [] [ctl; tgt] None.

(** [CnotGate.inverse] (lines 43-45): [return self] *)
Definition inverse (self : Instruction) : Instruction := self.

(** ** Replaying instructions on another circuit *)

(** Modelled from the spec: [Instruction.reapply] is not part of the three
    files (only [CnotGate.reapply] is, which attaches a new gate on the same
    operands through [circ.cx] and copies the modifiers).  [reapply] "clones
    this instruction's name/params/condition and rebinds qargs/cargs onto
    registers of matching name/size in target_circuit, then attaches it
    there". *)
Definition rebind (target : QuantumCircuit) (b : Bit) : Result Bit :=
  match dict_get (regs target) (reg_name (fst b)) with
  | Some r =>
      if Nat.eqb (reg_size r) (reg_size (fst b)) then Ok (r, snd b)
      else Err (RegisterNotInThisCircuit (reg_name (fst b)))
  | None => Err (RegisterNotInThisCircuit (reg_name (fst b)))
  end.

Fixpoint rebind_all (target : QuantumCircuit) (bs : list Bit) : Result (list Bit) :=
  match bs with
  | [] => Ok []
  | b :: bs' =>
      b' <- rebind target b ;;
      bs'' <- rebind_all target bs' ;;
      Ok (b' :: bs'')
  end.

Definition reapply (gate : Instruction) : M Instruction :=
  λ circ,
    match rebind_all circ (arg gate) with
    | Ok args => _attach (mkInstruction (name gate) (param gate) args (control gate)) circ
    | Err e => (Err e, circ)
    end.

(** ** Circuits as objects: [combine] and [extend]

    The heap holds the circuit objects; a reference is a position in it and
    a new object is put at its end. *)

Abbreviation Heap := (list QuantumCircuit).

(** [gate.reapply(target)] for the circuit object [target] *)
Definition reapply_at (gate : Instruction) (target : nat) (h : Heap) : Result unit * Heap :=
  match h !! target with
  | Some circ =>
      match reapply gate circ with
      | (Ok _, circ') => (Ok tt, <[target := circ']> h)
      | (Err e, circ') => (Err e, <[target := circ']> h)
      end
  | None => (Err PyKeyError, h)
  end.

(** [for gate in gates: gate.reapply(target)], for a list [gates] that the
    loop does not change. *)
Fixpoint replay (gates : list Instruction) (target : nat) (h : Heap) : Result unit * Heap :=
  match gates with
  | [] => (Ok tt, h)
  | gate :: gates' =>
      match reapply_at gate target h with
      | (Ok _, h') => replay gates' target h'
      | (Err e, h') => (Err e, h')
      end
  end.

(** [combine] (lines 90-103).  The new circuit is a new object, so the lists
    [self.data] and [rhs.data] that the loop of lines 101-102 walks through
    are not changed by it. *)
Definition combine (self rhs : nat) (h : Heap) : Result nat * Heap :=
  match h !! self, h !! rhs with
  | Some cself, Some crhs =>
      if forallb (has_register cself) (dict_values (regs crhs)) then
        match QuantumCircuit_init (map PReg (dict_values (regs cself))) with
        | Ok circuit =>
            let new := length h in
            match replay (data cself ++ data crhs) new (h ++ [circuit]) with
            | (Ok _, h') => (Ok new, h')
            | (Err e, h') => (Err e, h')
            end
        | Err e => (Err e, h)
        end
      else (Err CircuitsAreNotCompatible, h)
  | _, _ => (Err PyKeyError, h)
  end.

(** The loop of lines 114-115, [for gate in rhs.data: gate.reapply(self)].
    The list iterator reads [rhs.data[i]] anew at every step, so when [rhs]
    is [self] it sees the gates the loop has attached; [fuel] bounds the
    number of steps and [None] means that it did not suffice. *)
Fixpoint extend_loop (fuel : nat) (i : nat) (self rhs : nat) (h : Heap)
    : option (Result unit * Heap) :=
  match fuel with
  | O => None
  | S fuel' =>
      match h !! rhs with
      | Some crhs =>
          match data crhs !! i with
          | Some gate =>
              match reapply_at gate self h with
              | (Ok _, h') => extend_loop fuel' (S i) self rhs h'
              | (Err e, h') => Some (Err e, h')
              end
          | None => Some (Ok tt, h)
          end
      | None => Some (Err PyKeyError, h)
      end
  end.

(** [extend] (lines 105-116) *)
Definition extend (fuel : nat) (self rhs : nat) (h : Heap) : option (Result nat * Heap) :=
  match h !! self, h !! rhs with
  | Some cself, Some crhs =>
      if forallb (has_register cself) (dict_values (regs crhs)) then
        match extend_loop fuel 0 self rhs h with
        | Some (Ok _, h') => Some (Ok self, h')
        | Some (Err e, h') => Some (Err e, h')
        | None => None
        end
      else Some (Err CircuitsAreNotCompatible, h)
  | _, _ => Some (Err PyKeyError, h)
  end.

(** ** The DAG

    Modelled from the spec: the class [DAGCircuit] is not part of the three
    files.  A DAG is
    [{qregs, cregs: mapping name→Register, basis: mapping name→arity,
      nodes: graph of operation nodes plus two synthetic terminal nodes per
      declared bit}]; the payload of an operation node mirrors an instruction
    (name, params, qargs, cargs, condition).  Nodes are numbered in the order
    of their creation; the edges are kept with a "last writer" pointer per
    bit: an edge runs from the last writer of a bit to the next operation on
    that bit, and from the last writer of a bit to its "out" terminal. *)

(** A bit as the DAG names it: (register name, index). *)
Definition Wire : Type := string * Z.

Record DagOp : Type := mkDagOp {
  op_name : string;
  op_qargs : list Bit;
  op_cargs : list Bit;
  op_params : list Q;
  op_condition : option (Register * Z)
}.

Inductive DagNode : Type :=
| NodeIn (w : Wire)
| NodeOut (w : Wire)
| NodeOp (op : DagOp).

(** An entry of the class variable [definitions] (lines 39-48); the names of
    the formal parameters and the body of the gate are left out. *)
Record GateData : Type := mkGateData {
  opaque : bool;
  n_args : Z;
  n_bits : Z
}.

Record DAGCircuit : Type := mkDAGCircuit {
  qregs : OrderedDict Register;
  cregs : OrderedDict Register;
  basis : gmap string (Z * Z * Z);
  gates : gmap string GateData;
  nodes : list DagNode;
  edges : list (nat * nat);
  output_map : gmap Wire nat;
  last_writer : gmap Wire nat
}.

Definition DAGCircuit_init : DAGCircuit :=
  mkDAGCircuit [] [] ∅ ∅ [] [] ∅ ∅.

(** The two terminals of a newly declared bit. *)
Definition add_wire (d : DAGCircuit) (w : Wire) : DAGCircuit :=
  let i := length (nodes d) in
  mkDAGCircuit (qregs d) (cregs d) (basis d) (gates d)
    (nodes d ++ [NodeIn w; NodeOut w]) (edges d)
    (<[w := S i]> (output_map d)) (<[w := i]> (last_writer d)).

(** The terminals of the bits [js] of the register [name]. *)
Definition add_wire_list (name : string) (d : DAGCircuit) (js : list nat) : DAGCircuit :=
  fold_left (λ d j, add_wire d (name, Z.of_nat j)) js d.

Definition add_wires (d : DAGCircuit) (name : string) (size : nat) : DAGCircuit :=
  add_wire_list name d (seq 0 size).

(** [declare_quantum_register(name, size)]: fails with
    [DuplicateRegisterNameError] on a name already present. *)
Definition add_qreg (name : string) (size : nat) (d : DAGCircuit) : Result DAGCircuit :=
  if dict_in (qregs d) name || dict_in (cregs d) name
  then Err (DagDuplicateRegister name)
  else Ok (add_wires
             (mkDAGCircuit (dict_set (qregs d) name (QuantumRegister size name)) (cregs d)
                (basis d) (gates d) (nodes d) (edges d) (output_map d) (last_writer d))
             name size).

(** [declare_classical_register(name, size)] *)
Definition add_creg (name : string) (size : nat) (d : DAGCircuit) : Result DAGCircuit :=
  if dict_in (qregs d) name || dict_in (cregs d) name
  then Err (DagDuplicateRegister name)
  else Ok (add_wires
             (mkDAGCircuit (qregs d) (dict_set (cregs d) name (ClassicalRegister size name))
                (basis d) (gates d) (nodes d) (edges d) (output_map d) (last_writer d))
             name size).

(** [declare_basis_element(name, arity_qubits, arity_classical, arity_params)]:
    "re-declaring an existing name is a no-op if identical, otherwise
    undefined (must not silently override with incompatible arity)"; the
    undefined case is a failure here. *)
Definition add_basis_element (name : string) (nq nc np : Z) (d : DAGCircuit) : Result DAGCircuit :=
  match basis d !! name with
  | None =>
      Ok (mkDAGCircuit (qregs d) (cregs d) (<[name := (nq, nc, np)]> (basis d)) (gates d)
            (nodes d) (edges d) (output_map d) (last_writer d))
  | Some a => if decide (a = (nq, nc, np)) then Ok d else Err (DagBasisMismatch name)
  end.

(** [register_gate_definition(name, template)] *)
Definition add_gate_data (name : string) (gd : GateData) (d : DAGCircuit) : DAGCircuit :=
  mkDAGCircuit (qregs d) (cregs d) (basis d) (<[name := gd]> (gates d))
    (nodes d) (edges d) (output_map d) (last_writer d).

(** A bit reference given by name, in the DAG's register view; fails with
    [UnknownRegisterError] or [OutOfRangeBitError]. *)
Definition resolve (rs : OrderedDict Register) (w : Wire) : Result Bit :=
  match dict_get rs (fst w) with
  | Some r => Register_getitem r (snd w)
  | None => Err (DagUnknownRegister (fst w))
  end.

Fixpoint resolve_all (rs : OrderedDict Register) (ws : list Wire) : Result (list Bit) :=
  match ws with
  | [] => Ok []
  | w :: ws' =>
      b <- resolve rs w ;;
      bs <- resolve_all rs ws' ;;
      Ok (b :: bs)
  end.

Definition resolve_condition (rs : OrderedDict Register) (c : option (string * Z))
    : Result (option (Register * Z)) :=
  match c with
  | None => Ok None
  | Some (n, v) =>
      match dict_get rs n with
      | Some r => Ok (Some (r, v))
      | None => Err (DagUnknownRegister n)
      end
  end.

(** The last writers of the bits [ws]. *)
Fixpoint last_writers (lw : gmap Wire nat) (ws : list Wire) : Result (list nat) :=
  match ws with
  | [] => Ok []
  | w :: ws' =>
      match lw !! w with
      | Some n => ns <- last_writers lw ws' ;; Ok (n :: ns)
      | None => Err (DagUnknownRegister (fst w))
      end
  end.

(** [append_operation(name, qargs, cargs, params, condition)]: "append a new
    node whose in-edges are the current last writer terminal for every bit it
    touches, then advance each touched bit's last writer to the new node". *)
Definition apply_operation_back (name : string) (qargs cargs : list Wire)
    (params : list Q) (condition : option (string * Z)) (d : DAGCircuit)
    : Result DAGCircuit :=
  qs <- resolve_all (qregs d) qargs ;;
  cs <- resolve_all (cregs d) cargs ;;
  cond <- resolve_condition (cregs d) condition ;;
  writers <- last_writers (last_writer d) (qargs ++ cargs) ;;
  let k := length (nodes d) in
  Ok (mkDAGCircuit (qregs d) (cregs d) (basis d) (gates d)
        (nodes d ++ [NodeOp (mkDagOp name qs cs params cond)])
        (edges d ++ map (λ n, (n, k)) writers)
        (output_map d)
        (fold_left (λ lw w, <[w := k]> lw) (qargs ++ cargs) (last_writer d))).

(** All the edges of the graph: those between operations and "in" terminals,
    and those into the "out" terminals. *)
Definition out_edges (d : DAGCircuit) : list (nat * nat) :=
  omap (λ wo, match last_writer d !! fst wo with
              | Some n => Some (n, snd wo)
              | None => None
              end) (map_to_list (output_map d)).

Definition dag_edges (d : DAGCircuit) : list (nat * nat) :=
  edges d ++ out_edges d.

(** [u] comes before [v] in [l]. *)
Fixpoint precedesb (l : list nat) (u v : nat) : bool :=
  match l with
  | [] => false
  | x :: l' => if Nat.eqb x u then existsb (Nat.eqb v) l' else precedesb l' u v
  end.

(** [topological_node_order()]: "any linear node ordering consistent with all
    dependency edges of the DAG".  [order] lists every node once and each
    edge goes forward in it. *)
Definition is_topological_order (d : DAGCircuit) (order : list nat) : bool :=
  Nat.eqb (length order) (length (nodes d))
  && forallb (λ n, existsb (Nat.eqb n) order) (seq 0 (length (nodes d)))
  && forallb (λ e, precedesb order (fst e) (snd e)) (dag_edges d).

(** ** Circuit to DAG: [QuantumCircuit.dag] (lines 188-233) *)

Fixpoint foldR {A S : Type} (f : A → S → Result S) (l : list A) (s : S) : Result S :=
  match l with
  | [] => Ok s
  | a :: l' => s' <- f a s ;; foldR f l' s'
  end.

(** lines 207-213 *)
Definition builtins : OrderedDict (Z * Z * Z) :=
  [ ("U", (1, 0, 3)%Z);
    ("CX", (2, 0, 0)%Z);
    ("measure", (1, 1, 0)%Z);
    ("reset", (1, 0, 0)%Z);
    ("barrier", (-1, 0, 0)%Z) ].

Definition wire_of (b : Bit) : Wire := (reg_name (fst b), snd b).

(** lines 196-200 *)
Definition dag_register (register : Register) (dagcircuit : DAGCircuit) : Result DAGCircuit :=
  if is_quantum register
  then add_qreg (reg_name register) (reg_size register) dagcircuit
  else add_creg (reg_name register) (reg_size register) dagcircuit.

(** lines 202-205 *)
Definition dag_definition (def : string * GateData) (dagcircuit : DAGCircuit)
    : Result DAGCircuit :=
  d <- add_basis_element (fst def) (n_bits (snd def)) 0 (n_args (snd def)) dagcircuit ;;
  Ok (add_gate_data (fst def) (snd def) d).

(** lines 218-224: the operands, as [(qargs, cargs)] *)
Definition dag_operands (instruction : Instruction) : Result (list Wire * list Wire) :=
  if String.eqb (name instruction) "measure" then
    match arg instruction with
    | a0 :: a1 :: _ => Ok ([wire_of a0], [wire_of a1])
    | _ => Err PyIndexError
    end
  else Ok (map wire_of (arg instruction), []).

(** lines 226-229 *)
Definition dag_control (instruction : Instruction) : option (string * Z) :=
  match control instruction with
  | None => None
  | Some c => Some (reg_name (fst c), snd c)
  end.

(** lines 215-232: the body of the loop over [self.data] *)
Definition dag_instruction (instruction : Instruction) (dagcircuit : DAGCircuit)
    : Result DAGCircuit :=
  d <- match dict_get builtins (name instruction) with
       | Some (nq, nc, np) => add_basis_element (name instruction) nq nc np dagcircuit
       | None => Ok dagcircuit
       end ;;
  operands <- dag_operands instruction ;;
  apply_operation_back (name instruction) (fst operands) (snd operands)
    (param instruction) (dag_control instruction) d.

(** [dag]; [definitions] is the content of the class variable. *)
Definition dag (definitions : gmap string GateData) (self : QuantumCircuit)
    : Result DAGCircuit :=
  d1 <- foldR dag_register (dict_values (regs self)) DAGCircuit_init ;;
  d2 <- foldR dag_definition (map_to_list definitions) d1 ;;
  foldR dag_instruction (data self) d2.

(** ** DAG to circuit: [dag_to_circuit] (lines 16-69) *)

(** lines 25-28 and 29-32 *)
Definition fresh_registers (mk : nat → string → Register) (rs : OrderedDict Register)
    : OrderedDict Register :=
  fold_left (λ acc r, dict_set acc (reg_name r) (mk (reg_size r) (reg_name r)))
    (dict_values rs) [].

(** lines 40-42 and 44-46: [regs[bit[0].name][bit[1]]] for every operand *)
Fixpoint lookup_bits (rs : OrderedDict Register) (bs : list Bit) : Result (list Bit) :=
  match bs with
  | [] => Ok []
  | bit :: bs' =>
      b <- match dict_get rs (reg_name (fst bit)) with
           | Some r => Register_getitem r (snd bit)
           | None => Err PyKeyError
           end ;;
      rest <- lookup_bits rs bs' ;;
      Ok (b :: rest)
  end.

(** lines 54-63.  Modelled from the spec: the constructors behind
    [inst.__class__] are not part of the three files; they build "a
    brand-new instruction instance of the same operation" from the
    parameters and the bit references they are given. *)
Definition duplicate_instruction (inst : DagOp) : Instruction :=
  if String.eqb (op_name inst) "barrier" then
    mkInstruction (op_name inst) [] (op_qargs inst) None
  else if String.eqb (op_name inst) "snapshot" then
    mkInstruction (op_name inst) (op_params inst) (op_qargs inst) None
  else
    mkInstruction (op_name inst) (op_params inst) (op_qargs inst ++ op_cargs inst) None.

(** lines 38-67: the body of the loop over the nodes *)
Definition dag_to_circuit_node (dag : DAGCircuit) (qregs' cregs' : OrderedDict Register)
    (node : nat) : M unit :=
  match nodes dag !! node with
  | Some (NodeOp n) =>
      qubits <~ liftR (lookup_bits qregs' (op_qargs n)) ;;
      clbits <~ liftR (lookup_bits cregs' (op_cargs n)) ;;
      let control := op_condition n in
      let inst := duplicate_instruction n in
      _ <~ _attach (mkInstruction (name inst) (param inst) (arg inst) control) ;;
      retM tt
  | Some _ => retM tt
  | None => raise PyKeyError
  end.

Fixpoint dag_to_circuit_loop (dag : DAGCircuit) (qregs' cregs' : OrderedDict Register)
    (order : list nat) : M unit :=
  match order with
  | [] => retM tt
  | node :: order' =>
      _ <~ dag_to_circuit_node dag qregs' cregs' node ;;
      dag_to_circuit_loop dag qregs' cregs' order'
  end.

(** [dag_to_circuit]; [order] is what [dag.node_nums_in_topological_order()]
    returns.  The circuit class has no name here, the keyword [name] is left
    out. *)
Definition dag_to_circuit (dag : DAGCircuit) (order : list nat) : Result QuantumCircuit :=
  let qregs' := fresh_registers QuantumRegister (qregs dag) in
  let cregs' := fresh_registers ClassicalRegister (cregs dag) in
  circuit <- QuantumCircuit_init
               (map PReg (dict_values qregs') ++ map PReg (dict_values cregs')) ;;
  match dag_to_circuit_loop dag qregs' cregs' order circuit with
  | (Ok _, circuit') => Ok circuit'
  | (Err e, _) => Err e
  end.

(** ** Invariants of the data model

    The register map of a circuit is only written by [add] (line 145), under
    the name of the register and for a name that is not yet a key. *)

Fixpoint distinct_keys {V : Type} (d : OrderedDict V) : bool :=
  match d with
  | [] => true
  | (k, _) :: d' => negb (dict_in d' k) && distinct_keys d'
  end.

Definition wf_regs (rs : OrderedDict Register) : bool :=
  forallb (λ kv, String.eqb (fst kv) (reg_name (snd kv))) rs && distinct_keys rs.

(** "Every BitReference reachable from data resolves to a register present
    in registers." *)
Definition resolves (self : QuantumCircuit) : bool :=
  forallb (λ g, forallb (λ b, has_register self (fst b)) (arg g)) (data self).

(** An operand as [_check_qubit] (for [Quantum]) or lines 253-254 (for
    [Classical]) accept it. *)
Definition wf_operand (self : QuantumCircuit) (k : RegKind) (b : Bit) : bool :=
  match k with Quantum => is_quantum (fst b) | Classical => is_classical (fst b) end
  && has_register self (fst b)
  && (0 <=? snd b)%Z && (snd b <? Z.of_nat (reg_size (fst b)))%Z.

(** An instruction as the methods of the circuit attach it: a measurement
    has one quantum and one classical operand, every other instruction has
    quantum operands; a barrier has no parameters; a condition names a
    classical register of the circuit. *)
Definition wf_instruction (self : QuantumCircuit) (g : Instruction) : bool :=
  (if String.eqb (name g) "measure" then
     match arg g with
     | [q; c] => wf_operand self Quantum q && wf_operand self Classical c
     | _ => false
     end
   else forallb (wf_operand self Quantum) (arg g))
  && (if String.eqb (name g) "barrier" then
        match param g with [] => true | _ => false end
      else true)
  && match control g with
     | None => true
     | Some c => is_classical (fst c) && has_register self (fst c)
     end.

Definition wf_circuit (self : QuantumCircuit) : bool :=
  wf_regs (regs self) && forallb (wf_instruction self) (data self).

(** No gate definition gives a builtin another arity than lines 207-213. *)
Definition compatible_definitions (definitions : gmap string GateData) : bool :=
  forallb (λ b, match definitions !! fst b with
                | None => true
                | Some gd => bool_decide ((n_bits gd, 0%Z, n_args gd) = snd b)
                end) builtins.

(** ** Chains *)

Definition reg_eqb (r1 r2 : Register) : bool :=
  String.eqb (reg_name r1) (reg_name r2)
  && Nat.eqb (reg_size r1) (reg_size r2)
  && match reg_kind r1, reg_kind r2 with
     | Quantum, Quantum | Classical, Classical => true
     | _, _ => false
     end.

Definition bit_eqb (b1 b2 : Bit) : bool :=
  reg_eqb (fst b1) (fst b2) && (snd b1 =? snd b2)%Z.

(** Two instructions share at least one bit. *)
Definition shares_bit (g1 g2 : Instruction) : bool :=
  existsb (λ b, existsb (bit_eqb b) (arg g2)) (arg g1).

(** Every consecutive pair of instructions shares at least one bit. *)
Fixpoint chain (gs : list Instruction) : bool :=
  match gs with
  | g1 :: gs' =>
      match gs' with
      | g2 :: _ => shares_bit g1 g2 && chain gs'
      | [] => true
      end
  | [] => true
  end.

(** The register of a register map, without its key. *)
Definition keyed (r : Register) : string * Register := (reg_name r, r).

(** Whether [add] refuses the value [v] in the state [self] (lines 142-148). *)
Definition refused (self : QuantumCircuit) (v : PyVal) : option QISKitError :=
  match v with
  | PReg r =>
      if dict_in (regs self) (reg_name r)
      then Some (RegisterNameAlreadyExists (reg_name r)) else None
  | _ => Some ExpectedARegister
  end.

(** ** Example circuits *)

Definition ex_q : Register := QuantumRegister 2 "q".
Definition ex_c : Register := ClassicalRegister 2 "c".
Definition ex_c3 : Register := ClassicalRegister 3 "c".

Definition ex_empty : QuantumCircuit := mkQuantumCircuit [] [].

(** [c[2]] declared before [q[2]], no instruction *)
Definition ex_cq : QuantumCircuit := mkQuantumCircuit [] [keyed ex_c; keyed ex_q].

(** [q[2]] and [c[3]] *)
Definition ex_q_c3 : QuantumCircuit := mkQuantumCircuit [] [keyed ex_q; keyed ex_c3].

(** [cx q[0],q[1]; measure q[1] -> c[1]; reset q[1]] over [c], [q]: a chain *)
Definition ex_chain : QuantumCircuit :=
  mkQuantumCircuit
    [ CnotGate (ex_q, 0%Z) (ex_q, 1%Z);
      mkInstruction "measure" [] [(ex_q, 1%Z); (ex_c, 1%Z)] None;
      mkInstruction "reset" [] [(ex_q, 1%Z)] (Some (ex_c, 1%Z)) ]
    [keyed ex_c; keyed ex_q].

(** ** Reading a DAG *)

Definition is_out (x : DagNode) : bool :=
  match x with NodeOut _ => true | _ => false end.

Definition node_is_out (d : DAGCircuit) (n : nat) : bool :=
  match nodes d !! n with Some x => is_out x | None => false end.

Definition as_op (x : DagNode) : option DagOp :=
  match x with NodeOp op => Some op | _ => None end.

(** The operation nodes, in the order of their creation. *)
Definition dag_ops (d : DAGCircuit) : list DagOp := omap as_op (nodes d).

(** The operations met when the nodes are visited in the order [order]. *)
Definition ops_at (d : DAGCircuit) (order : list nat) : list DagOp :=
  omap (λ n, nodes d !! n ≫= as_op) order.

(** An order of the nodes that is always topological: the nodes that are not
    "out" terminals in the order of their creation, then the "out"
    terminals. *)
Definition canonical_order (d : DAGCircuit) : list nat :=
  List.filter (λ n, negb (node_is_out d n)) (seq 0 (length (nodes d)))
  ++ List.filter (node_is_out d) (seq 0 (length (nodes d))).

(** [l] has [u] somewhere before [v]. *)
Definition precedes (l : list nat) (u v : nat) : Prop :=
  ∃ l1 l2 l3, l = l1 ++ u :: l2 ++ v :: l3.

(** The node that [dag] appends for an instruction (lines 218-232). *)
Definition dag_op_of (g : Instruction) : DagOp :=
  if String.eqb (name g) "measure" then
    match arg g with
    | a0 :: a1 :: _ => mkDagOp (name g) [a0] [a1] (param g) (control g)
    | _ => mkDagOp (name g) [] [] (param g) (control g)
    end
  else mkDagOp (name g) (arg g) [] (param g) (control g).

(** The instruction that [dag_to_circuit] attaches for an operation node
    (lines 65-67). *)
Definition instruction_of (op : DagOp) : Instruction :=
  mkInstruction (name (duplicate_instruction op)) (param (duplicate_instruction op))
    (arg (duplicate_instruction op)) (op_condition op).

(** The edges go forward between nodes that are not "out" terminals; the
    output of a bit is an "out" terminal and its last writer is not. *)
Record dag_inv (d : DAGCircuit) : Prop := mk_dag_inv {
  inv_edges : ∀ u v, (u, v) ∈ edges d →
    u < v ∧ v < length (nodes d) ∧ node_is_out d u = false ∧ node_is_out d v = false;
  inv_output : ∀ w o, output_map d !! w = Some o →
    o < length (nodes d) ∧ node_is_out d o = true;
  inv_writer : ∀ w n, last_writer d !! w = Some n →
    n < length (nodes d) ∧ node_is_out d n = false
}.

(** Every bit of a declared register has a last writer. *)
Definition wires_declared (d : DAGCircuit) : Prop :=
  ∀ r j, r ∈ dict_values (qregs d) ++ dict_values (cregs d) →
    (0 ≤ j < Z.of_nat (reg_size r))%Z → is_Some (last_writer d !! (reg_name r, j)).

(** The arity that line 203 declares for a gate definition. *)
Definition arity_of (gd : GateData) : Z * Z * Z := (n_bits gd, 0%Z, n_args gd).

(** The basis table after the instruction [g] has been seen (lines 216-217). *)
Definition basis_after (g : Instruction) (B : gmap string (Z * Z * Z))
    : gmap string (Z * Z * Z) :=
  match dict_get builtins (name g) with
  | Some a => <[name g := a]> B
  | None => B
  end.

(** No builtin has another arity in [B] than in lines 207-213. *)
Definition basis_ok (B : gmap string (Z * Z * Z)) : Prop :=
  ∀ nm a, dict_get builtins nm = Some a → B !! nm = None ∨ B !! nm = Some a.

(** The DAG has the registers of the circuit. *)
Definition regs_match (self : QuantumCircuit) (d : DAGCircuit) : Prop :=
  qregs d = map keyed (List.filter is_quantum (dict_values (regs self)))
  ∧ cregs d = map keyed (List.filter is_classical (dict_values (regs self))).

(** The DAG of [ex_cq]. *)
Definition ex_dag : DAGCircuit :=
  match dag ∅ ex_cq with
  | Ok d => d
  | Err _ => DAGCircuit_init
  end.

(** The example of the specification: [cx q[0],q[1]] followed by the
    measurement of the register [q] into the register [c]. *)
Definition ex_cx : QuantumCircuit :=
  mkQuantumCircuit [CnotGate (ex_q, 0%Z) (ex_q, 1%Z)] [keyed ex_q; keyed ex_c].

Definition ex_spec : QuantumCircuit := snd (measure (PReg ex_q) (PReg ex_c) ex_cx).

Definition ex_spec_dag : DAGCircuit :=
  match dag ∅ ex_spec with
  | Ok d => d
  | Err _ => DAGCircuit_init
  end.

(** ** The other methods of the circuit *)

(** [get_qregs] (lines 74-80); the dictionary is filled in the order of the
    register map. *)
Definition get_qregs (self : QuantumCircuit) : OrderedDict Register :=
  fold_left (λ qregs kv, if is_quantum (snd kv) then dict_set qregs (fst kv) (snd kv)
                         else qregs)
    (regs self) [].

(** [get_cregs] (lines 82-88) *)
Definition get_cregs (self : QuantumCircuit) : OrderedDict Register :=
  fold_left (λ cregs kv, if is_classical (snd kv) then dict_set cregs (fst kv) (snd kv)
                         else cregs)
    (regs self) [].

(** [__getitem__] (lines 130-132) for an integer [item]: the indexing of a
    Python list, where a negative index counts from the end and an index
    outside the list raises [IndexError]. *)
Definition QuantumCircuit_getitem (self : QuantumCircuit) (item : Z) : Result Instruction :=
  let n := Z.of_nat (length (data self)) in
  let i := if (item <? 0)%Z then (item + n)%Z else item in
  if ((i <? 0) || (n <=? i))%Z then Err PyIndexError
  else match data self !! Z.to_nat i with
       | Some gate => Ok gate
       | None => Err PyIndexError
       end.

#[global] Instance RegKind_eq_dec : EqDecision RegKind.
Proof. solve_decision. Defined.

#[global] Instance Register_eq_dec : EqDecision Register.
Proof. solve_decision. Defined.

(** [_check_dups] (lines 173-177); [set(qubits)] is the list without its
    repetitions, of which only the length is read. *)
Definition _check_dups (qubits : list Bit) : Result unit :=
  let squbits := remove_dups (A := Register * Z) qubits in
  if negb (Nat.eqb (length squbits) (length qubits))
  then Err DuplicateQubitArguments
  else Ok tt.

(** Modelled from the spec: the class [Reset] is not part of the three
    files; a reset holds the bit reference it is given. *)
Definition Reset (qubit : PyVal) : Result Instruction :=
  q <- as_bit qubit ;;
  Ok (mkInstruction "reset" [] [q] None).

(** [reset], the part for one bit (lines 264-265) *)
Definition reset_bit (quantum_register : PyVal) : M Instruction :=
  _ <~ (λ self, (_check_qubit self quantum_register, self)) ;;
  gate <~ liftR (Reset quantum_register) ;;
  _attach gate.

(** The loop of lines 261-262.  The call [self.reset((quantum_register, sizes))]
    is given a pair, for which the test of line 259 is false: it runs lines
    264-265. *)
Fixpoint reset_loop (quantum_register : Register) (indices : list nat)
    (instructions : InstructionSet) : M InstructionSet :=
  match indices with
  | [] => retM instructions
  | sizes :: indices' =>
      gate <~ reset_bit (PTuple (PReg quantum_register) (Z.of_nat sizes)) ;;
      reset_loop quantum_register indices' (InstructionSet_add instructions gate)
  end.

(** [reset] (lines 257-265) *)
Definition reset (quantum_register : PyVal) : M RetVal :=
  match quantum_register with
  | PReg q =>
      if is_quantum q then
        s <~ reset_loop q (seq 0 (reg_size q)) (mkInstructionSet []) ;;
        retM (RSet s)
      else
        gate <~ reset_bit quantum_register ;;
        retM (RInstr gate)
  | _ =>
      gate <~ reset_bit quantum_register ;;
      retM (RInstr gate)
  end.

(** [__add__] (lines 118-120) and [__iadd__] (lines 122-124) *)
Definition QuantumCircuit_add (self rhs : nat) (h : Heap) : Result nat * Heap :=
  combine self rhs h.

Definition QuantumCircuit_iadd (fuel : nat) (self rhs : nat) (h : Heap)
    : option (Result nat * Heap) :=
  extend fuel self rhs h.

(** [qasm] (lines 179-186).  The methods [qasm] of the registers and of the
    instructions are not part of the three files: they are parameters. *)
Definition newline : string := String (Ascii.ascii_of_nat 10) EmptyString.

Definition header : string := "OPENQASM 2.0;".

Definition qasm (Register_qasm : Register → string) (Instruction_qasm : Instruction → string)
    (self : QuantumCircuit) : string :=
  let string0 := (header ++ newline)%string in
  let string1 :=
    fold_left (λ s register, (s ++ (Register_qasm register ++ newline))%string)
      (dict_values (regs self)) string0 in
  fold_left (λ s instruction, (s ++ (Instruction_qasm instruction ++ newline))%string)
    (data self) string1.

(** The edges of the DAG as a relation. *)
Definition dag_edge (d : DAGCircuit) (u v : nat) : Prop := (u, v) ∈ edges d.

(** More example circuits. *)
Definition ex_measured : QuantumCircuit :=
  mkQuantumCircuit [mkInstruction "measure" [] [(ex_q, 0%Z); (ex_c, 0%Z)] None]
    [keyed ex_q; keyed ex_c].

(** A measurement as [measure] attaches it. *)
Definition is_measurement (g : Instruction) : Prop :=
  name g = "measure" ∧ param g = [] ∧ control g = None ∧ length (arg g) = 2.

(** The circuits that the constructor, [measure] and [reset] make, whether
    the calls return or raise. *)
Inductive built : QuantumCircuit → Prop :=
| built_init (rs : list PyVal) (self : QuantumCircuit) :
    QuantumCircuit_init rs = Ok self → built self
| built_measure (qubit cbit : PyVal) (self self' : QuantumCircuit) (r : Result RetVal) :
    built self → measure qubit cbit self = (r, self') → built self'
| built_reset (quantum_register : PyVal) (self self' : QuantumCircuit) (r : Result RetVal) :
    built self → reset quantum_register self = (r, self') → built self'.

(** The lines of text that [f] gives for the elements of [l], each ended by
    a newline. *)
Definition text_lines {A : Type} (f : A → string) (l : list A) : string :=
  String.concat EmptyString (map (λ x, (f x ++ newline)%string) l).

(** The bit references [bs] name registers of [rs], with indices in range:
    what lines 40-42 and 44-46 of [dag_to_circuit] need to go through. *)
Definition bits_declared (rs : OrderedDict Register) (bs : list Bit) : Prop :=
  Forall (λ b, ∃ r, dict_get rs (reg_name (fst b)) = Some r
                    ∧ (0 ≤ snd b < Z.of_nat (reg_size r))%Z) bs.

(** The instruction [g] acts on the bit that the DAG names [w]. *)
Definition touches (g : Instruction) (w : Wire) : bool :=
  bool_decide (w ∈ map wire_of (arg g)).

(** * Properties *)

(** ** Ordered dictionaries *)

Section dict.
Context {V : Type}.
Implicit Types (d : OrderedDict V) (k : string) (v : V).

Lemma dict_in_spec d k : dict_in d k = true ↔ is_Some (dict_get d k).
Proof.
  unfold dict_in. destruct (dict_get d k); split; intros H; done.
Qed.

Lemma dict_in_false d k : dict_in d k = false ↔ dict_get d k = None.
Proof.
  unfold dict_in. destruct (dict_get d k); split; intros H; done.
Qed.

Lemma dict_get_elem d k v : dict_get d k = Some v → (k, v) ∈ d.
Proof.
  induction d as [|[k' v'] d IH]; simpl; [done|].
  destruct (String.eqb_spec k' k) as [->|Hne]; intros H.
  - injection H as ->. apply elem_of_cons; by left.
  - apply elem_of_cons; right; auto.
Qed.

Lemma dict_get_None d k : dict_get d k = None ↔ k ∉ d.*1.
Proof.
  induction d as [|[k' v'] d IH]; simpl.
  - split; [intros _ H; by apply elem_of_nil in H | done].
  - destruct (String.eqb_spec k' k) as [->|Hne].
    + split; [done|]. intros H. exfalso. apply H, elem_of_cons; by left.
    + rewrite IH. split; intros H.
      * intros [?|?]%elem_of_cons; [congruence | done].
      * intros ?. apply H, elem_of_cons; by right.
Qed.

Lemma distinct_keys_NoDup d : distinct_keys d = true ↔ NoDup d.*1.
Proof.
  induction d as [|[k v] d IH]; simpl.
  - split; [constructor | done].
  - rewrite andb_true_iff, negb_true_iff, dict_in_false, dict_get_None, IH.
    split.
    + intros [??]; by constructor.
    + by inversion 1.
Qed.

Lemma dict_get_distinct d k v :
  distinct_keys d = true → (k, v) ∈ d → dict_get d k = Some v.
Proof.
  induction d as [|[k' v'] d IH]; simpl.
  - intros _ H; by apply elem_of_nil in H.
  - rewrite andb_true_iff, negb_true_iff, dict_in_false, dict_get_None.
    intros [Hk' Hd] [Heq|Hin]%elem_of_cons.
    + injection Heq as -> ->. by rewrite String.eqb_refl.
    + destruct (String.eqb_spec k' k) as [->|Hne]; [|auto].
      exfalso. apply Hk'. apply (list_elem_of_fmap_2 fst) in Hin. done.
Qed.

Lemma dict_set_fresh d k v : dict_in d k = false → dict_set d k v = d ++ [(k, v)].
Proof.
  rewrite dict_in_false.
  induction d as [|[k' v'] d IH]; simpl; [done|].
  destruct (String.eqb k' k); [done|]. intros H. by rewrite IH.
Qed.

Lemma dict_get_app d1 d2 k :
  dict_get (d1 ++ d2) k =
  match dict_get d1 k with Some v => Some v | None => dict_get d2 k end.
Proof.
  induction d1 as [|[k' v'] d1 IH]; simpl; [done|].
  by destruct (String.eqb k' k).
Qed.

Lemma dict_in_app d1 d2 k : dict_in (d1 ++ d2) k = dict_in d1 k || dict_in d2 k.
Proof.
  unfold dict_in. rewrite dict_get_app. by destruct (dict_get d1 k).
Qed.

End dict.

(** ** Registers *)

Lemma Register_eq (r1 r2 : Register) :
  reg_name r1 = reg_name r2 → reg_size r1 = reg_size r2 → reg_kind r1 = reg_kind r2 →
  r1 = r2.
Proof. destruct r1, r2; simpl; congruence. Qed.

Lemma reg_eqb_eq (r1 r2 : Register) : reg_eqb r1 r2 = true ↔ r1 = r2.
Proof.
  unfold reg_eqb. rewrite !andb_true_iff, String.eqb_eq, Nat.eqb_eq. split.
  - intros [[??] ?]. apply Register_eq; [done..|].
    by destruct (reg_kind r1), (reg_kind r2).
  - intros ->. by destruct (reg_kind r2).
Qed.

Lemma bit_eqb_eq (b1 b2 : Bit) : bit_eqb b1 b2 = true ↔ b1 = b2.
Proof.
  unfold bit_eqb. rewrite andb_true_iff, reg_eqb_eq, Z.eqb_eq.
  destruct b1, b2; simpl. split; [intros [??]; congruence | by injection 1].
Qed.

Lemma is_classical_quantum (r : Register) : is_classical r = negb (is_quantum r).
Proof. unfold is_classical, is_quantum. by destruct (reg_kind r). Qed.

Lemma QuantumRegister_eq (r : Register) :
  is_quantum r = true → QuantumRegister (reg_size r) (reg_name r) = r.
Proof. destruct r as [n s []]; by cbv. Qed.

Lemma ClassicalRegister_eq (r : Register) :
  is_classical r = true → ClassicalRegister (reg_size r) (reg_name r) = r.
Proof. destruct r as [n s []]; by cbv. Qed.

Lemma wf_regs_spec (rs : OrderedDict Register) :
  wf_regs rs = true ↔ (∀ k r, (k, r) ∈ rs → k = reg_name r) ∧ NoDup rs.*1.
Proof.
  unfold wf_regs. rewrite andb_true_iff, distinct_keys_NoDup, forallb_forall.
  split; intros [H ?]; split; try done.
  - intros k r Hin. apply list_elem_of_In, H in Hin. by apply String.eqb_eq in Hin.
  - intros [k r] Hin. apply String.eqb_eq; simpl. by apply H, list_elem_of_In.
Qed.

(** ** [has_register] *)

Lemma has_register_spec (self : QuantumCircuit) (r : Register) :
  has_register self r = true ↔
  ∃ r', dict_get (regs self) (reg_name r) = Some r'
        ∧ reg_size r' = reg_size r ∧ reg_kind r' = reg_kind r.
Proof.
  unfold has_register, dict_in, is_quantum, is_classical.
  destruct (dict_get (regs self) (reg_name r)) as [r'|].
  - destruct (Nat.eqb_spec (reg_size r') (reg_size r)) as [Hs|Hs].
    + destruct (reg_kind r) eqn:Hk, (reg_kind r') eqn:Hk'; simpl; split;
        intros H; try discriminate H; try reflexivity;
        first [ by exists r' | destruct H as (?&[= <-]&?&?); congruence ].
    + split; [done|]. intros (?&[= <-]&?&?); congruence.
  - split; [done|]. by intros (?&?&_).
Qed.

Lemma has_register_elem (self : QuantumCircuit) (r : Register) :
  wf_regs (regs self) = true →
  has_register self r = true ↔ r ∈ dict_values (regs self).
Proof.
  intros [Hkey Hnd%distinct_keys_NoDup]%wf_regs_spec. rewrite has_register_spec. split.
  - intros (r'&Hget&Hs&Hk). apply dict_get_elem in Hget.
    assert (r' = r) as <-.
    { apply Register_eq; [|done..]. symmetry. by apply Hkey. }
    by apply (list_elem_of_fmap_2 snd) in Hget.
  - intros ((k&r')&->&Hin)%list_elem_of_fmap. simpl. exists r'.
    split; [|done]. apply dict_get_distinct; [done|].
    by rewrite <- (Hkey _ _ Hin).
Qed.

(** C8: [has_register(r2)] is true exactly when some register [r1] of the
    circuit has the name, the size and the kind of [r2]; nothing else of
    [r2] is looked at. *)
Theorem has_register_iff (self : QuantumCircuit) (r2 : Register) :
  wf_regs (regs self) = true →
  has_register self r2 = true ↔
  ∃ r1, r1 ∈ dict_values (regs self)
        ∧ reg_name r1 = reg_name r2
        ∧ reg_size r1 = reg_size r2
        ∧ reg_kind r1 = reg_kind r2.
Proof.
  intros Hwf. rewrite has_register_elem by done. split.
  - intros Hin. by exists r2.
  - intros (r1&Hin&?&?&?). by rewrite <- (Register_eq r1 r2).
Qed.

Lemma has_register_iff_witness :
  wf_regs (regs ex_cq) = true
  ∧ (has_register ex_cq (mkRegister "q" 2 Quantum) = true ↔
     ∃ r1, r1 ∈ dict_values (regs ex_cq)
           ∧ reg_name r1 = "q" ∧ reg_size r1 = 2 ∧ reg_kind r1 = Quantum).
Proof.
  split; [reflexivity|].
  apply (has_register_iff ex_cq (mkRegister "q" 2 Quantum)). reflexivity.
Defined.

(** ** [add] *)

Lemma add_app (rs1 rs2 : list PyVal) (self : QuantumCircuit) :
  add (rs1 ++ rs2) self =
  match add rs1 self with
  | (Ok _, self') => add rs2 self'
  | (Err e, self') => (Err e, self')
  end.
Proof.
  revert self. induction rs1 as [|v rs1 IH]; intros self; simpl; [done|].
  destruct v as [r| |]; try done.
  destruct (negb (dict_in (regs self) (reg_name r))); [apply IH | done].
Qed.

(** What [add] has done when it returns: the registers are appended to the
    map in the order of the call, and the instructions are not touched. *)
Lemma add_Ok (pre : list Register) (self self' : QuantumCircuit) :
  add (map PReg pre) self = (Ok tt, self') →
  regs self' = regs self ++ map keyed pre ∧ data self' = data self.
Proof.
  revert self. induction pre as [|r pre IH]; intros self; simpl.
  - intros [= <-]. by rewrite app_nil_r.
  - destruct (dict_in (regs self) (reg_name r)) eqn:Hin; simpl; [done|].
    intros [Hregs Hdata]%IH. simpl in *.
    rewrite Hregs, dict_set_fresh by done. by rewrite <- app_assoc.
Qed.

Lemma add_Err (rs : list PyVal) (self self' : QuantumCircuit) (e : QISKitError) :
  add rs self = (Err e, self') →
  ∃ pre v post, rs = map PReg pre ++ v :: post
                ∧ add (map PReg pre) self = (Ok tt, self')
                ∧ refused self' v = Some e.
Proof.
  revert self. induction rs as [|v rs IH]; intros self; simpl; [done|].
  destruct v as [r|w i|].
  - destruct (dict_in (regs self) (reg_name r)) eqn:Hin; simpl.
    + intros [= <- <-]. exists [], (PReg r), rs. simpl. by rewrite Hin.
    + intros (pre&v&post&->&Hadd&Href)%IH. exists (r :: pre), v, post.
      simpl. by rewrite Hin.
  - intros [= <- <-]. by exists [], (PTuple w i), rs.
  - intros [= <- <-]. by exists [], PNone, rs.
Qed.

Lemma refused_kind (self : QuantumCircuit) (v : PyVal) (e : QISKitError) :
  refused self v = Some e →
  (error_kind e = ExpectedRegisterError ∧ ∀ r, v ≠ PReg r)
  ∨ (error_kind e = DuplicateRegisterNameError
     ∧ ∃ r, v = PReg r ∧ dict_in (regs self) (reg_name r) = true).
Proof.
  destruct v as [r| |]; simpl.
  - destruct (dict_in (regs self) (reg_name r)) eqn:Hin; [|done].
    intros [= <-]. right. split; [done|]. by exists r.
  - intros [= <-]. by left.
  - intros [= <-]. by left.
Qed.

(** [add] fails as soon as one of the values is refused in the state the
    circuit has before the call. *)
Lemma add_refused (rs : list PyVal) (self : QuantumCircuit) (v : PyVal) :
  v ∈ rs → refused self v ≠ None → ∃ e self', add rs self = (Err e, self').
Proof.
  revert self. induction rs as [|w rs IH]; intros self Hin Href.
  - by apply elem_of_nil in Hin.
  - simpl. destruct w as [r| |]; [|by eexists _, _..].
    destruct (dict_in (regs self) (reg_name r)) eqn:Hr; simpl; [by eexists _, _|].
    apply elem_of_cons in Hin as [->|Hin].
    + simpl in Href. by rewrite Hr in Href.
    + apply IH; [done|]. destruct v as [r'| |]; try done. simpl in *.
      rewrite dict_set_fresh, dict_in_app by done.
      destruct (dict_in (regs self) (reg_name r')); [done|]. by destruct Href.
Qed.

(** The registers that [add] is given keep the invariant of the register
    map. *)
Lemma add_wf_regs (rs : list PyVal) (self self' : QuantumCircuit) :
  wf_regs (regs self) = true → add rs self = (Ok tt, self') →
  wf_regs (regs self') = true.
Proof.
  revert self. induction rs as [|v rs IH]; intros self Hwf; simpl.
  - by intros [= <-].
  - destruct v as [r| |]; try done.
    destruct (dict_in (regs self) (reg_name r)) eqn:Hin; simpl; [done|].
    apply IH. simpl. rewrite dict_set_fresh by done.
    apply wf_regs_spec in Hwf as [Hkey Hnd]. apply wf_regs_spec. split.
    + intros k r' [?|[= -> ->]%list_elem_of_singleton]%elem_of_app; auto.
    + rewrite fmap_app. apply NoDup_app. split_and!; [done| |apply NoDup_singleton].
      intros k Hk ->%list_elem_of_singleton. simpl in *.
      by apply dict_in_false, dict_get_None in Hin.
Qed.

(** C7 (amended): when [add] fails, it fails on the first value [v] that is
    refused, with [ExpectedRegisterError] if [v] is not a register and with
    [DuplicateRegisterNameError] if the name of [v] is already a key of the
    register map; the registers [pre] given before [v] have been added, so
    the register map is the one from before the call only when [v] is the
    first value.  The instructions are not touched. *)
Theorem add_failure (self self' : QuantumCircuit) (rs : list PyVal) (e : QISKitError) :
  add rs self = (Err e, self') →
  ∃ pre v post,
    rs = map PReg pre ++ v :: post
    ∧ ((error_kind e = ExpectedRegisterError ∧ ∀ r, v ≠ PReg r)
       ∨ (error_kind e = DuplicateRegisterNameError
          ∧ ∃ r, v = PReg r ∧ dict_in (regs self') (reg_name r) = true))
    ∧ regs self' = regs self ++ map keyed pre
    ∧ data self' = data self
    ∧ (regs self' = regs self ↔ pre = []).
Proof.
  intros (pre&v&post&->&Hadd&Href)%add_Err. exists pre, v, post.
  apply add_Ok in Hadd as [Hregs Hdata].
  split_and!; [done|by apply refused_kind|done..|].
  rewrite Hregs. split.
  - intros Heq. apply (f_equal length) in Heq.
    rewrite length_app, length_map in Heq. destruct pre; [done|simpl in Heq; lia].
  - intros ->. apply app_nil_r.
Qed.

Lemma add_failure_witness :
  add [PReg ex_q; PReg ex_q] ex_empty
    = (Err (RegisterNameAlreadyExists "q"), mkQuantumCircuit [] [keyed ex_q])
  ∧ ∃ pre v post,
      [PReg ex_q; PReg ex_q] = map PReg pre ++ v :: post
      ∧ ((error_kind (RegisterNameAlreadyExists "q") = ExpectedRegisterError
          ∧ ∀ r, v ≠ PReg r)
         ∨ (error_kind (RegisterNameAlreadyExists "q") = DuplicateRegisterNameError
            ∧ ∃ r, v = PReg r
                   ∧ dict_in (regs (mkQuantumCircuit [] [keyed ex_q])) (reg_name r) = true))
      ∧ regs (mkQuantumCircuit [] [keyed ex_q]) = regs ex_empty ++ map keyed pre
      ∧ data (mkQuantumCircuit [] [keyed ex_q]) = data ex_empty
      ∧ (regs (mkQuantumCircuit [] [keyed ex_q]) = regs ex_empty ↔ pre = []).
Proof.
  split; [reflexivity|].
  apply (add_failure ex_empty (mkQuantumCircuit [] [keyed ex_q]) [PReg ex_q; PReg ex_q]).
  reflexivity.
Defined.

(** C7, as stated, fails: [add(q, q)] on an empty circuit fails with
    [DuplicateRegisterNameError] at the second value, and the first one has
    been added to the register map. *)
Lemma add_partial_effect :
  add [PReg ex_q; PReg ex_q] ex_empty
    = (Err (RegisterNameAlreadyExists "q"), mkQuantumCircuit [] [keyed ex_q])
  ∧ error_kind (RegisterNameAlreadyExists "q") = DuplicateRegisterNameError
  ∧ regs (mkQuantumCircuit [] [keyed ex_q]) ≠ regs ex_empty.
Proof. split_and!; [reflexivity | reflexivity | discriminate]. Qed.

(** ** [measure] *)

Lemma has_register_attach (self : QuantumCircuit) (gs : list Instruction) (r : Register) :
  has_register (mkQuantumCircuit (data self ++ gs) (regs self)) r = has_register self r.
Proof. reflexivity. Qed.

Lemma check_range_Ok (r : Register) (j : Z) :
  (0 ≤ j < Z.of_nat (reg_size r))%Z → check_range r j = Ok tt.
Proof.
  intros [??]. unfold check_range.
  destruct (Z.ltb_spec j 0); [lia|]. destruct (Z.leb_spec (Z.of_nat (reg_size r)) j); [lia|done].
Qed.

(** Lines 252-255 on a bit of a quantum register and a bit of a classical
    register of the circuit. *)
Lemma measure_bit_Ok (self : QuantumCircuit) (q c : Register) (i j : Z) :
  is_quantum q = true → has_register self q = true → (0 ≤ i < Z.of_nat (reg_size q))%Z →
  is_classical c = true → has_register self c = true → (0 ≤ j < Z.of_nat (reg_size c))%Z →
  measure_bit (PTuple (PReg q) i) (PTuple (PReg c) j) self =
  (Ok (mkInstruction "measure" [] [(q, i); (c, j)] None),
   mkQuantumCircuit (data self ++ [mkInstruction "measure" [] [(q, i); (c, j)] None])
     (regs self)).
Proof.
  intros Hq Hhq Hi Hc Hhc Hj.
  unfold measure_bit, bindM, liftR, _check_qubit, _attach; simpl.
  rewrite Hq, Hhq, Hc, Hhc; simpl. by rewrite !check_range_Ok.
Qed.

Lemma measure_loop_Ok (self : QuantumCircuit) (q c : Register) (indices : list nat)
    (s : InstructionSet) :
  is_quantum q = true → has_register self q = true →
  is_classical c = true → has_register self c = true →
  Forall (λ i, i < reg_size q ∧ i < reg_size c) indices →
  measure_loop q c indices s self =
  (Ok (mkInstructionSet
         (instructions s ++
          map (λ i, mkInstruction "measure" [] [(q, Z.of_nat i); (c, Z.of_nat i)] None)
            indices)),
   mkQuantumCircuit
     (data self ++
      map (λ i, mkInstruction "measure" [] [(q, Z.of_nat i); (c, Z.of_nat i)] None) indices)
     (regs self)).
Proof.
  intros Hq Hhq Hc Hhc. revert self s Hhq Hhc.
  induction indices as [|i indices IH]; intros self s Hhq Hhc Hall; simpl.
  - unfold retM. rewrite !app_nil_r. by destruct self, s.
  - apply Forall_cons in Hall as [[??] Hall]. unfold bindM.
    rewrite measure_bit_Ok by (done || lia).
    rewrite IH by done. simpl. by rewrite <- !app_assoc.
Qed.

(** C4: for a quantum register [q] and a classical register [c] of the
    circuit that have the same size, [measure(q, c)] attaches [q.size]
    measurements, in the order of the indices, the one at index [i] measuring
    [(q, i)] into [(c, i)], and returns them in an instruction set. *)
Theorem measure_registers (self : QuantumCircuit) (q c : Register) :
  is_quantum q = true → is_classical c = true → reg_size q = reg_size c →
  has_register self q = true → has_register self c = true →
  ∃ ms : list Instruction,
    measure (PReg q) (PReg c) self =
      (Ok (RSet (mkInstructionSet ms)), mkQuantumCircuit (data self ++ ms) (regs self))
    ∧ length ms = reg_size q
    ∧ ∀ i, i < reg_size q →
        ms !! i = Some (mkInstruction "measure" [] [(q, Z.of_nat i); (c, Z.of_nat i)] None).
Proof.
  intros Hq Hc Hsize Hhq Hhc.
  exists (map (λ i, mkInstruction "measure" [] [(q, Z.of_nat i); (c, Z.of_nat i)] None)
            (seq 0 (reg_size q))).
  split_and!.
  - unfold measure, is_register_pair. rewrite Hq, Hc, Hsize, Nat.eqb_refl. simpl.
    unfold bindM. rewrite <- Hsize. rewrite measure_loop_Ok; [done..|].
    apply Forall_forall. intros i Hi%elem_of_seq. lia.
  - by rewrite length_map, length_seq.
  - intros i Hi. rewrite list_lookup_fmap, lookup_seq_lt by done. done.
Qed.

Lemma measure_registers_witness :
  (is_quantum ex_q = true ∧ is_classical ex_c = true ∧ reg_size ex_q = reg_size ex_c
   ∧ has_register ex_cq ex_q = true ∧ has_register ex_cq ex_c = true)
  ∧ ∃ ms : list Instruction,
      measure (PReg ex_q) (PReg ex_c) ex_cq =
        (Ok (RSet (mkInstructionSet ms)), mkQuantumCircuit (data ex_cq ++ ms) (regs ex_cq))
      ∧ length ms = reg_size ex_q
      ∧ ∀ i, i < reg_size ex_q →
          ms !! i = Some (mkInstruction "measure" []
                            [(ex_q, Z.of_nat i); (ex_c, Z.of_nat i)] None).
Proof.
  split; [by split_and!|].
  apply (measure_registers ex_cq ex_q ex_c); reflexivity.
Defined.

(** C5 (amended): for a quantum and a classical register of unequal sizes,
    [measure] has no test of the sizes: lines 252-255 take the registers for
    bit references and refuse the first one, with "expected quantum
    register" (an index error if the quantum register has no bit 0).  The
    error is not a size mismatch, and nothing is attached. *)
Theorem measure_unequal_sizes (self : QuantumCircuit) (q c : Register) :
  is_quantum q = true → is_classical c = true → reg_size q ≠ reg_size c →
  ∃ e, measure (PReg q) (PReg c) self = (Err e, self)
       ∧ error_kind e ≠ SizeMismatchError
       ∧ (0 < reg_size q → e = ExpectedQuantumRegister).
Proof.
  intros Hq Hc Hsize. unfold measure, is_register_pair.
  rewrite Hq, Hc. simpl. destruct (Nat.eqb_spec (reg_size q) (reg_size c)); [done|].
  unfold bindM, measure_bit, _check_qubit, bindM, getitem0, Register_getitem, check_range.
  simpl. destruct (Z.leb_spec (Z.of_nat (reg_size q)) 0); simpl.
  - exists RegisterIndexOutOfRange. split_and!; [done..|lia].
  - by exists ExpectedQuantumRegister.
Qed.

Lemma measure_unequal_sizes_witness :
  (is_quantum ex_q = true ∧ is_classical ex_c3 = true ∧ reg_size ex_q ≠ reg_size ex_c3)
  ∧ ∃ e, measure (PReg ex_q) (PReg ex_c3) ex_q_c3 = (Err e, ex_q_c3)
         ∧ error_kind e ≠ SizeMismatchError
         ∧ (0 < reg_size ex_q → e = ExpectedQuantumRegister).
Proof.
  split; [split_and!; [reflexivity | reflexivity | simpl; lia] |].
  apply (measure_unequal_sizes ex_q_c3 ex_q ex_c3); [reflexivity | reflexivity | simpl; lia].
Defined.

(** C5, as stated, fails: measuring [q[2]] into [c[3]] raises "expected
    quantum register", which is no [SizeMismatchError]. *)
Lemma measure_no_size_mismatch :
  measure (PReg ex_q) (PReg ex_c3) ex_q_c3 = (Err ExpectedQuantumRegister, ex_q_c3)
  ∧ ¬ ∃ e, fst (measure (PReg ex_q) (PReg ex_c3) ex_q_c3) = Err e
           ∧ error_kind e = SizeMismatchError.
Proof.
  split; [reflexivity|]. intros (e&[= <-]&He). discriminate He.
Qed.

(** ** [CnotGate.inverse] *)

(** C9: the inverse of a controlled-NOT gate is the gate itself, with its
    name, parameters and operands in their order; inverting twice gives the
    gate back. *)
Theorem CnotGate_inverse (ctl tgt : Bit) (cond : option (Register * Z)) :
  inverse (mkInstruction "cx" [] [ctl; tgt] cond) = mkInstruction "cx" [] [ctl; tgt] cond
  ∧ inverse (inverse (CnotGate ctl tgt)) = CnotGate ctl tgt
  ∧ name (inverse (CnotGate ctl tgt)) = "cx"
  ∧ param (inverse (CnotGate ctl tgt)) = []
  ∧ arg (inverse (CnotGate ctl tgt)) = [ctl; tgt].
Proof. by split_and!. Qed.

(** ** [combine] and [extend] *)

Lemma keyed_values (rs : OrderedDict Register) :
  wf_regs rs = true → map keyed (dict_values rs) = rs.
Proof.
  intros [Hkey _]%wf_regs_spec. unfold dict_values.
  induction rs as [|[k r] rs IH]; simpl; [done|].
  rewrite IH.
  - unfold keyed. rewrite <- (Hkey k r); [done|]. apply elem_of_cons; by left.
  - intros k' r' Hin. apply Hkey, elem_of_cons; by right.
Qed.

Lemma add_fresh (pre : list Register) (self : QuantumCircuit) :
  wf_regs (regs self ++ map keyed pre) = true →
  add (map PReg pre) self = (Ok tt, mkQuantumCircuit (data self) (regs self ++ map keyed pre)).
Proof.
  revert self. induction pre as [|r pre IH]; intros self Hwf; simpl.
  - unfold retM. rewrite app_nil_r. by destruct self.
  - assert (dict_in (regs self) (reg_name r) = false) as Hin.
    { apply wf_regs_spec in Hwf as [_ Hnd]. apply dict_in_false, dict_get_None.
      rewrite fmap_app in Hnd. apply NoDup_app in Hnd as (_&Hnd&_).
      intros Hk. apply (Hnd _ Hk). simpl. apply elem_of_cons; by left. }
    rewrite Hin. simpl. rewrite dict_set_fresh by done.
    rewrite IH; simpl; by rewrite <- app_assoc.
Qed.

(** The circuit of lines 99-100: the registers of [self], no instruction. *)
Lemma QuantumCircuit_init_regs (rs : OrderedDict Register) :
  wf_regs rs = true →
  QuantumCircuit_init (map PReg (dict_values rs)) = Ok (mkQuantumCircuit [] rs).
Proof.
  intros Hwf. unfold QuantumCircuit_init.
  rewrite add_fresh; simpl; by rewrite keyed_values.
Qed.

Lemma rebind_Ok (target : QuantumCircuit) (b : Bit) :
  wf_regs (regs target) = true → has_register target (fst b) = true →
  rebind target b = Ok b.
Proof.
  intros [Hkey _]%wf_regs_spec (r&Hget&Hsize&Hkind)%has_register_spec.
  unfold rebind. rewrite Hget, Hsize, Nat.eqb_refl.
  apply dict_get_elem, Hkey in Hget.
  rewrite (Register_eq r (fst b)) by done. by destruct b.
Qed.

Lemma rebind_all_Ok (target : QuantumCircuit) (bs : list Bit) :
  wf_regs (regs target) = true →
  forallb (λ b, has_register target (fst b)) bs = true →
  rebind_all target bs = Ok bs.
Proof.
  intros Hwf. induction bs as [|b bs IH]; simpl; [done|].
  intros [Hb Hbs]%andb_true_iff. by rewrite rebind_Ok, IH.
Qed.

Lemma reapply_Ok (gate : Instruction) (circ : QuantumCircuit) :
  wf_regs (regs circ) = true →
  forallb (λ b, has_register circ (fst b)) (arg gate) = true →
  reapply gate circ = (Ok gate, mkQuantumCircuit (data circ ++ [gate]) (regs circ)).
Proof.
  intros Hwf Hargs. unfold reapply. rewrite rebind_all_Ok by done. by destruct gate.
Qed.

Lemma replay_Ok (gates : list Instruction) (target : nat) (h : Heap) (circ : QuantumCircuit) :
  h !! target = Some circ → wf_regs (regs circ) = true →
  forallb (λ g, forallb (λ b, has_register circ (fst b)) (arg g)) gates = true →
  replay gates target h =
  (Ok tt, <[target := mkQuantumCircuit (data circ ++ gates) (regs circ)]> h).
Proof.
  revert h circ. induction gates as [|g gates IH]; intros h circ Hh Hwf; cbn [replay forallb].
  - intros _. rewrite app_nil_r. destruct circ. by rewrite list_insert_id.
  - intros [Hg Hgs]%andb_true_iff. unfold reapply_at.
    rewrite Hh, reapply_Ok by done.
    rewrite (IH _ (mkQuantumCircuit (data circ ++ [g]) (regs circ))); [| |done..].
    + simpl. by rewrite list_insert_insert_eq, <- app_assoc.
    + apply list_lookup_insert_eq. by apply lookup_lt_Some in Hh.
Qed.

(** A register that [rhs] resolves is a register of [rhs], and the test of
    lines 96-98 has found it in [self]. *)
Lemma resolves_transfer (c1 c2 : QuantumCircuit) :
  wf_regs (regs c2) = true →
  forallb (has_register c1) (dict_values (regs c2)) = true →
  resolves c2 = true →
  forallb (λ g, forallb (λ b, has_register c1 (fst b)) (arg g)) (data c2) = true.
Proof.
  intros Hwf Hall Hres. apply forallb_forall. intros g Hg.
  apply forallb_forall. intros b Hb.
  unfold resolves in Hres. rewrite forallb_forall in Hres.
  specialize (Hres g Hg). rewrite forallb_forall in Hres. specialize (Hres b Hb).
  apply has_register_elem in Hres; [|done].
  rewrite forallb_forall in Hall. by apply Hall, list_elem_of_In.
Qed.

(** C2: when every register of [rhs] is a register of [self] for
    [has_register], [combine] returns a new circuit object over the
    registers of [self] whose instructions are those of [self], in their
    order, followed by those of [rhs], in their order, [len(self) + len(rhs)]
    of them; [self] and [rhs] (and every other circuit of the heap) are what
    they were. *)
Theorem combine_appends (h : Heap) (self rhs : nat) (c1 c2 : QuantumCircuit) :
  h !! self = Some c1 → h !! rhs = Some c2 →
  wf_regs (regs c1) = true → resolves c1 = true →
  wf_regs (regs c2) = true → resolves c2 = true →
  forallb (has_register c1) (dict_values (regs c2)) = true →
  ∃ c, combine self rhs h = (Ok (length h), h ++ [c])
       ∧ h !! length h = None
       ∧ data c = data c1 ++ data c2
       ∧ len c = len c1 + len c2
       ∧ regs c = regs c1
       ∧ (h ++ [c]) !! self = Some c1
       ∧ (h ++ [c]) !! rhs = Some c2.
Proof.
  intros Hself Hrhs Hwf1 Hres1 Hwf2 Hres2 Hall.
  exists (mkQuantumCircuit (data c1 ++ data c2) (regs c1)).
  split_and!; [|by apply lookup_ge_None|done|by unfold len; simpl; rewrite length_app|done|..].
  - unfold combine. rewrite Hself, Hrhs, Hall, QuantumCircuit_init_regs by done.
    rewrite (replay_Ok _ _ _ (mkQuantumCircuit [] (regs c1))); [| |done|].
    + simpl. by rewrite insert_app_r_alt, Nat.sub_diag by done.
    + by rewrite lookup_app_r, Nat.sub_diag by done.
    + rewrite forallb_app. apply andb_true_iff. split; [done|].
      by apply resolves_transfer.
  - by apply lookup_app_l_Some.
  - by apply lookup_app_l_Some.
Qed.

Lemma combine_appends_witness :
  ([ex_chain; ex_cq] !! 0 = Some ex_chain ∧ [ex_chain; ex_cq] !! 1 = Some ex_cq
   ∧ wf_regs (regs ex_chain) = true ∧ resolves ex_chain = true
   ∧ wf_regs (regs ex_cq) = true ∧ resolves ex_cq = true
   ∧ forallb (has_register ex_chain) (dict_values (regs ex_cq)) = true)
  ∧ ∃ c, combine 0 1 [ex_chain; ex_cq]
           = (Ok (length [ex_chain; ex_cq]), [ex_chain; ex_cq] ++ [c])
         ∧ [ex_chain; ex_cq] !! length [ex_chain; ex_cq] = None
         ∧ data c = data ex_chain ++ data ex_cq
         ∧ len c = len ex_chain + len ex_cq
         ∧ regs c = regs ex_chain
         ∧ ([ex_chain; ex_cq] ++ [c]) !! 0 = Some ex_chain
         ∧ ([ex_chain; ex_cq] ++ [c]) !! 1 = Some ex_cq.
Proof.
  split; [by split_and!|].
  apply (combine_appends [ex_chain; ex_cq] 0 1 ex_chain ex_cq); reflexivity.
Defined.

(** C3: when some register of [rhs] is not a register of [self] for
    [has_register], [combine] and [extend] both fail with
    [IncompatibleRegistersError], and no circuit is changed: no instruction
    has been replayed and no register has been added. *)
Theorem incompatible_registers (h : Heap) (self rhs : nat) (c1 c2 : QuantumCircuit)
    (fuel : nat) :
  h !! self = Some c1 → h !! rhs = Some c2 →
  forallb (has_register c1) (dict_values (regs c2)) = false →
  combine self rhs h = (Err CircuitsAreNotCompatible, h)
  ∧ extend fuel self rhs h = Some (Err CircuitsAreNotCompatible, h)
  ∧ error_kind CircuitsAreNotCompatible = IncompatibleRegistersError.
Proof.
  intros Hself Hrhs Hall. unfold combine, extend. by rewrite Hself, Hrhs, Hall.
Qed.

Lemma incompatible_registers_witness :
  ([ex_cq; ex_q_c3] !! 0 = Some ex_cq ∧ [ex_cq; ex_q_c3] !! 1 = Some ex_q_c3
   ∧ forallb (has_register ex_cq) (dict_values (regs ex_q_c3)) = false)
  ∧ combine 0 1 [ex_cq; ex_q_c3] = (Err CircuitsAreNotCompatible, [ex_cq; ex_q_c3])
  ∧ extend 0 0 1 [ex_cq; ex_q_c3] = Some (Err CircuitsAreNotCompatible, [ex_cq; ex_q_c3])
  ∧ error_kind CircuitsAreNotCompatible = IncompatibleRegistersError.
Proof.
  split; [by split_and!|].
  apply (incompatible_registers [ex_cq; ex_q_c3] 0 1 ex_cq ex_q_c3 0); reflexivity.
Defined.

(** [extend] on two different circuit objects: the instructions of [rhs] are
    attached to [self], and enough fuel is one step more than [rhs] has
    instructions. *)
Lemma extend_loop_Ok (fuel i self rhs : nat) (h : Heap) (c1 c2 : QuantumCircuit) :
  self ≠ rhs → h !! self = Some c1 → h !! rhs = Some c2 →
  wf_regs (regs c1) = true →
  forallb (λ g, forallb (λ b, has_register c1 (fst b)) (arg g)) (drop i (data c2)) = true →
  length (data c2) - i < fuel →
  extend_loop fuel i self rhs h =
  Some (Ok tt, <[self := mkQuantumCircuit (data c1 ++ drop i (data c2)) (regs c1)]> h).
Proof.
  revert i h c1. induction fuel as [|fuel IH]; intros i h c1 Hne Hself Hrhs Hwf Hall Hfuel;
    [lia|].
  cbn [extend_loop]. rewrite Hrhs. destruct (data c2 !! i) as [gate|] eqn:Hi.
  - rewrite (drop_S _ _ _ Hi) in Hall |- *. simpl in Hall.
    apply andb_true_iff in Hall as [Hg Hgs].
    unfold reapply_at. rewrite Hself, reapply_Ok by done.
    apply lookup_lt_Some in Hi as Hlt.
    rewrite (IH _ _ (mkQuantumCircuit (data c1 ++ [gate]) (regs c1))); [| done | | | done..| lia].
    + simpl. by rewrite list_insert_insert_eq, <- app_assoc.
    + apply list_lookup_insert_eq. by apply lookup_lt_Some in Hself.
    + by rewrite list_lookup_insert_ne.
  - apply lookup_ge_None in Hi. rewrite drop_ge, app_nil_r by done.
    destruct c1. by rewrite list_insert_id.
Qed.

(** ** The invariants are those of the circuits that the methods build *)

Lemma check_range_inv (r : Register) (j : Z) :
  check_range r j = Ok tt → (0 ≤ j < Z.of_nat (reg_size r))%Z.
Proof.
  unfold check_range.
  destruct (Z.ltb_spec j 0); [done|].
  destruct (Z.leb_spec (Z.of_nat (reg_size r)) j); [done|]. lia.
Qed.

Lemma wf_circuit_spec (self : QuantumCircuit) :
  wf_circuit self = true →
  wf_regs (regs self) = true ∧ forallb (wf_instruction self) (data self) = true.
Proof. unfold wf_circuit. by rewrite andb_true_iff. Qed.

Lemma wf_instruction_regs (c1 c2 : QuantumCircuit) (g : Instruction) :
  regs c1 = regs c2 → wf_instruction c1 g = wf_instruction c2 g.
Proof.
  intros Hregs. unfold wf_instruction, wf_operand, has_register. by rewrite Hregs.
Qed.

(** A circuit made by the constructor is well formed. *)
Lemma QuantumCircuit_init_wf (rs : list PyVal) (self : QuantumCircuit) :
  QuantumCircuit_init rs = Ok self → wf_circuit self = true.
Proof.
  unfold QuantumCircuit_init.
  destruct (add rs _) as [[[]|e] self'] eqn:Hadd; [|done]. intros [= ->].
  pose proof Hadd as Hwf. apply add_wf_regs in Hwf; [|done].
  assert (∃ pre, rs = map PReg pre) as [pre ->].
  { clear Hwf. revert Hadd. generalize (mkQuantumCircuit [] []).
    induction rs as [|v rs IH]; intros c; simpl; [by exists []|].
    destruct v as [r| |]; try done.
    destruct (negb (dict_in (regs c) (reg_name r))); [|done].
    intros [pre ->]%IH. by exists (r :: pre). }
  apply add_Ok in Hadd as [_ Hdata]. unfold wf_circuit. by rewrite Hwf, Hdata.
Qed.

(** What lines 252-255 have checked when they attach a measurement. *)
Lemma measure_bit_inv (qubit cbit : PyVal) (self self' : QuantumCircuit) (g : Instruction) :
  measure_bit qubit cbit self = (Ok g, self') →
  ∃ q i c j,
    qubit = PTuple (PReg q) i ∧ cbit = PTuple (PReg c) j
    ∧ wf_operand self Quantum (q, i) = true
    ∧ wf_operand self Classical (c, j) = true
    ∧ g = mkInstruction "measure" [] [(q, i); (c, j)] None
    ∧ self' = mkQuantumCircuit (data self ++ [g]) (regs self).
Proof.
  unfold measure_bit, bindM, liftR, _check_qubit, _check_creg, getitem0, check_range_of,
    Measure, as_bit, _attach, bindR, Register_getitem.
  destruct qubit as [q|[q| |] i|]; simpl; try done.
  - destruct (check_range q 0); simpl; done.
  - destruct (is_quantum q) eqn:Hq; simpl; [|done].
    destruct (has_register self q) eqn:Hhq; simpl; [|done].
    destruct (check_range q i) as [[]|] eqn:Hi; simpl; [|done].
    destruct cbit as [c|[c| |] j|]; simpl; try done.
    + destruct (check_range c 0); simpl; done.
    + destruct (is_classical c) eqn:Hc; simpl; [|done].
      destruct (has_register self c) eqn:Hhc; simpl; [|done].
      destruct (check_range c j) as [[]|] eqn:Hj; simpl; [|done].
      intros [= <- <-]. exists q, i, c, j.
      apply check_range_inv in Hi, Hj. unfold wf_operand. simpl.
      rewrite Hq, Hhq, Hc, Hhc. simpl.
      split_and!; try done; apply andb_true_iff; split; (apply Z.leb_le || apply Z.ltb_lt); lia.
Qed.

Lemma wf_circuit_attach (self : QuantumCircuit) (g : Instruction) :
  wf_circuit self = true → wf_instruction self g = true →
  wf_circuit (mkQuantumCircuit (data self ++ [g]) (regs self)) = true.
Proof.
  intros [Hwf Hdata]%wf_circuit_spec Hg. unfold wf_circuit. simpl. rewrite Hwf. simpl.
  rewrite forallb_app. simpl.
  rewrite !(wf_instruction_regs (mkQuantumCircuit (data self ++ [g]) (regs self)) self g)
    by done.
  rewrite Hg, andb_true_r. rewrite forallb_forall in Hdata. apply forallb_forall.
  intros g' Hg'. rewrite (wf_instruction_regs _ self) by done. by apply Hdata.
Qed.

Lemma measure_bit_wf (qubit cbit : PyVal) (self self' : QuantumCircuit)
    (r : Result Instruction) :
  wf_circuit self = true → measure_bit qubit cbit self = (r, self') →
  wf_circuit self' = true.
Proof.
  intros Hwf Hm. destruct r as [g|e].
  - apply measure_bit_inv in Hm as (q&i&c&j&_&_&Hq&Hc&->&->).
    apply wf_circuit_attach; [done|]. unfold wf_instruction. simpl. by rewrite Hq, Hc.
  - revert Hm. unfold measure_bit, bindM, liftR, _attach.
    repeat (match goal with |- context [match ?x with _ => _ end] => destruct x end;
            simpl; try done); by intros [= _ <-].
Qed.

Lemma measure_loop_wf (q c : Register) (indices : list nat) (s : InstructionSet)
    (self self' : QuantumCircuit) (r : Result InstructionSet) :
  wf_circuit self = true → measure_loop q c indices s self = (r, self') →
  wf_circuit self' = true.
Proof.
  revert s self. induction indices as [|i indices IH]; intros s self Hwf; simpl.
  - by intros [= _ <-].
  - unfold bindM.
    destruct (measure_bit _ _ self) as [[g|e] self1] eqn:Hm;
      apply measure_bit_wf in Hm; try done.
    + by apply IH.
    + by intros [= _ <-].
Qed.

(** [measure] keeps a circuit well formed, whatever it is given and whether
    it returns or raises. *)
Lemma measure_wf (qubit cbit : PyVal) (self self' : QuantumCircuit) (r : Result RetVal) :
  wf_circuit self = true → measure qubit cbit self = (r, self') →
  wf_circuit self' = true.
Proof.
  intros Hwf. unfold measure, bindM, retM.
  destruct (is_register_pair qubit cbit) as [[q c]|].
  - destruct (measure_loop _ _ _ _ self) as [[s|e] self1] eqn:Hm;
      apply measure_loop_wf in Hm; try done; by intros [= _ <-].
  - destruct (measure_bit _ _ self) as [[g|e] self1] eqn:Hm;
      apply measure_bit_wf in Hm; try done; by intros [= _ <-].
Qed.

Lemma rebind_all_elem (circ : QuantumCircuit) (bs args : list Bit) (b : Bit) :
  rebind_all circ bs = Ok args → b ∈ args → fst b ∈ dict_values (regs circ).
Proof.
  revert args. induction bs as [|b0 bs IH]; intros args; simpl.
  - intros [= <-] H. by apply elem_of_nil in H.
  - unfold rebind at 1.
    destruct (dict_get (regs circ) (reg_name (fst b0))) as [r'|] eqn:Hget; simpl; [|done].
    destruct (Nat.eqb (reg_size r') (reg_size (fst b0))); simpl; [|done].
    destruct (rebind_all circ bs) as [bs'|]; simpl; [|done].
    intros [= <-] [->|Hin]%elem_of_cons; [|by apply (IH bs')].
    simpl. by apply dict_get_elem, (list_elem_of_fmap_2 snd) in Hget.
Qed.

(** [reapply] keeps the register map, and the bit references of the circuit
    resolved. *)
Lemma reapply_resolves (gate : Instruction) (circ circ' : QuantumCircuit)
    (r : Result Instruction) :
  wf_regs (regs circ) = true → resolves circ = true →
  reapply gate circ = (r, circ') →
  regs circ' = regs circ ∧ resolves circ' = true.
Proof.
  intros Hwf Hres. unfold reapply.
  destruct (rebind_all circ (arg gate)) as [args|e] eqn:Hargs; [|by intros [= _ <-]].
  unfold _attach. intros [= _ <-]. split; [done|].
  apply forallb_forall. intros g Hg%list_elem_of_In.
  apply forallb_forall. intros b Hb%list_elem_of_In.
  change (has_register circ (fst b) = true). simpl in Hg.
  apply elem_of_app in Hg as [Hg|Hg%list_elem_of_singleton].
  - unfold resolves in Hres. rewrite forallb_forall in Hres.
    apply list_elem_of_In, Hres in Hg. rewrite forallb_forall in Hg.
    by apply Hg, list_elem_of_In.
  - subst g. apply has_register_elem; [done|].
    by apply (rebind_all_elem circ (arg gate) args).
Qed.

(** ** Orders of the nodes *)

Lemma existsb_eqb_elem (v : nat) (l : list nat) : existsb (Nat.eqb v) l = true ↔ v ∈ l.
Proof.
  rewrite existsb_exists. split.
  - intros (x&Hin&->%Nat.eqb_eq). by apply list_elem_of_In.
  - intros Hin. exists v. split; [by apply list_elem_of_In | apply Nat.eqb_refl].
Qed.

Lemma precedesb_precedes (l : list nat) (u v : nat) :
  precedesb l u v = true → precedes l u v.
Proof.
  induction l as [|x l IH]; simpl; [done|].
  destruct (Nat.eqb_spec x u) as [->|Hne].
  - intros (l2&l3&->)%existsb_eqb_elem%list_elem_of_split. by exists [], l2, l3.
  - intros (l1&l2&l3&->)%IH. by exists (x :: l1), l2, l3.
Qed.

Lemma precedesb_intro (l1 l2 : list nat) (u v : nat) :
  u ∉ l1 → v ∈ l2 → precedesb (l1 ++ u :: l2) u v = true.
Proof.
  intros Hu Hv. induction l1 as [|x l1 IH]; simpl.
  - rewrite Nat.eqb_refl. by apply existsb_eqb_elem.
  - destruct (Nat.eqb_spec x u) as [->|Hne].
    + exfalso. apply Hu, elem_of_cons; by left.
    + apply IH. intros ?. apply Hu, elem_of_cons; by right.
Qed.

Lemma precedes_cons_ne (x u v : nat) (l : list nat) :
  x ≠ u → precedes (x :: l) u v → precedes l u v.
Proof.
  intros Hne (l1&l2&l3&Heq). destruct l1 as [|y l1]; simplify_eq/=.
  by exists l1, l2, l3.
Qed.

Lemma precedes_elem_r (l : list nat) (u v : nat) : precedes l u v → v ∈ l.
Proof. intros (l1&l2&l3&->). set_solver. Qed.

Lemma precedes_filter (P : nat → bool) (l : list nat) (u v : nat) :
  P u = true → P v = true → precedes l u v → precedes (List.filter P l) u v.
Proof.
  intros Hu Hv (l1&l2&l3&->).
  exists (List.filter P l1), (List.filter P l2), (List.filter P l3).
  rewrite List.filter_app. simpl. rewrite Hu, List.filter_app. simpl. by rewrite Hv.
Qed.

(** A list of the numbers [base .. base+n-1] in which every number comes
    before its successor lists them in increasing order. *)
Lemma chain_order_unique (n base : nat) (l : list nat) :
  l ≡ₚ seq base n →
  (∀ i, S i < n → precedes l (base + i) (base + S i)) →
  l = seq base n.
Proof.
  revert base l. induction n as [|n IH]; intros base l Hperm Hprec.
  - by apply Permutation_nil_r in Hperm.
  - assert (NoDup l) as Hnd by (rewrite Hperm; apply NoDup_seq).
    destruct l as [|h l]; [by apply Permutation_nil_cons in Hperm|].
    apply NoDup_cons in Hnd as [Hh Hnd].
    assert (h = base) as ->.
    { assert (h ∈ seq base (S n)) as Hin by (rewrite <- Hperm; set_solver).
      apply elem_of_seq in Hin. destruct (decide (h = base)) as [|Hne]; [done|].
      exfalso. specialize (Hprec (h - S base)).
      replace (base + S (h - S base)) with h in Hprec by lia.
      apply Hh. apply (precedes_elem_r _ (base + (h - S base))).
      apply (precedes_cons_ne h); [lia|]. apply Hprec. lia. }
    simpl. f_equal. apply IH.
    + by apply Permutation_cons_inv in Hperm.
    + intros i Hi. apply (precedes_cons_ne base); [lia|].
      replace (S base + i) with (base + S i) by lia.
      replace (S base + S i) with (base + S (S i)) by lia.
      apply Hprec. lia.
Qed.

Lemma is_topological_order_spec (d : DAGCircuit) (order : list nat) :
  is_topological_order d order = true →
  order ≡ₚ seq 0 (length (nodes d))
  ∧ ∀ u v, (u, v) ∈ dag_edges d → precedes order u v.
Proof.
  unfold is_topological_order. rewrite !andb_true_iff, Nat.eqb_eq, !forallb_forall.
  intros [[Hlen Hall] Hedges]. split.
  - symmetry. apply NoDup_Permutation_bis.
    + apply NoDup_ListNoDup, NoDup_seq.
    + rewrite length_seq. lia.
    + intros n Hn. apply list_elem_of_In, existsb_eqb_elem. by apply Hall.
  - intros u v Hin. apply precedesb_precedes.
    by apply (Hedges (u, v)), list_elem_of_In.
Qed.

Lemma filter_none {A : Type} (f : A → bool) (l : list A) :
  (∀ x, x ∈ l → f x = false) → List.filter f l = [].
Proof.
  induction l as [|x l IH]; intros H; simpl; [done|].
  rewrite H by (apply elem_of_cons; by left).
  apply IH. intros y Hy. apply H, elem_of_cons; by right.
Qed.

Lemma filter_all {A : Type} (f : A → bool) (l : list A) :
  (∀ x, x ∈ l → f x = true) → List.filter f l = l.
Proof.
  induction l as [|x l IH]; intros H; simpl; [done|].
  rewrite H by (apply elem_of_cons; by left).
  f_equal. apply IH. intros y Hy. apply H, elem_of_cons; by right.
Qed.

Lemma filter_seq_ge (base n : nat) :
  List.filter (Nat.leb base) (seq 0 (base + n)) = seq base n.
Proof.
  rewrite seq_app, List.filter_app. simpl. rewrite filter_none, filter_all; [done|..].
  - intros k Hk%elem_of_seq. apply Nat.leb_le. lia.
  - intros k Hk%elem_of_seq. apply Nat.leb_gt. lia.
Qed.

(** ** Invariants of the DAG *)

Lemma node_is_out_app (d d' : DAGCircuit) (ns : list DagNode) (n : nat) :
  nodes d' = nodes d ++ ns → n < length (nodes d) → node_is_out d' n = node_is_out d n.
Proof.
  intros Hn Hlt. unfold node_is_out. by rewrite Hn, lookup_app_l.
Qed.

Lemma dag_inv_init : dag_inv DAGCircuit_init.
Proof.
  split; simpl.
  - intros u v H. by apply elem_of_nil in H.
  - intros w o H. by rewrite lookup_empty in H.
  - intros w n H. by rewrite lookup_empty in H.
Qed.

Lemma dag_inv_add_wire (d : DAGCircuit) (w : Wire) : dag_inv d → dag_inv (add_wire d w).
Proof.
  intros [He Ho Hw].
  assert (∀ n, n < length (nodes d) → node_is_out (add_wire d w) n = node_is_out d n) as Hout.
  { intros n Hn. by apply (node_is_out_app _ _ [NodeIn w; NodeOut w]). }
  split; simpl; rewrite ?length_app; simpl.
  - intros u v (?&?&?&?)%He. rewrite !Hout by lia. split_and!; [done|lia|done..].
  - intros w' o. rewrite lookup_insert. case_decide as Hw'.
    + intros [= <-]. split; [lia|]. unfold node_is_out. simpl.
      rewrite lookup_app_r by lia. by replace (S _ - _) with 1 by lia.
    + intros [??]%Ho. rewrite Hout by done. split; [lia|done].
  - intros w' n. rewrite lookup_insert. case_decide as Hw'.
    + intros [= <-]. split; [lia|]. unfold node_is_out. simpl.
      by rewrite lookup_app_r, Nat.sub_diag by lia.
    + intros [??]%Hw. rewrite Hout by done. split; [lia|done].
Qed.

Lemma last_writers_elem (lw : gmap Wire nat) (ws : list Wire) (ns : list nat) (n : nat) :
  last_writers lw ws = Ok ns → n ∈ ns → ∃ w, w ∈ ws ∧ lw !! w = Some n.
Proof.
  revert ns. induction ws as [|w ws IH]; intros ns; simpl.
  - intros [= <-] H. by apply elem_of_nil in H.
  - destruct (lw !! w) as [m|] eqn:Hm; [|done].
    destruct (last_writers lw ws) as [ms|]; [|done]. simpl.
    intros [= <-] [->|Hin]%elem_of_cons.
    + exists w. split; [apply elem_of_cons; by left | done].
    + destruct (IH ms eq_refl Hin) as (w'&?&?). exists w'.
      split; [apply elem_of_cons; by right | done].
Qed.

Lemma lookup_fold_insert (lw : gmap Wire nat) (ws : list Wire) (k : nat) (w : Wire) :
  fold_left (λ lw w, <[w := k]> lw) ws lw !! w =
  if bool_decide (w ∈ ws) then Some k else lw !! w.
Proof.
  revert lw. induction ws as [|w' ws IH]; intros lw; cbn [fold_left].
  - by rewrite bool_decide_eq_false_2 by apply not_elem_of_nil.
  - rewrite IH. destruct (decide (w ∈ ws)) as [Hin|Hin].
    + rewrite !bool_decide_eq_true_2; [done | apply elem_of_cons; by right | done].
    + rewrite (bool_decide_eq_false_2 (w ∈ ws)) by done.
      rewrite lookup_insert. destruct (decide (w' = w)) as [->|Hne].
      * by rewrite bool_decide_eq_true_2 by (apply elem_of_cons; by left).
      * rewrite bool_decide_eq_false_2; [done|]. intros [?|?]%elem_of_cons; congruence.
Qed.

Lemma last_writers_complete (lw : gmap Wire nat) (ws : list Wire) (ns : list nat)
    (w : Wire) (n : nat) :
  last_writers lw ws = Ok ns → w ∈ ws → lw !! w = Some n → n ∈ ns.
Proof.
  revert ns. induction ws as [|w' ws IH]; intros ns; simpl.
  - intros _ H. by apply elem_of_nil in H.
  - destruct (lw !! w') as [m|] eqn:Hm; [|done].
    destruct (last_writers lw ws) as [ms|]; [|done]. simpl.
    intros [= <-] [->|Hin]%elem_of_cons Hw.
    + apply elem_of_cons; left. congruence.
    + apply elem_of_cons; right. by apply IH.
Qed.

(** Appending an operation node keeps the invariant. *)
Lemma dag_inv_append (d : DAGCircuit) (op : DagOp) (ws : list Wire) (writers : list nat)
    (q c : OrderedDict Register) (B : gmap string (Z * Z * Z)) (G : gmap string GateData) :
  dag_inv d → last_writers (last_writer d) ws = Ok writers →
  dag_inv (mkDAGCircuit q c B G (nodes d ++ [NodeOp op])
             (edges d ++ map (λ n, (n, length (nodes d))) writers)
             (output_map d)
             (fold_left (λ lw w, <[w := length (nodes d)]> lw) ws (last_writer d))).
Proof.
  intros [He Ho Hw] Hwr.
  set (d' := mkDAGCircuit _ _ _ _ _ _ _ _).
  assert (∀ n, n < length (nodes d) → node_is_out d' n = node_is_out d n) as Hout.
  { intros n Hn. by apply (node_is_out_app _ _ [NodeOp op]). }
  assert (node_is_out d' (length (nodes d)) = false) as Hnew.
  { unfold node_is_out. simpl. by rewrite lookup_app_r, Nat.sub_diag by lia. }
  split; simpl; rewrite ?length_app; simpl.
  - intros u v [(?&?&?&?)%He|Hin]%elem_of_app.
    + rewrite !Hout by lia. split_and!; [done|lia|done..].
    + apply list_elem_of_fmap in Hin as (n&[= -> ->]&Hn).
      destruct (last_writers_elem _ _ _ _ Hwr Hn) as (w&_&[??]%Hw).
      rewrite Hout by done. split_and!; [done|lia|done..].
  - intros w o [??]%Ho. rewrite Hout by done. split; [lia|done].
  - intros w n. rewrite lookup_fold_insert. case_bool_decide.
    + intros [= <-]. split; [lia|done].
    + intros [??]%Hw. rewrite Hout by done. split; [lia|done].
Qed.

(** The canonical order is topological. *)
Lemma canonical_order_elem (d : DAGCircuit) (n : nat) :
  n ∈ canonical_order d ↔ n < length (nodes d).
Proof.
  unfold canonical_order. rewrite elem_of_app, !list_elem_of_In, !filter_In, !in_seq.
  destruct (node_is_out d n); simpl; split; intros; (lia || intuition (done || lia)).
Qed.

Lemma canonical_order_precedes (d : DAGCircuit) (u v : nat) :
  u < length (nodes d) → v < length (nodes d) →
  node_is_out d u = false →
  (node_is_out d v = true ∨ u < v) →
  precedesb (canonical_order d) u v = true.
Proof.
  intros Hu Hv Hou Hov. unfold canonical_order.
  replace (length (nodes d)) with (u + S (length (nodes d) - S u)) at 1 by lia.
  rewrite seq_app, List.filter_app. simpl. rewrite Hou. simpl.
  rewrite <- !app_assoc. simpl. apply precedesb_intro.
  - rewrite list_elem_of_In, filter_In, in_seq. lia.
  - rewrite elem_of_app, !list_elem_of_In, !filter_In, !in_seq.
    destruct Hov as [Hov|Hlt].
    + right. split; [lia|done].
    + destruct (node_is_out d v) eqn:?; [right|left]; (split; [lia|done]).
Qed.

Lemma canonical_order_topological (d : DAGCircuit) :
  dag_inv d → is_topological_order d (canonical_order d) = true.
Proof.
  intros [He Ho Hw]. unfold is_topological_order.
  rewrite !andb_true_iff, Nat.eqb_eq, !forallb_forall. split_and!.
  - unfold canonical_order. rewrite length_app, Nat.add_comm.
    rewrite List.filter_length, length_seq. done.
  - intros n Hn%in_seq. apply existsb_eqb_elem, canonical_order_elem. lia.
  - intros [u v] Hin%list_elem_of_In. simpl.
    apply elem_of_app in Hin as [(?&?&?&?)%He|Hin].
    + apply canonical_order_precedes; [lia|done..|by right].
    + apply list_elem_of_omap in Hin as ([w o]&Hwo%elem_of_map_to_list&Hn). simpl in Hn.
      destruct (last_writer d !! w) as [n|] eqn:Hlw; [|done]. injection Hn as <- <-.
      apply Hw in Hlw as [??]. apply Ho in Hwo as [??].
      apply canonical_order_precedes; [done..|by left].
Qed.

(** ** Circuit to DAG: the registers (lines 196-200) *)

Lemma keyed_keys (rs : list Register) : (map keyed rs).*1 = map reg_name rs.
Proof. induction rs as [|r rs IH]; simpl; [done|]. by rewrite <- IH. Qed.

Lemma keyed_dict_values (rs : list Register) : dict_values (map keyed rs) = rs.
Proof. unfold dict_values. induction rs as [|r rs IH]; simpl; [done|]. by rewrite IH. Qed.

Lemma dict_in_keyed (rs : list Register) (k : string) :
  k ∉ map reg_name rs → dict_in (map keyed rs) k = false.
Proof. intros H. apply dict_in_false, dict_get_None. by rewrite keyed_keys. Qed.

Lemma dict_get_keyed (rs : list Register) (r : Register) :
  NoDup (map reg_name rs) → r ∈ rs → dict_get (map keyed rs) (reg_name r) = Some r.
Proof.
  intros Hnd Hin. apply dict_get_distinct.
  - apply distinct_keys_NoDup. by rewrite keyed_keys.
  - by apply (list_elem_of_fmap_2 keyed) in Hin.
Qed.

Section add_wires.
Variable name : string.

Lemma add_wire_last_writer (d : DAGCircuit) (w w' : Wire) :
  is_Some (last_writer d !! w') → is_Some (last_writer (add_wire d w) !! w').
Proof.
  intros H. simpl. rewrite lookup_insert. by case_decide.
Qed.

Lemma declare_fields (js : list nat) (d : DAGCircuit) :
  qregs (add_wire_list name d js) = qregs d ∧ cregs (add_wire_list name d js) = cregs d
  ∧ basis (add_wire_list name d js) = basis d ∧ gates (add_wire_list name d js) = gates d
  ∧ edges (add_wire_list name d js) = edges d
  ∧ ∃ ts, nodes (add_wire_list name d js) = nodes d ++ ts ∧ Forall (λ x, as_op x = None) ts.
Proof.
  revert d. induction js as [|j js IH]; intros d; simpl.
  - split_and!; try done. exists []. by rewrite app_nil_r.
  - destruct (IH (add_wire d (name, Z.of_nat j))) as (->&->&->&->&->&ts&->&Hts).
    split_and!; try done. simpl. eexists. rewrite <- app_assoc. split; [done|].
    simpl. by repeat constructor.
Qed.

Lemma declare_inv (js : list nat) (d : DAGCircuit) : dag_inv d → dag_inv (add_wire_list name d js).
Proof.
  revert d. induction js as [|j js IH]; intros d Hd; simpl; [done|].
  by apply IH, dag_inv_add_wire.
Qed.

Lemma declare_last_writer_mono (js : list nat) (d : DAGCircuit) (w : Wire) :
  is_Some (last_writer d !! w) → is_Some (last_writer (add_wire_list name d js) !! w).
Proof.
  revert d. induction js as [|j js IH]; intros d Hd; simpl; [done|].
  by apply IH, add_wire_last_writer.
Qed.

Lemma declare_last_writer (js : list nat) (d : DAGCircuit) (j : nat) :
  j ∈ js → is_Some (last_writer (add_wire_list name d js) !! (name, Z.of_nat j)).
Proof.
  revert d. induction js as [|j' js IH]; intros d Hin.
  - by apply elem_of_nil in Hin.
  - simpl. apply elem_of_cons in Hin as [->|Hin]; [|by apply IH].
    apply declare_last_writer_mono. simpl. rewrite lookup_insert_eq. by eexists.
Qed.

End add_wires.

Lemma dag_inv_ext (d d' : DAGCircuit) :
  nodes d' = nodes d → edges d' = edges d → output_map d' = output_map d →
  last_writer d' = last_writer d → dag_inv d → dag_inv d'.
Proof.
  intros Hn He Ho Hw [H1 H2 H3]. unfold node_is_out in *.
  split; unfold node_is_out; rewrite ?Hn, ?He, ?Ho, ?Hw; done.
Qed.

(** Declaring the bits of a register [r] that has just been put in one of
    the register maps. *)
Lemma wires_declared_add_wires (d0 d : DAGCircuit) (r : Register) :
  wires_declared d0 →
  last_writer d = last_writer d0 →
  (∀ r', r' ∈ dict_values (qregs d) ++ dict_values (cregs d) →
         r' = r ∨ r' ∈ dict_values (qregs d0) ++ dict_values (cregs d0)) →
  wires_declared (add_wires d (reg_name r) (reg_size r)).
Proof.
  intros Hd0 Hlw Hregs r' j Hr' Hj. unfold add_wires in *.
  destruct (declare_fields (reg_name r) (seq 0 (reg_size r)) d) as (Hq&Hc&_).
  rewrite Hq, Hc in Hr'. destruct (Hregs r' Hr') as [->|Hold].
  - replace j with (Z.of_nat (Z.to_nat j)) by lia.
    apply declare_last_writer, elem_of_seq. lia.
  - apply declare_last_writer_mono. rewrite Hlw. by apply Hd0.
Qed.

Lemma dag_register_Ok (r : Register) (d : DAGCircuit) (qs cs : list Register) :
  qregs d = map keyed qs → cregs d = map keyed cs →
  reg_name r ∉ map reg_name (qs ++ cs) →
  dag_inv d → wires_declared d →
  ∃ d', dag_register r d = Ok d'
        ∧ qregs d' = map keyed (qs ++ List.filter is_quantum [r])
        ∧ cregs d' = map keyed (cs ++ List.filter is_classical [r])
        ∧ basis d' = basis d ∧ gates d' = gates d ∧ edges d' = edges d
        ∧ (∃ ts, nodes d' = nodes d ++ ts ∧ Forall (λ x, as_op x = None) ts)
        ∧ dag_inv d' ∧ wires_declared d'.
Proof.
  intros Hq Hc Hfresh Hinv Hdecl.
  rewrite map_app, elem_of_app in Hfresh.
  assert (dict_in (qregs d) (reg_name r) || dict_in (cregs d) (reg_name r) = false) as Hin.
  { rewrite Hq, Hc, !dict_in_keyed; [done|..]; intros ?; apply Hfresh; auto. }
  unfold dag_register, add_qreg, add_creg. rewrite Hin.
  apply orb_false_iff in Hin as [Hinq Hinc].
  pose proof (is_classical_quantum r) as Hk'.
  destruct (is_quantum r) eqn:Hk; simpl in Hk'; eexists; (split; [done|]); unfold add_wires;
    match goal with |- context [add_wire_list _ ?d0 ?js] =>
      destruct (declare_fields (reg_name r) js d0) as (->&->&->&->&->&Hts) end;
    simpl; rewrite Hk, Hk'; simpl; rewrite !app_nil_r, map_app.
  - split_and!; [| by rewrite Hc | done.. | exact Hts | by apply declare_inv, (dag_inv_ext d) |].
    + by rewrite dict_set_fresh, QuantumRegister_eq, Hq by done.
    + apply (wires_declared_add_wires d); [done..|]. simpl.
      rewrite dict_set_fresh, ?QuantumRegister_eq, ?ClassicalRegister_eq by done.
      unfold dict_values. rewrite map_app. simpl.
      intros r'. rewrite !elem_of_app, list_elem_of_singleton. tauto.
  - split_and!; [by rewrite Hq | | done.. | exact Hts | by apply declare_inv, (dag_inv_ext d) |].
    + by rewrite dict_set_fresh, ClassicalRegister_eq, Hc by done.
    + apply (wires_declared_add_wires d); [done..|]. simpl.
      rewrite dict_set_fresh, ?QuantumRegister_eq, ?ClassicalRegister_eq by done.
      unfold dict_values. rewrite map_app. simpl.
      intros r'. rewrite !elem_of_app, list_elem_of_singleton. tauto.
Qed.

Lemma dag_registers_Ok (l : list Register) (d : DAGCircuit) (qs cs : list Register) :
  qregs d = map keyed qs → cregs d = map keyed cs →
  NoDup (map reg_name ((qs ++ cs) ++ l)) →
  dag_inv d → wires_declared d →
  ∃ d', foldR dag_register l d = Ok d'
        ∧ qregs d' = map keyed (qs ++ List.filter is_quantum l)
        ∧ cregs d' = map keyed (cs ++ List.filter is_classical l)
        ∧ basis d' = basis d ∧ gates d' = gates d ∧ edges d' = edges d
        ∧ (∃ ts, nodes d' = nodes d ++ ts ∧ Forall (λ x, as_op x = None) ts)
        ∧ dag_inv d' ∧ wires_declared d'.
Proof.
  revert d qs cs. induction l as [|r l IH]; intros d qs cs Hq Hc Hnd Hinv Hdecl.
  - exists d. simpl. rewrite !app_nil_r. split_and!; try done.
    exists []. by rewrite app_nil_r.
  - rewrite map_app in Hnd. simpl in Hnd.
    apply NoDup_app in Hnd as (Hnd1&Hdisj&[Hr Hnd2]%NoDup_cons).
    assert (reg_name r ∉ map reg_name (qs ++ cs)) as Hfresh.
    { intros Hin. apply (Hdisj _ Hin). apply elem_of_cons; by left. }
    destruct (dag_register_Ok r d qs cs Hq Hc Hfresh Hinv Hdecl)
      as (d1&Hd1&Hq1&Hc1&Hb1&Hg1&He1&(ts1&Hn1&Hts1)&Hinv1&Hdecl1).
    assert (NoDup (map reg_name (((qs ++ List.filter is_quantum [r])
                                  ++ cs ++ List.filter is_classical [r]) ++ l))) as Hnd'.
    { assert (map reg_name ((qs ++ List.filter is_quantum [r])
                            ++ cs ++ List.filter is_classical [r])
              ≡ₚ map reg_name (qs ++ cs) ++ [reg_name r]) as Hperm.
      { simpl. rewrite is_classical_quantum. destruct (is_quantum r); simpl;
          rewrite ?app_nil_r, !map_app; simpl; rewrite ?map_app; solve_Permutation. }
      rewrite map_app, Hperm, <- app_assoc. simpl.
      apply NoDup_app. split_and!; [done| |by constructor].
      intros k Hk Hk'. by apply (Hdisj k). }
    destruct (IH d1 _ _ Hq1 Hc1 Hnd' Hinv1 Hdecl1)
      as (d'&Hd'&Hq'&Hc'&Hb'&Hg'&He'&(ts'&Hn'&Hts')&Hinv'&Hdecl').
    exists d'. simpl. rewrite Hd1. simpl. split; [done|].
    rewrite Hq', Hc', Hb', Hg', He', Hb1, Hg1, He1, Hn', Hn1.
    split_and!; try done.
    + simpl. rewrite <- app_assoc. by destruct (is_quantum r).
    + simpl. rewrite <- app_assoc. by destruct (is_classical r).
    + exists (ts1 ++ ts'). rewrite app_assoc. split; [done|]. by apply Forall_app.
Qed.

(** ** Circuit to DAG: the gate definitions (lines 202-205) *)

Lemma dag_definitions_Ok (l : list (string * GateData)) (d : DAGCircuit) :
  NoDup l.*1 → (∀ k, k ∈ l.*1 → basis d !! k = None) →
  ∃ B G, foldR dag_definition l d =
           Ok (mkDAGCircuit (qregs d) (cregs d) B G (nodes d) (edges d)
                 (output_map d) (last_writer d))
         ∧ ∀ k, B !! k = match (list_to_map l : gmap string GateData) !! k with
                         | Some gd => Some (arity_of gd)
                         | None => basis d !! k
                         end.
Proof.
  revert d. induction l as [|[k gd] l IH]; intros d Hnd Hfresh; simpl.
  - exists (basis d), (gates d). split; [by destruct d|]. intros k. by rewrite lookup_empty.
  - apply NoDup_cons in Hnd as [Hk Hnd].
    unfold dag_definition at 1, add_basis_element. simpl.
    rewrite Hfresh by (apply elem_of_cons; by left). simpl.
    destruct (IH (add_gate_data k gd
                    (mkDAGCircuit (qregs d) (cregs d)
                       (<[k := (n_bits gd, 0%Z, n_args gd)]> (basis d)) (gates d)
                       (nodes d) (edges d) (output_map d) (last_writer d))))
      as (B&G&Heq&HB); [done| |].
    { intros k' Hk'. simpl. rewrite lookup_insert_ne by (intros ->; done).
      apply Hfresh, elem_of_cons; by right. }
    exists B, G. split; [done|]. intros k'. rewrite HB. simpl.
    destruct (decide (k = k')) as [<-|Hne].
    + rewrite lookup_insert_eq.
      by rewrite (not_elem_of_list_to_map_1 _ _ Hk), lookup_insert_eq.
    + by rewrite !lookup_insert_ne.
Qed.

(** ** Circuit to DAG: the instructions (lines 214-232) *)

Lemma names_filter_NoDup (f : Register → bool) (l : list Register) :
  NoDup (map reg_name l) → NoDup (map reg_name (List.filter f l)).
Proof.
  induction l as [|r l IH]; simpl; [done|].
  intros [Hr Hnd]%NoDup_cons. destruct (f r); simpl; [|auto].
  apply NoDup_cons. split; [|auto].
  intros (r'&Heq&Hin%list_elem_of_In%filter_In)%list_elem_of_fmap. apply Hr.
  rewrite Heq. apply list_elem_of_fmap. exists r'. split; [done|].
  apply list_elem_of_In. tauto.
Qed.

Lemma wf_regs_names (rs : OrderedDict Register) :
  wf_regs rs = true → NoDup (map reg_name (dict_values rs)).
Proof.
  intros Hwf. pose proof (keyed_values rs Hwf) as Hk.
  apply wf_regs_spec in Hwf as [_ Hnd]. by rewrite <- Hk, keyed_keys in Hnd.
Qed.

Section instructions.
Variables (self : QuantumCircuit) (d : DAGCircuit).
Hypothesis Hwf : wf_regs (regs self) = true.
Hypothesis Hmatch : regs_match self d.

Lemma dict_get_qregs (r : Register) :
  is_quantum r = true → has_register self r = true →
  dict_get (qregs d) (reg_name r) = Some r.
Proof using Hwf Hmatch.
  intros Hk Hin%has_register_elem; [|done]. destruct Hmatch as [-> _].
  apply dict_get_keyed; [by apply names_filter_NoDup, wf_regs_names|].
  apply list_elem_of_In, filter_In. split; [by apply list_elem_of_In | done].
Qed.

Lemma dict_get_cregs (r : Register) :
  is_classical r = true → has_register self r = true →
  dict_get (cregs d) (reg_name r) = Some r.
Proof using Hwf Hmatch.
  intros Hk Hin%has_register_elem; [|done]. destruct Hmatch as [_ ->].
  apply dict_get_keyed; [by apply names_filter_NoDup, wf_regs_names|].
  apply list_elem_of_In, filter_In. split; [by apply list_elem_of_In | done].
Qed.

Lemma wf_operand_spec (k : RegKind) (b : Bit) :
  wf_operand self k b = true →
  dict_get (match k with Quantum => qregs d | Classical => cregs d end)
    (reg_name (fst b)) = Some (fst b)
  ∧ (0 ≤ snd b < Z.of_nat (reg_size (fst b)))%Z.
Proof using Hwf Hmatch.
  unfold wf_operand. rewrite !andb_true_iff, Z.leb_le, Z.ltb_lt.
  intros [[[Hk Hin] ?] ?]. split; [|lia].
  destruct k; [by apply dict_get_qregs | by apply dict_get_cregs].
Qed.

Lemma resolve_operand (k : RegKind) (b : Bit) :
  wf_operand self k b = true →
  resolve (match k with Quantum => qregs d | Classical => cregs d end) (wire_of b) = Ok b.
Proof using Hwf Hmatch.
  intros [Hget Hrange]%wf_operand_spec. unfold resolve, wire_of, Register_getitem. simpl.
  rewrite Hget, check_range_Ok by done. by destruct b.
Qed.

Lemma resolve_operands (k : RegKind) (bs : list Bit) :
  forallb (wf_operand self k) bs = true →
  resolve_all (match k with Quantum => qregs d | Classical => cregs d end)
    (map wire_of bs) = Ok bs.
Proof using Hwf Hmatch.
  induction bs as [|b bs IH]; simpl; [done|].
  intros [Hb Hbs]%andb_true_iff. by rewrite resolve_operand, IH.
Qed.

Lemma wire_declared (k : RegKind) (b : Bit) :
  wires_declared d → wf_operand self k b = true →
  is_Some (last_writer d !! wire_of b).
Proof using Hwf Hmatch.
  intros Hdecl [Hget Hrange]%wf_operand_spec. apply Hdecl; [|done].
  apply dict_get_elem, (list_elem_of_fmap_2 snd) in Hget. simpl in Hget.
  apply elem_of_app. destruct k; [by left | by right].
Qed.

Lemma last_writers_Ok (ws : list Wire) :
  Forall (λ w, is_Some (last_writer d !! w)) ws →
  ∃ ns, last_writers (last_writer d) ws = Ok ns.
Proof.
  induction 1 as [|w ws [n Hn] _ [ns Hns]]; simpl; [by eexists|].
  rewrite Hn, Hns. by eexists.
Qed.

(** The operands of a well-formed instruction (lines 218-224). *)
Lemma dag_operands_Ok (g : Instruction) :
  wf_instruction self g = true →
  ∃ qargs cargs,
    dag_operands g = Ok (qargs, cargs)
    ∧ qargs ++ cargs = map wire_of (arg g)
    ∧ resolve_all (qregs d) qargs = Ok (op_qargs (dag_op_of g))
    ∧ resolve_all (cregs d) cargs = Ok (op_cargs (dag_op_of g))
    ∧ Forall (λ w, wires_declared d → is_Some (last_writer d !! w)) (qargs ++ cargs).
Proof using Hwf Hmatch.
  unfold wf_instruction, dag_operands, dag_op_of.
  rewrite !andb_true_iff. intros [[Hargs _] _].
  destruct (String.eqb (name g) "measure").
  - destruct (arg g) as [|q [|c [|]]]; try done.
    apply andb_true_iff in Hargs as [Hq Hc].
    exists [wire_of q], [wire_of c]. simpl.
    rewrite (resolve_operand Quantum), (resolve_operand Classical) by done. simpl.
    split_and!; try done.
    repeat constructor; intros ?; by eapply wire_declared.
  - exists (map wire_of (arg g)), []. simpl. rewrite app_nil_r.
    rewrite (resolve_operands Quantum) by done. split_and!; try done.
    apply Forall_forall. intros w (b&->&Hb)%list_elem_of_fmap Hdecl.
    apply (wire_declared Quantum); [done|].
    rewrite forallb_forall in Hargs. by apply Hargs, list_elem_of_In.
Qed.

Lemma resolve_condition_Ok (g : Instruction) :
  wf_instruction self g = true →
  resolve_condition (cregs d) (dag_control g) = Ok (control g).
Proof using Hwf Hmatch.
  unfold wf_instruction, dag_control. rewrite !andb_true_iff. intros [_ Hc].
  destruct (control g) as [[r v]|]; simpl in *; [|done].
  apply andb_true_iff in Hc as [??]. by rewrite dict_get_cregs.
Qed.

End instructions.

Lemma add_basis_builtin (nm : string) (nq nc np : Z) (d : DAGCircuit) :
  basis_ok (basis d) → dict_get builtins nm = Some (nq, nc, np) →
  add_basis_element nm nq nc np d =
  Ok (mkDAGCircuit (qregs d) (cregs d) (<[nm := (nq, nc, np)]> (basis d)) (gates d)
        (nodes d) (edges d) (output_map d) (last_writer d)).
Proof.
  intros Hok Hb. unfold add_basis_element.
  destruct (Hok _ _ Hb) as [->| Hsome]; [done|]. rewrite Hsome.
  rewrite decide_True by done. rewrite insert_id by done. by destruct d.
Qed.

Lemma basis_ok_after (g : Instruction) (B : gmap string (Z * Z * Z)) :
  basis_ok B → basis_ok (basis_after g B).
Proof.
  intros Hok nm a Hb. unfold basis_after.
  destruct (dict_get builtins (name g)) as [a'|] eqn:Hg; [|by apply Hok].
  destruct (decide (name g = nm)) as [<-|Hne].
  - rewrite lookup_insert_eq. right. congruence.
  - rewrite lookup_insert_ne by done. by apply Hok.
Qed.

Lemma dag_op_of_eta (g : Instruction) :
  mkDagOp (name g) (op_qargs (dag_op_of g)) (op_cargs (dag_op_of g)) (param g) (control g)
  = dag_op_of g.
Proof.
  unfold dag_op_of. destruct (String.eqb (name g) "measure"); [|done].
  by destruct (arg g) as [|? [|? ?]].
Qed.

(** One turn of the loop on a well-formed instruction. *)
Lemma dag_instruction_Ok (self : QuantumCircuit) (g : Instruction) (d : DAGCircuit) :
  wf_regs (regs self) = true → regs_match self d → wf_instruction self g = true →
  basis_ok (basis d) → wires_declared d →
  ∃ writers,
    last_writers (last_writer d) (map wire_of (arg g)) = Ok writers
    ∧ dag_instruction g d =
      Ok (mkDAGCircuit (qregs d) (cregs d) (basis_after g (basis d)) (gates d)
            (nodes d ++ [NodeOp (dag_op_of g)])
            (edges d ++ map (λ n, (n, length (nodes d))) writers)
            (output_map d)
            (fold_left (λ lw w, <[w := length (nodes d)]> lw) (map wire_of (arg g))
               (last_writer d))).
Proof.
  intros Hwf Hmatch Hg Hok Hdecl.
  destruct (dag_operands_Ok self d Hwf Hmatch g Hg) as (qargs&cargs&Hops&Happ&Hqs&Hcs&Hws).
  destruct (last_writers_Ok d (qargs ++ cargs)) as [writers Hwriters].
  { eapply Forall_impl; [done|]. simpl. auto. }
  exists writers. rewrite <- Happ. split; [done|].
  unfold dag_instruction, basis_after.
  assert (∀ d0 : DAGCircuit,
    qregs d0 = qregs d → cregs d0 = cregs d → nodes d0 = nodes d → edges d0 = edges d →
    output_map d0 = output_map d → last_writer d0 = last_writer d → gates d0 = gates d →
    (operands <- dag_operands g ;;
     apply_operation_back (name g) (fst operands) (snd operands) (param g) (dag_control g) d0)
    = Ok (mkDAGCircuit (qregs d) (cregs d) (basis d0) (gates d)
            (nodes d ++ [NodeOp (dag_op_of g)])
            (edges d ++ map (λ n, (n, length (nodes d))) writers)
            (output_map d)
            (fold_left (λ lw w, <[w := length (nodes d)]> lw) (qargs ++ cargs)
               (last_writer d)))) as Hstep.
  { intros d0 Hq0 Hc0 Hn0 He0 Ho0 Hl0 Hg0. rewrite Hops. simpl.
    unfold apply_operation_back.
    rewrite Hq0, Hc0, Hl0, Hqs, Hcs, (resolve_condition_Ok self d), Hwriters by done.
    simpl. by rewrite Hn0, He0, Ho0, Hg0, dag_op_of_eta. }
  destruct (dict_get builtins (name g)) as [[[nq nc] np]|] eqn:Hb.
  - rewrite add_basis_builtin by done. simpl. by rewrite Hstep.
  - simpl. by rewrite Hstep.
Qed.

Lemma shares_bit_spec (g1 g2 : Instruction) :
  shares_bit g1 g2 = true ↔ ∃ b, b ∈ arg g1 ∧ b ∈ arg g2.
Proof.
  unfold shares_bit. rewrite existsb_exists. split.
  - intros (b&Hb&(b'&Hb'&<-%bit_eqb_eq)%existsb_exists).
    exists b. by rewrite !list_elem_of_In.
  - intros (b&Hb&Hb'). exists b. split; [by apply list_elem_of_In|].
    apply existsb_exists. exists b. split; [by apply list_elem_of_In | by apply bit_eqb_eq].
Qed.

(** The loop over the instructions of a well-formed circuit: the operation
    nodes are appended in the order of the program, and an instruction that
    shares a bit with the one before it gets an edge from its node. *)
Lemma dag_instructions_Ok (self : QuantumCircuit) (gs : list Instruction) (d : DAGCircuit) :
  wf_regs (regs self) = true → regs_match self d →
  forallb (wf_instruction self) gs = true →
  basis_ok (basis d) → wires_declared d → dag_inv d →
  ∃ d', foldR dag_instruction gs d = Ok d'
        ∧ qregs d' = qregs d ∧ cregs d' = cregs d
        ∧ nodes d' = nodes d ++ map NodeOp (map dag_op_of gs)
        ∧ basis d' = fold_left (λ B g, basis_after g B) gs (basis d)
        ∧ dag_inv d'
        ∧ (∀ e, e ∈ edges d → e ∈ edges d')
        ∧ (∀ g w n, head gs = Some g → w ∈ map wire_of (arg g) →
             last_writer d !! w = Some n → (n, length (nodes d)) ∈ edges d')
        ∧ (∀ i g1 g2, gs !! i = Some g1 → gs !! S i = Some g2 →
             shares_bit g1 g2 = true →
             (length (nodes d) + i, length (nodes d) + S i) ∈ edges d').
Proof.
  intros Hwf. revert d.
  induction gs as [|g gs IH]; intros d Hmatch Hgs Hok Hdecl Hinv.
  - exists d. simpl. rewrite app_nil_r. by split_and!.
  - simpl in Hgs. apply andb_true_iff in Hgs as [Hg Hgs].
    destruct (dag_instruction_Ok self g d Hwf Hmatch Hg Hok Hdecl) as (writers&Hwriters&Hstep).
    set (d1 := mkDAGCircuit _ _ _ _ _ _ _ _) in Hstep.
    assert (wires_declared d1) as Hdecl1.
    { intros r j Hr Hj. simpl. rewrite lookup_fold_insert.
      destruct (bool_decide _); [by eexists | by apply Hdecl]. }
    destruct (IH d1 Hmatch Hgs (basis_ok_after g _ Hok) Hdecl1
                (dag_inv_append d _ _ _ _ _ _ _ Hinv Hwriters))
      as (d'&Hfold&Hq&Hc&Hn&Hb&Hinv'&Hmono&Hhead&Hchain).
    assert (length (nodes d1) = S (length (nodes d))) as Hlen.
    { simpl. rewrite length_app. simpl. lia. }
    exists d'. simpl. rewrite Hstep. simpl. split; [done|].
    split_and!; try done.
    + rewrite Hn. simpl. by rewrite <- app_assoc.
    + intros e He. apply Hmono. simpl. apply elem_of_app. by left.
    + intros g0 w n [= <-] Hw Hlw. apply Hmono. simpl. apply elem_of_app. right.
      apply list_elem_of_fmap. exists n. split; [done|].
      by eapply last_writers_complete.
    + intros [|i] g1 g2 H1 H2 Hshare; simpl in H1, H2.
      * injection H1 as <-. apply shares_bit_spec in Hshare as (b&Hb1&Hb2).
        replace (length (nodes d) + 0) with (length (nodes d)) by lia.
        replace (length (nodes d) + 1) with (length (nodes d1)) by lia.
        apply (Hhead g2 (wire_of b)).
        -- by destruct gs.
        -- by apply list_elem_of_fmap_2.
        -- simpl. rewrite lookup_fold_insert, bool_decide_eq_true_2; [done|].
           by apply list_elem_of_fmap_2.
      * replace (length (nodes d) + S i) with (length (nodes d1) + i) by lia.
        replace (length (nodes d) + S (S i)) with (length (nodes d1) + S i) by lia.
        by apply (Hchain i g1 g2).
Qed.

Lemma compatible_definitions_basis_ok (definitions : gmap string GateData) :
  compatible_definitions definitions = true → basis_ok (arity_of <$> definitions).
Proof.
  unfold compatible_definitions. rewrite forallb_forall. intros Hall nm a Hb.
  apply dict_get_elem, list_elem_of_In, Hall in Hb. simpl in Hb.
  rewrite lookup_fmap. destruct (definitions !! nm) as [gd|]; [|by left].
  right. simpl. apply bool_decide_eq_true in Hb. unfold arity_of. by rewrite Hb.
Qed.

(** [dag] on a well-formed circuit. *)
Lemma dag_Ok (definitions : gmap string GateData) (self : QuantumCircuit) :
  wf_circuit self = true → compatible_definitions definitions = true →
  ∃ d ts,
    dag definitions self = Ok d
    ∧ regs_match self d
    ∧ nodes d = ts ++ map NodeOp (map dag_op_of (data self))
    ∧ Forall (λ x, as_op x = None) ts
    ∧ basis d = fold_left (λ B g, basis_after g B) (data self) (arity_of <$> definitions)
    ∧ dag_inv d
    ∧ (∀ i g1 g2, data self !! i = Some g1 → data self !! S i = Some g2 →
         shares_bit g1 g2 = true → (length ts + i, length ts + S i) ∈ edges d).
Proof.
  intros [Hwf Hdata]%wf_circuit_spec Hdefs. unfold dag.
  destruct (dag_registers_Ok (dict_values (regs self)) DAGCircuit_init [] [])
    as (d1&Hd1&Hq1&Hc1&Hb1&Hg1&He1&(ts&Hn1&Hts)&Hinv1&Hdecl1); [done..| | | |].
  { by apply wf_regs_names. }
  { apply dag_inv_init. }
  { intros r j Hr. by apply elem_of_nil in Hr. }
  rewrite Hd1. simpl in *.
  destruct (dag_definitions_Ok (map_to_list definitions) d1) as (B&G&Hd2&HB).
  { apply NoDup_fst_map_to_list. }
  { intros k _. by rewrite Hb1. }
  rewrite Hd2. simpl.
  assert (B = arity_of <$> definitions) as ->.
  { apply map_eq. intros k. rewrite HB, list_to_map_to_list, lookup_fmap, Hb1.
    by destruct (definitions !! k). }
  set (d2 := mkDAGCircuit _ _ _ _ _ _ _ _).
  destruct (dag_instructions_Ok self (data self) d2)
    as (d'&Hfold&Hq&Hc&Hn&Hb&Hinv'&_&_&Hchain); [done| |done| | | |].
  { by split. }
  { by apply compatible_definitions_basis_ok. }
  { done. }
  { by apply (dag_inv_ext d1). }
  exists d', ts. rewrite Hfold. simpl in *. split_and!; try done.
  - split; congruence.
  - by rewrite Hn, Hn1.
  - intros i g1 g2 H1 H2 Hs. specialize (Hchain i g1 g2 H1 H2 Hs).
    by rewrite Hn1 in Hchain.
Qed.

(** ** DAG to circuit *)

Lemma wf_regs_keyed (rs : list Register) :
  NoDup (map reg_name rs) → wf_regs (map keyed rs) = true.
Proof.
  intros Hnd. apply wf_regs_spec. split.
  - by intros k r (r'&[= -> ->]&_)%list_elem_of_fmap.
  - by rewrite keyed_keys.
Qed.

Lemma filter_kinds_Permutation (l : list Register) :
  List.filter is_quantum l ++ List.filter is_classical l ≡ₚ l.
Proof.
  induction l as [|r l IH]; simpl; [done|].
  rewrite is_classical_quantum. destruct (is_quantum r); simpl.
  - by rewrite IH.
  - by rewrite <- Permutation_middle, IH.
Qed.

(** The fresh registers of lines 25-32, for registers of the right kind
    under distinct names: the same registers in the same order. *)
Lemma fresh_registers_keyed (mk : nat → string → Register) (acc rs : list Register) :
  Forall (λ r, mk (reg_size r) (reg_name r) = r) rs →
  NoDup (map reg_name (acc ++ rs)) →
  fold_left (λ acc r, dict_set acc (reg_name r) (mk (reg_size r) (reg_name r)))
    rs (map keyed acc) = map keyed (acc ++ rs).
Proof.
  revert acc. induction rs as [|r rs IH]; intros acc Hmk Hnd; simpl.
  - by rewrite app_nil_r.
  - apply Forall_cons in Hmk as [Hr Hmk].
    rewrite Hr, dict_set_fresh.
    + replace (map keyed acc ++ [(reg_name r, r)]) with (map keyed (acc ++ [r]))
        by (by rewrite map_app).
      rewrite IH; [by rewrite <- app_assoc | done | by rewrite <- app_assoc].
    + apply dict_in_keyed. rewrite map_app in Hnd. simpl in Hnd.
      apply NoDup_app in Hnd as (_&Hdisj&_). intros Hin.
      apply (Hdisj _ Hin), elem_of_cons. by left.
Qed.

Lemma fresh_registers_id (mk : nat → string → Register) (rs : list Register) :
  Forall (λ r, mk (reg_size r) (reg_name r) = r) rs →
  NoDup (map reg_name rs) →
  fresh_registers mk (map keyed rs) = map keyed rs.
Proof.
  intros Hmk Hnd. unfold fresh_registers. rewrite keyed_dict_values.
  by apply (fresh_registers_keyed mk []).
Qed.

(** The fresh registers of lines 25-32 for registers under distinct names:
    one fresh register per register, in the same order. *)
Lemma fresh_registers_fold (mk : nat → string → Register) (l : list Register)
    (acc : OrderedDict Register) :
  NoDup (acc.*1 ++ map reg_name l) →
  fold_left (λ acc r, dict_set acc (reg_name r) (mk (reg_size r) (reg_name r))) l acc
  = acc ++ map (λ r, (reg_name r, mk (reg_size r) (reg_name r))) l.
Proof.
  revert acc. induction l as [|r l IH]; intros acc Hnd; simpl.
  - by rewrite app_nil_r.
  - simpl in Hnd. rewrite dict_set_fresh.
    + rewrite IH; [by rewrite <- app_assoc|].
      rewrite fmap_app, <- app_assoc. done.
    + apply dict_in_false, dict_get_None.
      apply NoDup_app in Hnd as (_&Hdisj&_). intros Hin.
      apply (Hdisj _ Hin), elem_of_cons. by left.
Qed.

Lemma fresh_registers_values (mk : nat → string → Register) (rs : OrderedDict Register) :
  wf_regs rs = true →
  dict_values (fresh_registers mk rs)
  = map (λ r, mk (reg_size r) (reg_name r)) (dict_values rs).
Proof.
  intros Hnd%wf_regs_names. unfold fresh_registers.
  rewrite fresh_registers_fold by done. simpl. unfold dict_values.
  by rewrite map_map.
Qed.

(** The fresh registers of one group have the kind of the group. *)
Lemma fresh_registers_kind (mk : nat → string → Register) (k : RegKind)
    (rs : OrderedDict Register) :
  (∀ s n, reg_kind (mk s n) = k) →
  Forall (λ r, reg_kind r = k) (dict_values (fresh_registers mk rs)).
Proof.
  intros Hmk. unfold fresh_registers.
  assert (∀ (l : list Register) (acc : OrderedDict Register),
    Forall (λ r, reg_kind r = k) (dict_values acc) →
    Forall (λ r, reg_kind r = k)
      (dict_values (fold_left
         (λ acc r, dict_set acc (reg_name r) (mk (reg_size r) (reg_name r))) l acc))) as H.
  { induction l as [|r l IH]; intros acc Hacc; simpl; [done|]. apply IH.
    clear IH. induction acc as [|[k' v'] acc IHacc]; simpl.
    - by repeat constructor.
    - apply Forall_cons in Hacc as [??].
      destruct (String.eqb k' (reg_name r)); simpl; constructor; auto. }
  apply H. constructor.
Qed.

Lemma lookup_bits_Ok (rs : OrderedDict Register) (bs : list Bit) :
  Forall (λ b, dict_get rs (reg_name (fst b)) = Some (fst b)
               ∧ (0 ≤ snd b < Z.of_nat (reg_size (fst b)))%Z) bs →
  lookup_bits rs bs = Ok bs.
Proof.
  induction 1 as [|[r j] bs [Hget Hrange] _ IH]; simpl in *; [done|].
  unfold Register_getitem. by rewrite Hget, check_range_Ok, IH.
Qed.

(** The loop over the nodes never touches the registers of the circuit. *)
Lemma dag_to_circuit_loop_regs (d : DAGCircuit) (qregs' cregs' : OrderedDict Register)
    (order : list nat) (circ circ' : QuantumCircuit) (r : Result unit) :
  dag_to_circuit_loop d qregs' cregs' order circ = (r, circ') → regs circ' = regs circ.
Proof.
  revert circ. induction order as [|n order IH]; intros circ; simpl.
  - by intros [= _ <-].
  - unfold bindM, dag_to_circuit_node.
    destruct (nodes d !! n) as [[w|w|op]|]; simpl; try (by apply IH); [|by intros [= _ <-]].
    unfold bindM, liftR, _attach, retM.
    destruct (lookup_bits qregs' (op_qargs op)); [|by intros [= _ <-]].
    destruct (lookup_bits cregs' (op_cargs op)); [|by intros [= _ <-]].
    simpl. intros H. by apply IH in H.
Qed.

(** The loop over the nodes, when the operands of every operation node name
    registers of the new circuit. *)
Lemma dag_to_circuit_loop_Ok (d : DAGCircuit) (qregs' cregs' : OrderedDict Register)
    (order : list nat) (circ : QuantumCircuit) :
  (∀ n, n ∈ order → n < length (nodes d)) →
  (∀ n op, nodes d !! n = Some (NodeOp op) →
     lookup_bits qregs' (op_qargs op) = Ok (op_qargs op)
     ∧ lookup_bits cregs' (op_cargs op) = Ok (op_cargs op)) →
  dag_to_circuit_loop d qregs' cregs' order circ =
  (Ok tt, mkQuantumCircuit (data circ ++ map instruction_of (ops_at d order)) (regs circ)).
Proof.
  intros Hlt Hops. revert circ. induction order as [|n order IH]; intros circ; simpl.
  - unfold retM. rewrite app_nil_r. by destruct circ.
  - unfold bindM, dag_to_circuit_node.
    destruct (nodes d !! n) as [x|] eqn:Hn.
    + assert (∀ m, m ∈ order → m < length (nodes d)) as Hlt'.
      { intros m Hm. apply Hlt, elem_of_cons. by right. }
      unfold ops_at. simpl. destruct x as [w|w|op]; simpl.
      * by apply IH.
      * by apply IH.
      * destruct (Hops n op Hn) as [Hq Hc]. unfold bindM, liftR, _attach, retM.
        rewrite Hq, Hc. simpl. rewrite IH by done. simpl. by rewrite <- app_assoc.
    + apply lookup_ge_None in Hn.
      assert (n < length (nodes d)) by (apply Hlt, elem_of_cons; by left). lia.
Qed.

(** The instruction that comes back from the node of a well-formed
    instruction is that instruction. *)
Lemma instruction_of_dag_op_of (self : QuantumCircuit) (g : Instruction) :
  wf_instruction self g = true → instruction_of (dag_op_of g) = g.
Proof.
  unfold wf_instruction, instruction_of, duplicate_instruction, dag_op_of.
  rewrite !andb_true_iff. intros [[Hargs Hbarrier] _].
  destruct g as [nm ps args ctl]. simpl in *.
  destruct (String.eqb_spec nm "measure") as [->|Hne].
  - destruct args as [|q [|c [|]]]; try done.
  - simpl. destruct (String.eqb nm "barrier").
    + by destruct ps.
    + destruct (String.eqb nm "snapshot"); simpl; by rewrite ?app_nil_r.
Qed.

(** ** The operations met along an order *)

Lemma ops_at_cons (d : DAGCircuit) (n : nat) (order : list nat) :
  ops_at d (n :: order) =
  match nodes d !! n ≫= as_op with
  | Some op => op :: ops_at d order
  | None => ops_at d order
  end.
Proof. reflexivity. Qed.

Lemma ops_at_filter (d : DAGCircuit) (ts : list DagNode) (order : list nat) :
  (∀ n x, n < length ts → nodes d !! n = Some x → as_op x = None) →
  ops_at d order = ops_at d (List.filter (Nat.leb (length ts)) order).
Proof.
  intros Hts. induction order as [|n order IH]; [done|].
  cbn [List.filter]. destruct (Nat.leb_spec (length ts) n) as [Hle|Hlt].
  - by rewrite !ops_at_cons, IH.
  - rewrite ops_at_cons, IH. destruct (nodes d !! n) as [x|] eqn:Hn; [|done].
    simpl. by rewrite (Hts n x).
Qed.

Lemma ops_at_seq (d : DAGCircuit) (ts : list DagNode) (pre ops : list DagOp) :
  nodes d = ts ++ map NodeOp (pre ++ ops) →
  ops_at d (seq (length ts + length pre) (length ops)) = ops.
Proof.
  intros Hn. revert pre Hn. induction ops as [|op ops IH]; intros pre Hn; [done|].
  cbn [length seq]. rewrite ops_at_cons.
  assert (nodes d !! (length ts + length pre) = Some (NodeOp op)) as ->.
  { rewrite Hn, lookup_app_r by lia.
    replace (length ts + length pre - length ts) with (length pre) by lia.
    rewrite list_lookup_fmap, list_lookup_middle; done. }
  simpl. f_equal.
  specialize (IH (pre ++ [op])). rewrite length_app in IH. simpl in IH.
  replace (S (length ts + length pre)) with (length ts + (length pre + 1)) by lia.
  apply IH. by rewrite <- app_assoc.
Qed.

Lemma Permutation_filter_bool {A : Type} (f : A → bool) (l1 l2 : list A) :
  l1 ≡ₚ l2 → List.filter f l1 ≡ₚ List.filter f l2.
Proof.
  induction 1 as [|x l1 l2 _ IH|x y l|l1 l2 l3 _ IH1 _ IH2]; simpl.
  - done.
  - destruct (f x); by rewrite IH.
  - destruct (f x), (f y); (done || apply perm_swap).
  - by rewrite IH1.
Qed.

(** When every operation node has an edge to the next one, every topological
    order meets the operations in the order of their creation. *)
Lemma ops_at_topological (d : DAGCircuit) (ts : list DagNode) (ops : list DagOp)
    (order : list nat) :
  nodes d = ts ++ map NodeOp ops →
  Forall (λ x, as_op x = None) ts →
  (∀ i, S i < length ops → (length ts + i, length ts + S i) ∈ edges d) →
  is_topological_order d order = true →
  ops_at d order = ops.
Proof.
  intros Hn Hts Hedges [Hperm Hprec]%is_topological_order_spec.
  rewrite (ops_at_filter d ts).
  - assert (List.filter (Nat.leb (length ts)) order = seq (length ts) (length ops)) as ->.
    { apply chain_order_unique.
      - rewrite (Permutation_filter_bool _ _ _ Hperm), Hn, length_app, length_map.
        by rewrite filter_seq_ge.
      - intros i Hi. apply precedes_filter; [apply Nat.leb_le; lia..|].
        apply Hprec, elem_of_app. left. by apply Hedges. }
    replace (length ts) with (length ts + length (@nil DagOp)) at 1 by (simpl; lia).
    by apply ops_at_seq.
  - intros n x Hlt. rewrite Hn, lookup_app_l by done. intros Hx.
    rewrite Forall_forall in Hts. apply Hts. by eapply list_elem_of_lookup_2.
Qed.

Lemma chain_spec (gs : list Instruction) (i : nat) (g1 g2 : Instruction) :
  chain gs = true → gs !! i = Some g1 → gs !! S i = Some g2 → shares_bit g1 g2 = true.
Proof.
  revert i. induction gs as [|g gs IH]; intros i; [done|].
  simpl. destruct gs as [|g' gs]; [by destruct i|].
  intros [Hs Hc]%andb_true_iff. destruct i as [|i]; simpl.
  - by intros [= <-] [= <-].
  - intros H1 H2. by apply (IH i).
Qed.

(** ** The conversions *)

Lemma wf_circuit_take (self : QuantumCircuit) (k : nat) :
  wf_circuit self = true →
  wf_circuit (mkQuantumCircuit (take k (data self)) (regs self)) = true.
Proof.
  intros [Hwf Hdata]%wf_circuit_spec. unfold wf_circuit. simpl. rewrite Hwf. simpl.
  apply forallb_forall. intros g Hg%list_elem_of_In%subseteq_take.
  rewrite forallb_forall in Hdata.
  rewrite (wf_instruction_regs _ self) by done. by apply Hdata, list_elem_of_In.
Qed.

Lemma dag_op_of_operands (self : QuantumCircuit) (g : Instruction) :
  wf_instruction self g = true →
  forallb (wf_operand self Quantum) (op_qargs (dag_op_of g)) = true
  ∧ forallb (wf_operand self Classical) (op_cargs (dag_op_of g)) = true.
Proof.
  unfold wf_instruction, dag_op_of. rewrite !andb_true_iff. intros [[Hargs _] _].
  destruct (String.eqb (name g) "measure"); [|done].
  destruct (arg g) as [|q [|c [|]]]; try done.
  apply andb_true_iff in Hargs as [Hq Hc]. simpl. by rewrite Hq, Hc.
Qed.

Lemma dag_ops_nodes (d : DAGCircuit) (ts : list DagNode) (ops : list DagOp) :
  nodes d = ts ++ map NodeOp ops → Forall (λ x, as_op x = None) ts → dag_ops d = ops.
Proof.
  intros Hn Hts. unfold dag_ops. rewrite Hn, omap_app.
  assert (omap as_op ts = []) as ->.
  { clear Hn. induction Hts as [|x ts Hx _ IH]; [done|]. cbn. by rewrite Hx. }
  clear Hn. simpl. induction ops as [|op ops IH]; [done|]. cbn. by f_equal.
Qed.

(** The basis table after a run of instructions, at a builtin name. *)
Lemma basis_fold_lookup (gs : list Instruction) (B : gmap string (Z * Z * Z))
    (nm : string) (a : Z * Z * Z) :
  dict_get builtins nm = Some a → basis_ok B →
  fold_left (λ B g, basis_after g B) gs B !! nm =
  if existsb (λ g, String.eqb (name g) nm) gs then Some a else B !! nm.
Proof.
  intros Hb. revert B. induction gs as [|g gs IH]; intros B Hok; [done|].
  cbn [fold_left existsb]. rewrite IH by by apply basis_ok_after.
  destruct (String.eqb_spec (name g) nm) as [Heq|Hne]; cbn [orb].
  - unfold basis_after. rewrite Heq, Hb, lookup_insert_eq. by destruct (existsb _ gs).
  - unfold basis_after.
    destruct (dict_get builtins (name g)); [by rewrite lookup_insert_ne|done].
Qed.

(** C6: the conversion of the first [k] instructions of a well-formed
    circuit.  There is one operation node per instruction, in the order of
    the program; the node has the name and the parameters of the
    instruction; the operands of a measurement are separated into one
    quantum and one classical operand, every other instruction has quantum
    operands only; the condition is given to the DAG as a pair of the name
    of the register and the value, and the node holds it for the register of
    that name.  A builtin has its arity of lines 207-213 in the basis table
    once one of the [k] instructions has its name; until then it is not in
    the table, unless it is a gate definition. *)
Theorem dag_conversion (definitions : gmap string GateData) (self : QuantumCircuit)
    (k : nat) :
  wf_circuit self = true → compatible_definitions definitions = true →
  ∃ d, dag definitions (mkQuantumCircuit (take k (data self)) (regs self)) = Ok d
       ∧ length (dag_ops d) = length (take k (data self))
       ∧ (∀ i g, take k (data self) !! i = Some g →
            ∃ op, dag_ops d !! i = Some op
                  ∧ op_name op = name g
                  ∧ op_params op = param g
                  ∧ (if String.eqb (name g) "measure"
                     then ∃ q c, arg g = [q; c] ∧ op_qargs op = [q] ∧ op_cargs op = [c]
                     else op_qargs op = arg g ∧ op_cargs op = [])
                  ∧ op_condition op = control g
                  ∧ option_map (λ c, (reg_name (fst c), snd c)) (op_condition op)
                    = dag_control g)
       ∧ (∀ nm a, dict_get builtins nm = Some a →
            basis d !! nm =
            if existsb (λ g, String.eqb (name g) nm) (take k (data self))
            then Some a else arity_of <$> definitions !! nm).
Proof.
  intros Hwf%(wf_circuit_take _ k) Hdefs.
  destruct (dag_Ok definitions _ Hwf Hdefs) as (d&ts&Hd&_&Hn&Hts&Hb&_&_).
  apply wf_circuit_spec in Hwf as [_ Hdata]. simpl in *.
  exists d. rewrite (dag_ops_nodes d ts _ Hn Hts). split_and!; [done|by rewrite length_map|..].
  - intros i g Hi. exists (dag_op_of g). rewrite list_lookup_fmap, Hi. simpl.
    rewrite forallb_forall in Hdata.
    apply list_elem_of_lookup_2, list_elem_of_In, Hdata in Hi.
    unfold wf_instruction in Hi. rewrite !andb_true_iff in Hi. destruct Hi as [[Hargs _] _].
    unfold dag_op_of, dag_control.
    destruct (String.eqb (name g) "measure").
    + destruct (arg g) as [|q [|c [|]]]; try done. simpl.
      split_and!; try done. by exists q, c.
    + simpl. split_and!; try done.
  - intros nm a Hnm. rewrite Hb, (basis_fold_lookup _ _ nm a), lookup_fmap; [done..|].
    by apply compatible_definitions_basis_ok.
Qed.

Lemma dag_conversion_witness :
  (wf_circuit ex_chain = true ∧ compatible_definitions ∅ = true)
  ∧ ∃ d, dag ∅ (mkQuantumCircuit (take 2 (data ex_chain)) (regs ex_chain)) = Ok d
         ∧ length (dag_ops d) = length (take 2 (data ex_chain))
         ∧ (∀ i g, take 2 (data ex_chain) !! i = Some g →
              ∃ op, dag_ops d !! i = Some op
                    ∧ op_name op = name g
                    ∧ op_params op = param g
                    ∧ (if String.eqb (name g) "measure"
                       then ∃ q c, arg g = [q; c] ∧ op_qargs op = [q] ∧ op_cargs op = [c]
                       else op_qargs op = arg g ∧ op_cargs op = [])
                    ∧ op_condition op = control g
                    ∧ option_map (λ c, (reg_name (fst c), snd c)) (op_condition op)
                      = dag_control g)
         ∧ (∀ nm a, dict_get builtins nm = Some a →
              basis d !! nm =
              if existsb (λ g, String.eqb (name g) nm) (take 2 (data ex_chain))
              then Some a else arity_of <$> (∅ : gmap string GateData) !! nm).
Proof.
  split; [split; reflexivity|].
  apply (dag_conversion ∅ ex_chain 2); reflexivity.
Defined.

Lemma instructions_of_dag_ops (self : QuantumCircuit) (gs : list Instruction) :
  forallb (wf_instruction self) gs = true →
  map instruction_of (map dag_op_of gs) = gs.
Proof.
  induction gs as [|g gs IH]; simpl; [done|].
  intros [Hg Hgs]%andb_true_iff. by rewrite (instruction_of_dag_op_of self), IH.
Qed.

(** The round trip of a well-formed circuit: [dag] returns a DAG that the
    canonical order sorts topologically, and for every topological order
    [dag_to_circuit] returns the circuit over the quantum registers followed
    by the classical registers whose instructions are those of the
    operations in the order they are met. *)
Lemma roundtrip_Ok (definitions : gmap string GateData) (self : QuantumCircuit) :
  wf_circuit self = true → compatible_definitions definitions = true →
  ∃ d, dag definitions self = Ok d
       ∧ is_topological_order d (canonical_order d) = true
       ∧ (∀ order, is_topological_order d order = true →
            dag_to_circuit d order =
            Ok (mkQuantumCircuit (map instruction_of (ops_at d order))
                  (map keyed (List.filter is_quantum (dict_values (regs self))
                              ++ List.filter is_classical (dict_values (regs self))))))
       ∧ (∀ order, chain (data self) = true → is_topological_order d order = true →
            map instruction_of (ops_at d order) = data self).
Proof.
  intros Hwfc Hdefs.
  destruct (dag_Ok definitions _ Hwfc Hdefs) as (d&ts&Hd&Hmatch&Hn&Hts&_&Hinv&Hchain).
  apply wf_circuit_spec in Hwfc as [Hwf Hdata].
  pose proof (wf_regs_names _ Hwf) as Hnames.
  set (qs := List.filter is_quantum (dict_values (regs self))) in *.
  set (cs := List.filter is_classical (dict_values (regs self))) in *.
  assert (NoDup (map reg_name (qs ++ cs))) as Hnd.
  { unfold qs, cs. by rewrite filter_kinds_Permutation. }
  exists d. split_and!; [done|by apply canonical_order_topological|..].
  - intros order [Hperm _]%is_topological_order_spec. unfold dag_to_circuit.
    destruct Hmatch as [Hq Hc]. rewrite Hq, Hc.
    rewrite !fresh_registers_id, !keyed_dict_values.
    + rewrite <- map_app. unfold QuantumCircuit_init.
      rewrite add_fresh by (by apply wf_regs_keyed). simpl.
      rewrite (dag_to_circuit_loop_Ok d); [done|..].
      * intros n Hin. rewrite Hperm in Hin. apply elem_of_seq in Hin. lia.
      * intros n op Hop. rewrite Hn in Hop.
        apply list_elem_of_lookup_2, elem_of_app in Hop as [Hop|Hop].
        { rewrite Forall_forall in Hts. by apply Hts in Hop. }
        rewrite <- list_fmap_compose in Hop.
        apply list_elem_of_fmap in Hop as (g&[= ->]&Hg).
        rewrite forallb_forall in Hdata. apply list_elem_of_In, Hdata in Hg.
        destruct (dag_op_of_operands self g Hg) as [Hqa Hca].
        rewrite forallb_forall in Hqa, Hca.
        assert (regs_match self d) as Hm by (by split).
        split; apply lookup_bits_Ok, Forall_forall; intros b Hb%list_elem_of_In.
        -- rewrite <- Hq. by apply (wf_operand_spec self d Hwf Hm Quantum), Hqa.
        -- rewrite <- Hc. by apply (wf_operand_spec self d Hwf Hm Classical), Hca.
    + apply Forall_forall. intros r [_ Hr]%list_elem_of_In%filter_In.
      by apply ClassicalRegister_eq.
    + by apply names_filter_NoDup.
    + apply Forall_forall. intros r [_ Hr]%list_elem_of_In%filter_In.
      by apply QuantumRegister_eq.
    + by apply names_filter_NoDup.
  - intros order Hc Horder.
    rewrite (ops_at_topological d ts (map dag_op_of (data self))); [|done..| |done].
    + by apply (instructions_of_dag_ops self).
    + intros i Hi. rewrite length_map in Hi.
      destruct (lookup_lt_is_Some_2 (data self) i) as [g1 H1]; [lia|].
      destruct (lookup_lt_is_Some_2 (data self) (S i)) as [g2 H2]; [lia|].
      apply (Hchain i g1 g2); [done..|]. by apply (chain_spec (data self) i).
Qed.

(** C1: for a well-formed circuit, [dag] returns a DAG, the DAG has a
    topological order, and for every topological order of its nodes
    [dag_to_circuit] returns a circuit whose register map holds exactly the
    entries (name and register, a register being a name, a size and a kind)
    of the register map of the circuit, and, when every two consecutive
    instructions of the circuit share a bit, the instructions of the circuit
    in their order. *)
Theorem dag_roundtrip (definitions : gmap string GateData) (self : QuantumCircuit) :
  wf_circuit self = true → compatible_definitions definitions = true →
  ∃ d, dag definitions self = Ok d
       ∧ is_topological_order d (canonical_order d) = true
       ∧ ∀ order, is_topological_order d order = true →
           ∃ circuit, dag_to_circuit d order = Ok circuit
                      ∧ regs circuit ≡ₚ regs self
                      ∧ wf_regs (regs circuit) = true
                      ∧ (chain (data self) = true → data circuit = data self).
Proof.
  intros Hwfc Hdefs.
  destruct (roundtrip_Ok definitions self Hwfc Hdefs) as (d&Hd&Hcanon&Hback&Hchain).
  apply wf_circuit_spec in Hwfc as [Hwf _].
  exists d. split_and!; [done..|]. intros order Horder.
  eexists. split; [by apply Hback|]. simpl. split_and!.
  - rewrite filter_kinds_Permutation. by rewrite keyed_values.
  - apply wf_regs_keyed. rewrite filter_kinds_Permutation. by apply wf_regs_names.
  - intros Hc. by apply Hchain.
Qed.

Lemma dag_roundtrip_witness :
  (wf_circuit ex_chain = true ∧ compatible_definitions ∅ = true
   ∧ chain (data ex_chain) = true)
  ∧ ∃ d, dag ∅ ex_chain = Ok d
         ∧ is_topological_order d (canonical_order d) = true
         ∧ ∀ order, is_topological_order d order = true →
             ∃ circuit, dag_to_circuit d order = Ok circuit
                        ∧ regs circuit ≡ₚ regs ex_chain
                        ∧ wf_regs (regs circuit) = true
                        ∧ (chain (data ex_chain) = true → data circuit = data ex_chain).
Proof.
  split; [split_and!; reflexivity|].
  apply (dag_roundtrip ∅ ex_chain); reflexivity.
Defined.

Lemma kinds_split (qs cs l : list Register) (i j : nat) (rc rq : Register) :
  Forall (λ r, reg_kind r = Quantum) qs → Forall (λ r, reg_kind r = Classical) cs →
  i < j → l !! i = Some rc → l !! j = Some rq →
  reg_kind rc = Classical → reg_kind rq = Quantum →
  qs ++ cs ≠ l.
Proof.
  intros Hqs Hcs Hij Hi Hj Hrc Hrq <-.
  rewrite Forall_forall in Hqs, Hcs.
  destruct (decide (i < length qs)) as [Hlt|Hge].
  - rewrite lookup_app_l in Hi by done.
    apply list_elem_of_lookup_2, Hqs in Hi. congruence.
  - rewrite lookup_app_r in Hj by lia.
    apply list_elem_of_lookup_2, Hcs in Hj. congruence.
Qed.

(** C10: the register map of the circuit that [dag_to_circuit] returns
    lists the (fresh) quantum registers of the DAG, then its (fresh)
    classical registers, each group in the order in which the DAG enumerates
    it; so it differs from every list of registers in which a classical
    register comes before a quantum one, such as the register map of a
    circuit that declares them in this order. *)
Theorem dag_to_circuit_register_order (d : DAGCircuit) (order : list nat)
    (circuit : QuantumCircuit) :
  dag_to_circuit d order = Ok circuit →
  regs circuit =
    map keyed (dict_values (fresh_registers QuantumRegister (qregs d))
               ++ dict_values (fresh_registers ClassicalRegister (cregs d)))
  ∧ Forall (λ r, reg_kind r = Quantum)
      (dict_values (fresh_registers QuantumRegister (qregs d)))
  ∧ Forall (λ r, reg_kind r = Classical)
      (dict_values (fresh_registers ClassicalRegister (cregs d)))
  ∧ (wf_regs (qregs d) = true →
       dict_values (fresh_registers QuantumRegister (qregs d))
       = map (λ r, QuantumRegister (reg_size r) (reg_name r)) (dict_values (qregs d)))
  ∧ (wf_regs (cregs d) = true →
       dict_values (fresh_registers ClassicalRegister (cregs d))
       = map (λ r, ClassicalRegister (reg_size r) (reg_name r)) (dict_values (cregs d)))
  ∧ ∀ (l : list Register) i j rc rq,
      i < j → l !! i = Some rc → l !! j = Some rq →
      reg_kind rc = Classical → reg_kind rq = Quantum →
      dict_values (regs circuit) ≠ l.
Proof.
  intros Hback.
  pose proof (fresh_registers_kind QuantumRegister Quantum (qregs d) (λ _ _, eq_refl)) as Hqs.
  pose proof (fresh_registers_kind ClassicalRegister Classical (cregs d) (λ _ _, eq_refl))
    as Hcs.
  assert (regs circuit =
    map keyed (dict_values (fresh_registers QuantumRegister (qregs d))
               ++ dict_values (fresh_registers ClassicalRegister (cregs d)))) as Hregs.
  { unfold dag_to_circuit, QuantumCircuit_init in Hback. rewrite <- map_app in Hback.
    destruct (add _ _) as [[[]|e] c0] eqn:Hadd; simpl in Hback; [|done].
    apply add_Ok in Hadd as [Hregs0 _]. simpl in Hregs0.
    destruct (dag_to_circuit_loop _ _ _ _ _) as [[[]|e] c1] eqn:Hloop; [|done].
    injection Hback as <-. apply dag_to_circuit_loop_regs in Hloop. congruence. }
  split_and!; [done..| | |].
  - apply fresh_registers_values.
  - apply fresh_registers_values.
  - intros l i j rc rq Hij Hi Hj Hrc Hrq. rewrite Hregs, keyed_dict_values.
    by apply (kinds_split _ _ l i j rc rq).
Qed.

Lemma dag_to_circuit_register_order_witness :
  dag_to_circuit ex_dag (canonical_order ex_dag)
    = Ok (mkQuantumCircuit [] [keyed ex_q; keyed ex_c])
  ∧ (regs (mkQuantumCircuit [] [keyed ex_q; keyed ex_c]) =
       map keyed (dict_values (fresh_registers QuantumRegister (qregs ex_dag))
                  ++ dict_values (fresh_registers ClassicalRegister (cregs ex_dag)))
     ∧ Forall (λ r, reg_kind r = Quantum)
         (dict_values (fresh_registers QuantumRegister (qregs ex_dag)))
     ∧ Forall (λ r, reg_kind r = Classical)
         (dict_values (fresh_registers ClassicalRegister (cregs ex_dag)))
     ∧ (wf_regs (qregs ex_dag) = true →
          dict_values (fresh_registers QuantumRegister (qregs ex_dag))
          = map (λ r, QuantumRegister (reg_size r) (reg_name r))
              (dict_values (qregs ex_dag)))
     ∧ (wf_regs (cregs ex_dag) = true →
          dict_values (fresh_registers ClassicalRegister (cregs ex_dag))
          = map (λ r, ClassicalRegister (reg_size r) (reg_name r))
              (dict_values (cregs ex_dag)))
     ∧ ∀ (l : list Register) i j rc rq,
         i < j → l !! i = Some rc → l !! j = Some rq →
         reg_kind rc = Classical → reg_kind rq = Quantum →
         dict_values (regs (mkQuantumCircuit [] [keyed ex_q; keyed ex_c])) ≠ l).
Proof.
  split; [vm_compute; reflexivity|].
  apply (dag_to_circuit_register_order ex_dag (canonical_order ex_dag)).
  vm_compute; reflexivity.
Defined.

(** The round trip of [ex_cq], which declares [c] before [q], returns a
    circuit that declares [q] before [c]. *)
Lemma roundtrip_register_order_example :
  dag ∅ ex_cq = Ok ex_dag
  ∧ is_topological_order ex_dag (canonical_order ex_dag) = true
  ∧ dag_to_circuit ex_dag (canonical_order ex_dag)
    = Ok (mkQuantumCircuit [] [keyed ex_q; keyed ex_c])
  ∧ regs ex_cq = [keyed ex_c; keyed ex_q].
Proof. split_and!; vm_compute; reflexivity. Qed.

(** The example of the specification: the two measurements are on different
    bits, so the DAG has the two orders [cx, measure 0, measure 1] and
    [cx, measure 1, measure 0], and no order with a measurement before [cx];
    the circuit is no chain. *)
Lemma spec_example_orders :
  dag ∅ ex_spec = Ok ex_spec_dag
  ∧ map name (data ex_spec) = ["cx"; "measure"; "measure"]
  ∧ chain (data ex_spec) = false
  ∧ is_topological_order ex_spec_dag [0; 2; 4; 6; 8; 9; 10; 1; 3; 5; 7] = true
  ∧ is_topological_order ex_spec_dag [0; 2; 4; 6; 8; 10; 9; 1; 3; 5; 7] = true
  ∧ is_topological_order ex_spec_dag [0; 2; 4; 6; 9; 8; 10; 1; 3; 5; 7] = false
  ∧ (∃ c, dag_to_circuit ex_spec_dag [0; 2; 4; 6; 8; 9; 10; 1; 3; 5; 7] = Ok c
          ∧ data c = data ex_spec)
  ∧ (∃ c, dag_to_circuit ex_spec_dag [0; 2; 4; 6; 8; 10; 9; 1; 3; 5; 7] = Ok c
          ∧ map arg (data c) =
            [ [(ex_q, 0%Z); (ex_q, 1%Z)];
              [(ex_q, 1%Z); (ex_c, 1%Z)];
              [(ex_q, 0%Z); (ex_c, 0%Z)] ]).
Proof.
  split_and!; try (vm_compute; reflexivity);
    eexists; (split; [vm_compute; reflexivity | reflexivity]).
Qed.

(** * Further properties of the circuit *)

(** ** [add], [__init__], [get_qregs] and [get_cregs] *)

Lemma dict_in_snoc {V : Type} (d : OrderedDict V) (k k' : string) (v : V) :
  dict_in (d ++ [(k, v)]) k' = dict_in d k' || String.eqb k k'.
Proof.
  rewrite dict_in_app. f_equal. unfold dict_in. simpl. by destruct (String.eqb k k').
Qed.

(** When [add] returns it was given registers, and has appended them. *)
Lemma add_Ok_registers (rs : list PyVal) (self self' : QuantumCircuit) :
  add rs self = (Ok tt, self') →
  ∃ pre, rs = map PReg pre
         ∧ regs self' = regs self ++ map keyed pre
         ∧ data self' = data self.
Proof.
  revert self. induction rs as [|v rs IH]; intros self; simpl.
  - intros [= <-]. exists []. by rewrite app_nil_r.
  - destruct v as [r0| |]; try done.
    destruct (dict_in (regs self) (reg_name r0)) eqn:Hin; simpl; [done|].
    intros (pre&->&Hregs&Hdata)%IH. exists (r0 :: pre). simpl in *.
    by rewrite Hregs, dict_set_fresh, <- app_assoc.
Qed.

(** X1: [add] returns exactly when it is given registers whose names differ
    from each other and from the keys of the register map; it then appends the
    registers to the map in the order of the call and changes nothing else. *)
Theorem add_returns (self self' : QuantumCircuit) (rs : list PyVal) :
  add rs self = (Ok tt, self') ↔
  ∃ pre, rs = map PReg pre
         ∧ NoDup (map reg_name pre)
         ∧ (∀ r, r ∈ pre → dict_in (regs self) (reg_name r) = false)
         ∧ self' = mkQuantumCircuit (data self) (regs self ++ map keyed pre).
Proof.
  split.
  - revert self. induction rs as [|v rs IH]; intros self; simpl.
    + intros [= <-]. exists []. simpl. rewrite app_nil_r.
      split_and!; [done|constructor| |by destruct self].
      intros r Hr. by apply elem_of_nil in Hr.
    + destruct v as [r| |]; try done.
      destruct (dict_in (regs self) (reg_name r)) eqn:Hin; simpl; [done|].
      intros (pre&->&Hnd&Hfresh&->)%IH. simpl in *.
      rewrite dict_set_fresh in * by done.
      exists (r :: pre). simpl. split_and!; [done| | |by rewrite <- app_assoc].
      * apply NoDup_cons. split; [|done].
        intros (r'&Heq&Hr')%list_elem_of_fmap. apply Hfresh in Hr'.
        rewrite dict_in_snoc, <- Heq, String.eqb_refl in Hr'.
        by rewrite orb_true_r in Hr'.
      * intros r' [->|Hr']%elem_of_cons; [done|]. apply Hfresh in Hr'.
        rewrite dict_in_snoc in Hr'. by apply orb_false_iff in Hr' as [? _].
  - intros (pre&->&Hnd&Hfresh&->). revert self Hnd Hfresh.
    induction pre as [|r pre IH]; intros self Hnd Hfresh; simpl.
    + unfold retM. rewrite app_nil_r. by destruct self.
    + apply NoDup_cons in Hnd as [Hr Hnd].
      rewrite Hfresh by (apply elem_of_cons; by left). simpl.
      rewrite dict_set_fresh by (apply Hfresh, elem_of_cons; by left).
      rewrite IH; [simpl; by rewrite <- app_assoc|done|]. simpl.
      intros r' Hr'. rewrite dict_in_snoc. apply orb_false_iff. split.
      * apply Hfresh, elem_of_cons. by right.
      * apply String.eqb_neq. intros Heq. apply Hr. rewrite Heq.
        by apply list_elem_of_fmap_2.
Qed.

(** X2: After [add] has returned, the circuit has the registers it had and the
    registers it was given, and no other. *)
Theorem add_has_register (self self' : QuantumCircuit) (rs : list PyVal) (r : Register) :
  wf_regs (regs self) = true → add rs self = (Ok tt, self') →
  has_register self' r = true ↔ has_register self r = true ∨ PReg r ∈ rs.
Proof.
  intros Hwf Hadd. pose proof (add_wf_regs _ _ _ Hwf Hadd) as Hwf'.
  rewrite !has_register_elem by done.
  destruct (add_Ok_registers _ _ _ Hadd) as (pre&->&Hregs&_).
  rewrite Hregs. unfold dict_values. rewrite map_app, elem_of_app.
  fold (dict_values (map keyed pre)). rewrite keyed_dict_values.
  split; (intros [?|Hr]; [by left|right]).
  - by apply (list_elem_of_fmap_2 PReg) in Hr.
  - by apply list_elem_of_fmap in Hr as (r'&[= <-]&?).
Qed.

Lemma add_has_register_witness :
  (wf_regs (regs ex_empty) = true
   ∧ add [PReg ex_q; PReg ex_c] ex_empty = (Ok tt, mkQuantumCircuit [] [keyed ex_q; keyed ex_c]))
  ∧ (has_register (mkQuantumCircuit [] [keyed ex_q; keyed ex_c]) ex_c = true ↔
     has_register ex_empty ex_c = true ∨ PReg ex_c ∈ [PReg ex_q; PReg ex_c]).
Proof.
  split; [by split|].
  apply (add_has_register ex_empty _ [PReg ex_q; PReg ex_c] ex_c); reflexivity.
Defined.

(** X3: The circuit that the constructor returns has no instruction; its
    register map lists the values the constructor was given, which are
    registers, in the order they were given, under their names. *)
Theorem QuantumCircuit_init_returns (rs : list PyVal) (self : QuantumCircuit) :
  QuantumCircuit_init rs = Ok self →
  data self = []
  ∧ map PReg (dict_values (regs self)) = rs
  ∧ map fst (regs self) = map reg_name (dict_values (regs self))
  ∧ wf_circuit self = true.
Proof.
  intros Hinit. pose proof (QuantumCircuit_init_wf _ _ Hinit) as Hwf.
  unfold QuantumCircuit_init in Hinit.
  destruct (add rs _) as [[[]|e] self0] eqn:Hadd; [|done]. injection Hinit as ->.
  apply add_Ok_registers in Hadd as (pre&->&Hregs&Hdata). simpl in *.
  rewrite Hregs, Hdata, keyed_dict_values. split_and!; [done..| |done].
  clear. induction pre as [|r pre IH]; simpl; [done|]. by rewrite IH.
Qed.

Lemma QuantumCircuit_init_returns_witness :
  QuantumCircuit_init [PReg ex_c; PReg ex_q] = Ok ex_cq
  ∧ (data ex_cq = []
     ∧ map PReg (dict_values (regs ex_cq)) = [PReg ex_c; PReg ex_q]
     ∧ map fst (regs ex_cq) = map reg_name (dict_values (regs ex_cq))
     ∧ wf_circuit ex_cq = true).
Proof.
  split; [reflexivity|].
  apply (QuantumCircuit_init_returns [PReg ex_c; PReg ex_q] ex_cq). reflexivity.
Defined.

Lemma dict_get_filter (f : Register → bool) (d : OrderedDict Register) (k : string) :
  distinct_keys d = true →
  dict_get (List.filter (λ kv, f (snd kv)) d) k =
  match dict_get d k with
  | Some r => if f r then Some r else None
  | None => None
  end.
Proof.
  induction d as [|[k' r'] d IH]; simpl; [done|].
  rewrite andb_true_iff, negb_true_iff, dict_in_false, dict_get_None.
  intros [Hk' Hd]. destruct (String.eqb_spec k' k) as [->|Hne].
  - destruct (f r'); simpl; [by rewrite String.eqb_refl|].
    apply dict_get_None. intros ([k2 r2]&?&[Hin _]%list_elem_of_In%filter_In)%list_elem_of_fmap.
    apply Hk'. simpl in *. subst k. apply list_elem_of_fmap. exists (k2, r2).
    split; [done | by apply list_elem_of_In].
  - destruct (f r'); simpl; [|by apply IH].
    destruct (String.eqb_spec k' k); [done|by apply IH].
Qed.

Lemma fold_dict_set_filter (f : Register → bool) (d acc : OrderedDict Register) :
  distinct_keys (acc ++ d) = true →
  fold_left (λ a kv, if f (snd kv) then dict_set a (fst kv) (snd kv) else a) d acc
  = acc ++ List.filter (λ kv, f (snd kv)) d.
Proof.
  revert acc. induction d as [|[k r] d IH]; intros acc Hd; simpl.
  - by rewrite app_nil_r.
  - apply distinct_keys_NoDup in Hd as Hnd. rewrite fmap_app in Hnd. simpl in Hnd.
    destruct (f r).
    + rewrite dict_set_fresh.
      * rewrite IH; [by rewrite <- app_assoc|]. by rewrite <- app_assoc.
      * apply dict_in_false, dict_get_None. apply NoDup_app in Hnd as (_&Hdisj&_).
        intros Hin. apply (Hdisj _ Hin), elem_of_cons. by left.
    + apply IH. apply distinct_keys_NoDup. rewrite fmap_app.
      apply NoDup_app in Hnd as (Hacc&Hdisj&[_ Hd']%NoDup_cons).
      apply NoDup_app. split_and!; [done| |done].
      intros x Hx Hx'. apply (Hdisj x Hx), elem_of_cons. by right.
Qed.

(** X4: [get_qregs] and [get_cregs] split the register map: each holds the
    registers of its kind under their keys, in the order of the map, and a key
    of the map is found in exactly one of them. *)
Theorem get_qregs_get_cregs (self : QuantumCircuit) (k : string) :
  wf_regs (regs self) = true →
  get_qregs self = List.filter (λ kv, is_quantum (snd kv)) (regs self)
  ∧ get_cregs self = List.filter (λ kv, is_classical (snd kv)) (regs self)
  ∧ dict_get (get_qregs self) k
    = (match dict_get (regs self) k with
       | Some r => if is_quantum r then Some r else None
       | None => None
       end)
  ∧ dict_get (get_cregs self) k
    = (match dict_get (regs self) k with
       | Some r => if is_quantum r then None else Some r
       | None => None
       end).
Proof.
  intros [_ Hd]%andb_true_iff. unfold get_qregs, get_cregs.
  rewrite !fold_dict_set_filter by done. simpl.
  rewrite !dict_get_filter by done. split_and!; try done.
  destruct (dict_get (regs self) k) as [r|]; [|done].
  rewrite is_classical_quantum. by destruct (is_quantum r).
Qed.

Lemma get_qregs_get_cregs_witness :
  wf_regs (regs ex_cq) = true
  ∧ (get_qregs ex_cq = List.filter (λ kv, is_quantum (snd kv)) (regs ex_cq)
     ∧ get_cregs ex_cq = List.filter (λ kv, is_classical (snd kv)) (regs ex_cq)
     ∧ dict_get (get_qregs ex_cq) "q"
       = (match dict_get (regs ex_cq) "q" with
          | Some r => if is_quantum r then Some r else None
          | None => None
          end)
     ∧ dict_get (get_cregs ex_cq) "q"
       = (match dict_get (regs ex_cq) "q" with
          | Some r => if is_quantum r then None else Some r
          | None => None
          end)).
Proof.
  split; [reflexivity|]. apply (get_qregs_get_cregs ex_cq "q"). reflexivity.
Defined.

(** ** [__getitem__], [__len__] and [_attach] *)

(** X5: [circuit[item]] raises [IndexError] exactly for an index outside [-len
    .. len-1]; a negative index [item - len] reads the same instruction as
    [item], which is the one at the position [item] of the list. *)
Theorem getitem_bounds (self : QuantumCircuit) (item : Z) :
  (QuantumCircuit_getitem self item = Err PyIndexError
   ↔ (item < - Z.of_nat (len self) ∨ Z.of_nat (len self) ≤ item)%Z)
  ∧ ((0 ≤ item < Z.of_nat (len self))%Z →
     ∃ gate, data self !! Z.to_nat item = Some gate
             ∧ QuantumCircuit_getitem self item = Ok gate
             ∧ QuantumCircuit_getitem self (item - Z.of_nat (len self)) = Ok gate).
Proof.
  unfold QuantumCircuit_getitem, len. cbv zeta.
  set (n := Z.of_nat (length (data self))).
  split.
  - destruct (Z.ltb_spec item 0); simpl.
    + destruct (Z.ltb_spec (item + n) 0); simpl; [split; [lia|done]|].
      destruct (Z.leb_spec n (item + n)); simpl; [lia|].
      destruct (lookup_lt_is_Some_2 (data self) (Z.to_nat (item + n))) as [g ->]; [lia|].
      split; [done|lia].
    + rewrite (proj2 (Z.ltb_ge item 0)) by done.
      destruct (Z.leb_spec n item); simpl; [split; [lia|done]|].
      destruct (lookup_lt_is_Some_2 (data self) (Z.to_nat item)) as [g ->]; [lia|].
      split; [done|lia].
  - intros Hitem.
    destruct (lookup_lt_is_Some_2 (data self) (Z.to_nat item)) as [g Hg]; [lia|].
    exists g. split_and!; [done|..].
    + rewrite !(proj2 (Z.ltb_ge item 0)), (proj2 (Z.leb_gt n item)) by lia.
      simpl. by rewrite Hg.
    + rewrite (proj2 (Z.ltb_lt (item - n) 0)) by lia.
      replace (item - n + n)%Z with item by lia.
      rewrite !(proj2 (Z.ltb_ge item 0)), (proj2 (Z.leb_gt n item)) by lia.
      simpl. by rewrite Hg.
Qed.

(** X6: [_attach] returns the gate it is given and puts it at the end of the
    circuit: the length grows by one, the gate is read at the index [-1] and
    at the old length, the instructions that were there are read at the
    indices they had, and the registers are not touched. *)
Theorem attach_getitem (self self' : QuantumCircuit) (gate : Instruction)
    (r : Result Instruction) :
  _attach gate self = (r, self') →
  r = Ok gate
  ∧ len self' = S (len self)
  ∧ regs self' = regs self
  ∧ QuantumCircuit_getitem self' (-1) = Ok gate
  ∧ QuantumCircuit_getitem self' (Z.of_nat (len self)) = Ok gate
  ∧ ∀ i, (0 ≤ i < Z.of_nat (len self))%Z →
         QuantumCircuit_getitem self' i = QuantumCircuit_getitem self i.
Proof.
  unfold _attach. intros [= <- <-]. unfold QuantumCircuit_getitem, len. cbv zeta. simpl.
  rewrite length_app. simpl.
  replace (Z.of_nat (length (data self) + 1)) with (Z.of_nat (length (data self)) + 1)%Z
    by lia.
  set (n := Z.of_nat (length (data self))).
  assert (0 ≤ n)%Z by lia.
  split_and!; [done|lia|done|..].
  - replace (-1 + (n + 1))%Z with n by lia.
    rewrite (proj2 (Z.ltb_ge n 0)), (proj2 (Z.leb_gt (n + 1) n)) by lia. simpl.
    unfold n. by rewrite Nat2Z.id, list_lookup_middle.
  - rewrite !(proj2 (Z.ltb_ge n 0)), (proj2 (Z.leb_gt (n + 1) n)) by lia. simpl.
    unfold n. by rewrite Nat2Z.id, list_lookup_middle.
  - intros i Hi.
    rewrite !(proj2 (Z.ltb_ge i 0)), (proj2 (Z.leb_gt (n + 1) i)), (proj2 (Z.leb_gt n i))
      by lia.
    simpl. by rewrite lookup_app_l by lia.
Qed.

Lemma attach_getitem_witness :
  _attach (CnotGate (ex_q, 0%Z) (ex_q, 1%Z)) ex_measured
    = (Ok (CnotGate (ex_q, 0%Z) (ex_q, 1%Z)),
       mkQuantumCircuit (data ex_measured ++ [CnotGate (ex_q, 0%Z) (ex_q, 1%Z)])
         (regs ex_measured))
  ∧ (Ok (CnotGate (ex_q, 0%Z) (ex_q, 1%Z)) = Ok (CnotGate (ex_q, 0%Z) (ex_q, 1%Z))
     ∧ len (mkQuantumCircuit (data ex_measured ++ [CnotGate (ex_q, 0%Z) (ex_q, 1%Z)])
              (regs ex_measured)) = S (len ex_measured)
     ∧ regs (mkQuantumCircuit (data ex_measured ++ [CnotGate (ex_q, 0%Z) (ex_q, 1%Z)])
               (regs ex_measured)) = regs ex_measured
     ∧ QuantumCircuit_getitem
         (mkQuantumCircuit (data ex_measured ++ [CnotGate (ex_q, 0%Z) (ex_q, 1%Z)])
            (regs ex_measured)) (-1) = Ok (CnotGate (ex_q, 0%Z) (ex_q, 1%Z))
     ∧ QuantumCircuit_getitem
         (mkQuantumCircuit (data ex_measured ++ [CnotGate (ex_q, 0%Z) (ex_q, 1%Z)])
            (regs ex_measured)) (Z.of_nat (len ex_measured))
       = Ok (CnotGate (ex_q, 0%Z) (ex_q, 1%Z))
     ∧ ∀ i, (0 ≤ i < Z.of_nat (len ex_measured))%Z →
            QuantumCircuit_getitem
              (mkQuantumCircuit (data ex_measured ++ [CnotGate (ex_q, 0%Z) (ex_q, 1%Z)])
                 (regs ex_measured)) i
            = QuantumCircuit_getitem ex_measured i).
Proof.
  split; [reflexivity|].
  apply (attach_getitem ex_measured _ (CnotGate (ex_q, 0%Z) (ex_q, 1%Z))). reflexivity.
Defined.

(** ** [_check_dups] and [_check_qubit] *)

Lemma remove_dups_length {A : Type} `{EqDecision A} (l : list A) :
  (List.length (remove_dups l) ≤ List.length l)%nat.
Proof.
  induction l as [|x l IH]; simpl; [done|]. case_decide; simpl; lia.
Qed.

(** X7: [_check_dups] accepts a list of bit references exactly when no bit
    reference is in it twice; otherwise it raises "duplicate qubit arguments". *)
Theorem check_dups_NoDup (qubits : list Bit) :
  (_check_dups qubits = Ok tt ↔ NoDup qubits)
  ∧ (_check_dups qubits = Err DuplicateQubitArguments ↔ ¬ NoDup qubits).
Proof.
  assert (Nat.eqb (List.length (remove_dups (A := Register * Z) qubits))
                  (List.length qubits) = true
          ↔ NoDup qubits) as Hiff.
  { rewrite Nat.eqb_eq. induction qubits as [|b bs IH]; simpl.
    - split; [constructor|done].
    - pose proof (remove_dups_length (A := Register * Z) bs).
      unfold Bit in *. case_decide as Hin; simpl.
      + split; [lia|]. by intros [? _]%NoDup_cons.
      + rewrite NoDup_cons, <- IH. split; [intros [= ?]; by split | intros [_ ->]; done]. }
  unfold _check_dups.
  destruct (Nat.eqb _ _); simpl; split; split; try done.
  - intros _. by apply Hiff.
  - intros Hn. exfalso. by apply Hn, Hiff.
  - intros Hnd%Hiff. done.
  - intros _ Hnd%Hiff. done.
Qed.

(** X8: [_check_qubit] accepts exactly the pairs of a quantum register that
    the circuit has and of an index of that register. *)
Theorem check_qubit_accepts (self : QuantumCircuit) (qubit : PyVal) :
  _check_qubit self qubit = Ok tt ↔
  ∃ q i, qubit = PTuple (PReg q) i
         ∧ is_quantum q = true
         ∧ has_register self q = true
         ∧ (0 ≤ i < Z.of_nat (reg_size q))%Z.
Proof.
  unfold _check_qubit, getitem0, check_range_of, _check_qreg, bindR, Register_getitem.
  split.
  - destruct qubit as [q|[q| |] i|]; simpl; try done.
    + destruct (check_range q 0); simpl; done.
    + destruct (is_quantum q) eqn:Hq; simpl; [|done].
      destruct (has_register self q) eqn:Hh; simpl; [|done].
      intros Hr%check_range_inv. by exists q, i.
  - intros (q&i&->&Hq&Hh&Hi). simpl. rewrite Hq, Hh. simpl. by apply check_range_Ok.
Qed.

(** ** [measure] *)

Lemma measure_bit_Err (qubit cbit : PyVal) (self self' : QuantumCircuit) (e : QISKitError) :
  measure_bit qubit cbit self = (Err e, self') → self' = self.
Proof.
  unfold measure_bit, bindM, liftR, _attach.
  repeat (match goal with |- context [match ?x with _ => _ end] => destruct x end;
          simpl; try done); by intros [= _ <-].
Qed.

Lemma measure_loop_effect (q c : Register) (indices : list nat) (s : InstructionSet)
    (self self' : QuantumCircuit) (r : Result InstructionSet) :
  measure_loop q c indices s self = (r, self') →
  regs self' = regs self
  ∧ ∃ ms, data self' = data self ++ ms ∧ Forall is_measurement ms.
Proof.
  revert s self. induction indices as [|i indices IH]; intros s self; simpl.
  - intros [= _ <-]. split; [done|]. exists []. by rewrite app_nil_r.
  - unfold bindM. destruct (measure_bit _ _ self) as [[g|e] self1] eqn:Hm.
    + apply measure_bit_inv in Hm as (q'&i'&c'&j'&_&_&_&_&->&->).
      intros (Hregs&ms&Hdata&Hms)%IH. simpl in *. split; [done|].
      eexists (_ :: ms). rewrite Hdata, <- app_assoc. split; [done|].
      constructor; [by repeat split|done].
    + apply measure_bit_Err in Hm as ->. intros [= _ <-]. split; [done|].
      exists []. by rewrite app_nil_r.
Qed.

Lemma measure_loop_Err (q c : Register) (indices : list nat) (s : InstructionSet)
    (self self' : QuantumCircuit) (e : QISKitError) :
  Forall (λ i, i < reg_size q ∧ i < reg_size c) indices →
  measure_loop q c indices s self = (Err e, self') → self' = self.
Proof.
  intros Hall. destruct indices as [|i indices]; simpl; [done|].
  unfold bindM. destruct (measure_bit _ _ self) as [[g|e'] self1] eqn:Hm.
  - apply measure_bit_inv in Hm as (q'&i'&c'&j'&[= <- <-]&[= <- <-]&Hq&Hc&->&->).
    unfold wf_operand in Hq, Hc. simpl in Hq, Hc.
    rewrite !andb_true_iff in Hq, Hc. destruct Hq as [[[Hq Hhq] _] _], Hc as [[[Hc Hhc] _] _].
    apply Forall_cons in Hall as [_ Hall].
    rewrite measure_loop_Ok by done. done.
  - apply measure_bit_Err in Hm as ->. by intros [= _ <-].
Qed.

(** X9: Whatever [measure] is given and whether it returns or raises, it
    leaves the registers alone and only puts measurements (instructions named
    "measure" with two operands, no parameter and no condition) at the end of
    the circuit; when it raises it has put none. *)
Theorem measure_effect (qubit cbit : PyVal) (self self' : QuantumCircuit)
    (r : Result RetVal) :
  measure qubit cbit self = (r, self') →
  regs self' = regs self
  ∧ ∃ ms, data self' = data self ++ ms
          ∧ Forall (λ g, name g = "measure" ∧ param g = [] ∧ control g = None
                         ∧ length (arg g) = 2) ms
          ∧ (∀ e, r = Err e → ms = [] ∧ self' = self).
Proof.
  unfold measure, bindM, retM.
  destruct (is_register_pair qubit cbit) as [[q c]|] eqn:Hpair.
  - assert (reg_size q = reg_size c) as Hsize.
    { unfold is_register_pair in Hpair. destruct qubit as [q'| |], cbit as [c'| |]; try done.
      destruct (is_quantum q' && is_classical c') eqn:?; simpl in Hpair; [|done].
      destruct (Nat.eqb_spec (reg_size q') (reg_size c')); [|done]. congruence. }
    destruct (measure_loop _ _ _ _ self) as [[s|e] self1] eqn:Hm; intros [= <- <-].
    + apply measure_loop_effect in Hm as (Hregs&ms&Hdata&Hms).
      split; [done|]. exists ms. split_and!; done.
    + apply measure_loop_Err in Hm as ->.
      * split; [done|]. exists []. rewrite app_nil_r. split_and!; [done|constructor|done].
      * apply Forall_forall. intros i Hi%elem_of_seq. lia.
  - destruct (measure_bit _ _ self) as [[g|e] self1] eqn:Hm; intros [= <- <-].
    + apply measure_bit_inv in Hm as (q'&i'&c'&j'&_&_&_&_&->&->). split; [done|].
      eexists [_]. split_and!; [done| |done]. by repeat constructor.
    + apply measure_bit_Err in Hm as ->. split; [done|]. exists [].
      rewrite app_nil_r. split_and!; [done|constructor|done].
Qed.

Lemma measure_effect_witness :
  measure (PReg ex_q) (PReg ex_c) ex_cx
    = (Ok (RSet (mkInstructionSet (drop 1 (data ex_spec)))), ex_spec)
  ∧ (regs ex_spec = regs ex_cx
     ∧ ∃ ms, data ex_spec = data ex_cx ++ ms
             ∧ Forall (λ g, name g = "measure" ∧ param g = [] ∧ control g = None
                            ∧ length (arg g) = 2) ms
             ∧ (∀ e, Ok (RSet (mkInstructionSet (drop 1 (data ex_spec)))) = Err e →
                     ms = [] ∧ ex_spec = ex_cx)).
Proof.
  split; [reflexivity|].
  apply (measure_effect (PReg ex_q) (PReg ex_c) ex_cx ex_spec). reflexivity.
Defined.

(** X10: [measure] returns a single instruction exactly when it is given a bit
    of a quantum register and a bit of a classical register, both registers of
    the circuit and both indices in range; the instruction is the measurement
    of the one into the other, and it is the last instruction of the circuit
    afterwards. *)
Theorem measure_bit_returns (qubit cbit : PyVal) (self self' : QuantumCircuit)
    (g : Instruction) :
  measure qubit cbit self = (Ok (RInstr g), self') ↔
  ∃ q i c j,
    qubit = PTuple (PReg q) i ∧ cbit = PTuple (PReg c) j
    ∧ is_quantum q = true ∧ has_register self q = true
    ∧ (0 ≤ i < Z.of_nat (reg_size q))%Z
    ∧ is_classical c = true ∧ has_register self c = true
    ∧ (0 ≤ j < Z.of_nat (reg_size c))%Z
    ∧ g = mkInstruction "measure" [] [(q, i); (c, j)] None
    ∧ self' = mkQuantumCircuit (data self ++ [g]) (regs self).
Proof.
  unfold measure, bindM, retM. split.
  - destruct (is_register_pair qubit cbit) as [[q c]|].
    + destruct (measure_loop _ _ _ _ self) as [[s|e] self1]; done.
    + destruct (measure_bit _ _ self) as [[g'|e] self1] eqn:Hm; [|done].
      intros [= -> ->].
      apply measure_bit_inv in Hm as (q&i&c&j&->&->&Hq&Hc&->&->).
      unfold wf_operand in Hq, Hc. simpl in Hq, Hc.
      rewrite !andb_true_iff, Z.leb_le, Z.ltb_lt in Hq, Hc.
      exists q, i, c, j. by split_and!; try tauto; try lia.
  - intros (q&i&c&j&->&->&Hq&Hhq&Hi&Hc&Hhc&Hj&->&->). simpl.
    by rewrite measure_bit_Ok.
Qed.

(** ** [reset] *)

Lemma reset_bit_Ok (self : QuantumCircuit) (q : Register) (i : Z) :
  is_quantum q = true → has_register self q = true → (0 ≤ i < Z.of_nat (reg_size q))%Z →
  reset_bit (PTuple (PReg q) i) self =
  (Ok (mkInstruction "reset" [] [(q, i)] None),
   mkQuantumCircuit (data self ++ [mkInstruction "reset" [] [(q, i)] None]) (regs self)).
Proof.
  intros Hq Hhq Hi. unfold reset_bit, bindM, liftR, _check_qubit, _attach; simpl.
  rewrite Hq, Hhq; simpl. by rewrite check_range_Ok.
Qed.

Lemma reset_bit_inv (v : PyVal) (self self' : QuantumCircuit) (g : Instruction) :
  reset_bit v self = (Ok g, self') →
  ∃ q i, v = PTuple (PReg q) i
         ∧ is_quantum q = true ∧ has_register self q = true
         ∧ (0 ≤ i < Z.of_nat (reg_size q))%Z
         ∧ g = mkInstruction "reset" [] [(q, i)] None
         ∧ self' = mkQuantumCircuit (data self ++ [g]) (regs self).
Proof.
  unfold reset_bit, bindM, liftR, _check_qubit, getitem0, check_range_of, Reset, as_bit,
    _attach, bindR, Register_getitem.
  destruct v as [q|[q| |] i|]; simpl; try done.
  - destruct (check_range q 0); simpl; done.
  - destruct (is_quantum q) eqn:Hq; simpl; [|done].
    destruct (has_register self q) eqn:Hhq; simpl; [|done].
    destruct (check_range q i) as [[]|] eqn:Hi; simpl; [|done].
    intros [= <- <-]. exists q, i. apply check_range_inv in Hi. split_and!; (done || lia).
Qed.

Lemma reset_bit_Err (v : PyVal) (self self' : QuantumCircuit) (e : QISKitError) :
  reset_bit v self = (Err e, self') →
  self' = self
  ∧ (e = ExpectedQuantumRegister ∨ e = RegisterIndexOutOfRange ∨ e = PyTypeError
     ∨ ∃ q i, v = PTuple (PReg q) i ∧ is_quantum q = true
              ∧ has_register self q = false
              ∧ e = RegisterNotInThisCircuit (reg_name q)).
Proof.
  unfold reset_bit, bindM, liftR, _check_qubit, getitem0, check_range_of, Reset, as_bit,
    _attach, bindR, Register_getitem, check_range.
  destruct v as [q|[q| |] i|]; simpl.
  - match goal with |- context [if ?b then _ else _] => destruct b end; simpl;
      intros [= <- <-]; split; auto.
  - destruct (is_quantum q) eqn:Hq; simpl; [|intros [= <- <-]; split; auto].
    destruct (has_register self q) eqn:Hhq; simpl.
    + match goal with |- context [if ?b then _ else _] => destruct b end; simpl; [|done].
      intros [= <- <-]; split; auto.
    + intros [= <- <-]. split; [done|]. right; right; right. by exists q, i.
  - intros [= <- <-]; split; auto.
  - intros [= <- <-]; split; auto.
  - intros [= <- <-]; split; auto.
Qed.

Lemma reset_loop_Ok (self : QuantumCircuit) (q : Register) (indices : list nat)
    (s : InstructionSet) :
  is_quantum q = true → has_register self q = true →
  Forall (λ i, i < reg_size q) indices →
  reset_loop q indices s self =
  (Ok (mkInstructionSet
         (instructions s ++
          map (λ i, mkInstruction "reset" [] [(q, Z.of_nat i)] None) indices)),
   mkQuantumCircuit
     (data self ++ map (λ i, mkInstruction "reset" [] [(q, Z.of_nat i)] None) indices)
     (regs self)).
Proof.
  intros Hq. revert self s. induction indices as [|i indices IH]; intros self s Hhq Hall; simpl.
  - unfold retM. rewrite !app_nil_r. by destruct self, s.
  - apply Forall_cons in Hall as [? Hall]. unfold bindM.
    rewrite reset_bit_Ok by (done || lia).
    rewrite IH by done. simpl. by rewrite <- !app_assoc.
Qed.

(** X11: [reset(q)] for a quantum register [q] of the circuit attaches one
    reset for every bit of [q], in the order of the indices, and returns them
    in an instruction set; the registers are not touched. *)
Theorem reset_register (self : QuantumCircuit) (q : Register) :
  is_quantum q = true → has_register self q = true →
  ∃ rs : list Instruction,
    reset (PReg q) self =
      (Ok (RSet (mkInstructionSet rs)), mkQuantumCircuit (data self ++ rs) (regs self))
    ∧ length rs = reg_size q
    ∧ ∀ i, i < reg_size q →
        rs !! i = Some (mkInstruction "reset" [] [(q, Z.of_nat i)] None).
Proof.
  intros Hq Hhq.
  exists (map (λ i, mkInstruction "reset" [] [(q, Z.of_nat i)] None) (seq 0 (reg_size q))).
  split_and!.
  - unfold reset. rewrite Hq. unfold bindM. rewrite reset_loop_Ok; [done..|].
    apply Forall_forall. intros i Hi%elem_of_seq. lia.
  - by rewrite length_map, length_seq.
  - intros i Hi. rewrite list_lookup_fmap, lookup_seq_lt by done. done.
Qed.

Lemma reset_register_witness :
  (is_quantum ex_q = true ∧ has_register ex_measured ex_q = true)
  ∧ ∃ rs : list Instruction,
      reset (PReg ex_q) ex_measured =
        (Ok (RSet (mkInstructionSet rs)),
         mkQuantumCircuit (data ex_measured ++ rs) (regs ex_measured))
      ∧ length rs = reg_size ex_q
      ∧ ∀ i, i < reg_size ex_q →
          rs !! i = Some (mkInstruction "reset" [] [(ex_q, Z.of_nat i)] None).
Proof.
  split; [by split|]. apply (reset_register ex_measured ex_q); reflexivity.
Defined.

(** X12: [reset] returns a single instruction exactly when it is given a bit
    of a quantum register of the circuit with its index in range; the
    instruction is the reset of that bit and it is the last instruction of the
    circuit afterwards. *)
Theorem reset_bit_returns (v : PyVal) (self self' : QuantumCircuit) (g : Instruction) :
  reset v self = (Ok (RInstr g), self') ↔
  ∃ q i, v = PTuple (PReg q) i
         ∧ is_quantum q = true ∧ has_register self q = true
         ∧ (0 ≤ i < Z.of_nat (reg_size q))%Z
         ∧ g = mkInstruction "reset" [] [(q, i)] None
         ∧ self' = mkQuantumCircuit (data self ++ [g]) (regs self).
Proof.
  split.
  - unfold reset, bindM, retM.
    assert (reset_bit v self = (Ok g, self') →
            ∃ q i, v = PTuple (PReg q) i
                   ∧ is_quantum q = true ∧ has_register self q = true
                   ∧ (0 ≤ i < Z.of_nat (reg_size q))%Z
                   ∧ g = mkInstruction "reset" [] [(q, i)] None
                   ∧ self' = mkQuantumCircuit (data self ++ [g]) (regs self)) as Hbit
      by apply reset_bit_inv.
    destruct v as [q|v i|]; simpl.
    + destruct (is_quantum q).
      * destruct (reset_loop _ _ _ self) as [[s|e] self1]; done.
      * destruct (reset_bit (PReg q) self) as [[g'|e] self1] eqn:Hr; [|done].
        intros [= -> ->]; by apply Hbit.
    + destruct (reset_bit (PTuple v i) self) as [[g'|e] self1] eqn:Hr; [|done].
      intros [= -> ->]; by apply Hbit.
    + destruct (reset_bit PNone self) as [[g'|e] self1] eqn:Hr; [|done].
      intros [= -> ->]; by apply Hbit.
  - intros (q&i&->&Hq&Hhq&Hi&->&->). unfold reset, bindM, retM.
    by rewrite reset_bit_Ok.
Qed.

(** X13: When [reset] raises it has attached nothing: the circuit is as it
    was. The error is "expected quantum register", an index out of range, a
    [TypeError] for a value that cannot be indexed, or, for a quantum register
    that the circuit does not have, "register not in this circuit". *)
Theorem reset_raises (v : PyVal) (self self' : QuantumCircuit) (e : QISKitError) :
  reset v self = (Err e, self') →
  self' = self
  ∧ (e = ExpectedQuantumRegister ∨ e = RegisterIndexOutOfRange ∨ e = PyTypeError
     ∨ ∃ q, (v = PReg q ∨ ∃ i, v = PTuple (PReg q) i) ∧ is_quantum q = true
            ∧ has_register self q = false
            ∧ e = RegisterNotInThisCircuit (reg_name q)).
Proof.
  assert (∀ v', (∀ q, v' ≠ PReg q ∨ v' = v) →
            reset_bit v' self = (Err e, self') →
            self' = self
            ∧ (e = ExpectedQuantumRegister ∨ e = RegisterIndexOutOfRange ∨ e = PyTypeError
               ∨ ∃ q, (v' = PReg q ∨ ∃ i, v' = PTuple (PReg q) i) ∧ is_quantum q = true
                      ∧ has_register self q = false
                      ∧ e = RegisterNotInThisCircuit (reg_name q))) as Hbit.
  { intros v' _ (->&[->|[->|[->|(q&i&->&?&?&->)]]])%reset_bit_Err; split; auto.
    right; right; right. exists q. split_and!; eauto. }
  unfold reset, bindM, retM. destruct v as [q|v i|].
  - destruct (is_quantum q) eqn:Hq.
    + destruct (reg_size q) as [|n] eqn:Hsize; [done|]. cbn [seq reset_loop]. unfold bindM.
      destruct (has_register self q) eqn:Hhq.
      * rewrite reset_bit_Ok by (done || lia).
        rewrite reset_loop_Ok; [done..|].
        apply Forall_forall. intros i Hi%elem_of_seq. lia.
      * destruct (reset_bit _ self) as [[g|e'] self1] eqn:Hr.
        { apply reset_bit_inv in Hr as (q'&i'&[= <- <-]&_&?&_). congruence. }
        intros [= <- <-].
        apply reset_bit_Err in Hr as (->&[->|[->|[->|(q'&i'&[= <- <-]&?&?&->)]]]);
          split; auto.
        right; right; right. exists q. split_and!; eauto.
    + destruct (reset_bit (PReg q) self) as [[g|e'] self1] eqn:Hr; [done|].
      intros [= <- <-]. apply Hbit in Hr; [done|]. intros; by right.
  - destruct (reset_bit (PTuple v i) self) as [[g|e'] self1] eqn:Hr; [done|].
    intros [= <- <-]. apply Hbit in Hr; [done|]. intros; by right.
  - destruct (reset_bit PNone self) as [[g|e'] self1] eqn:Hr; [done|].
    intros [= <- <-]. apply Hbit in Hr; [done|]. intros; by right.
Qed.

Lemma reset_raises_witness :
  reset (PReg ex_c3) ex_cq = (Err ExpectedQuantumRegister, ex_cq)
  ∧ (ex_cq = ex_cq
     ∧ (ExpectedQuantumRegister = ExpectedQuantumRegister
        ∨ ExpectedQuantumRegister = RegisterIndexOutOfRange
        ∨ ExpectedQuantumRegister = PyTypeError
        ∨ ∃ q, (PReg ex_c3 = PReg q ∨ ∃ i, PReg ex_c3 = PTuple (PReg q) i)
               ∧ is_quantum q = true
               ∧ has_register ex_cq q = false
               ∧ ExpectedQuantumRegister = RegisterNotInThisCircuit (reg_name q))).
Proof.
  split; [reflexivity|].
  apply (reset_raises (PReg ex_c3) ex_cq ex_cq ExpectedQuantumRegister). reflexivity.
Defined.

(** ** The circuits that the methods build are well formed *)

Lemma reset_bit_wf (v : PyVal) (self self' : QuantumCircuit) (r : Result Instruction) :
  wf_circuit self = true → reset_bit v self = (r, self') → wf_circuit self' = true.
Proof.
  intros Hwf Hr. destruct r as [g|e].
  - apply reset_bit_inv in Hr as (q&i&_&Hq&Hhq&Hi&->&->).
    apply wf_circuit_attach; [done|]. unfold wf_instruction, wf_operand. simpl.
    rewrite Hq, Hhq. simpl.
    rewrite (proj2 (Z.leb_le 0 i)), (proj2 (Z.ltb_lt i _)) by lia. done.
  - by apply reset_bit_Err in Hr as [-> _].
Qed.

Lemma reset_loop_wf (q : Register) (indices : list nat) (s : InstructionSet)
    (self self' : QuantumCircuit) (r : Result InstructionSet) :
  wf_circuit self = true → reset_loop q indices s self = (r, self') →
  wf_circuit self' = true.
Proof.
  revert s self. induction indices as [|i indices IH]; intros s self Hwf; simpl.
  - by intros [= _ <-].
  - unfold bindM.
    destruct (reset_bit _ self) as [[g|e] self1] eqn:Hr;
      apply reset_bit_wf in Hr; try done.
    + by apply IH.
    + by intros [= _ <-].
Qed.

Lemma reset_wf (v : PyVal) (self self' : QuantumCircuit) (r : Result RetVal) :
  wf_circuit self = true → reset v self = (r, self') → wf_circuit self' = true.
Proof.
  intros Hwf. unfold reset, bindM, retM.
  assert (∀ v', match reset_bit v' self with
                | (Ok a, self1) => (Ok (RInstr a), self1)
                | (Err e, self1) => (Err e, self1)
                end = (r, self') → wf_circuit self' = true) as Hbit.
  { intros v'. destruct (reset_bit v' self) as [[g|e] self1] eqn:Hr;
      apply reset_bit_wf in Hr; try done; by intros [= _ <-]. }
  destruct v as [q|v i|]; [|by apply Hbit..].
  destruct (is_quantum q); [|by apply Hbit].
  destruct (reset_loop _ _ _ self) as [[s|e] self1] eqn:Hr;
    apply reset_loop_wf in Hr; try done; by intros [= _ <-].
Qed.

(** X14: Every circuit that is made by the constructor followed by calls of
    [measure] and [reset], returning or raising, is well formed: the names of
    its registers are distinct and are their keys, and every instruction acts
    on bits in range of registers of the circuit, of the right kind. *)
Theorem built_wf (self : QuantumCircuit) : built self → wf_circuit self = true.
Proof.
  induction 1 as [rs self Hinit|qubit cbit self self' r _ IH Hm|v self self' r _ IH Hr].
  - by apply QuantumCircuit_init_wf in Hinit.
  - by apply measure_wf in Hm.
  - by apply reset_wf in Hr.
Qed.

Lemma built_wf_witness :
  built (snd (reset (PReg ex_q) ex_measured))
  ∧ wf_circuit (snd (reset (PReg ex_q) ex_measured)) = true.
Proof.
  assert (built (snd (reset (PReg ex_q) ex_measured))) as Hbuilt.
  { apply (built_reset (PReg ex_q) ex_measured _ (fst (reset (PReg ex_q) ex_measured)));
      [|reflexivity].
    apply (built_measure (PTuple (PReg ex_q) 0) (PTuple (PReg ex_c) 0)
             (mkQuantumCircuit [] [keyed ex_q; keyed ex_c]) _
             (Ok (RInstr (mkInstruction "measure" [] [(ex_q, 0%Z); (ex_c, 0%Z)] None))));
      [|reflexivity].
    apply (built_init [PReg ex_q; PReg ex_c]). reflexivity. }
  split; [exact Hbuilt|]. apply (built_wf _ Hbuilt).
Defined.

(** ** [combine], [extend] and the operators [+] and [+=] *)

Lemma combine_Ok (h : Heap) (self rhs : nat) (c1 c2 : QuantumCircuit) :
  h !! self = Some c1 → h !! rhs = Some c2 →
  wf_regs (regs c1) = true → resolves c1 = true →
  wf_regs (regs c2) = true → resolves c2 = true →
  forallb (has_register c1) (dict_values (regs c2)) = true →
  combine self rhs h =
  (Ok (length h), h ++ [mkQuantumCircuit (data c1 ++ data c2) (regs c1)]).
Proof.
  intros Hself Hrhs Hwf1 Hres1 Hwf2 Hres2 Hall.
  unfold combine. rewrite Hself, Hrhs, Hall, QuantumCircuit_init_regs by done.
  rewrite (replay_Ok _ _ _ (mkQuantumCircuit [] (regs c1))); [| |done|].
  - simpl. by rewrite insert_app_r_alt, Nat.sub_diag by done.
  - by rewrite lookup_app_r, Nat.sub_diag by done.
  - rewrite forallb_app. apply andb_true_iff. split; [done|].
    by apply resolves_transfer.
Qed.

Lemma extend_Ok (fuel self rhs : nat) (h : Heap) (c1 c2 : QuantumCircuit) :
  self ≠ rhs → h !! self = Some c1 → h !! rhs = Some c2 →
  wf_regs (regs c1) = true → wf_regs (regs c2) = true → resolves c2 = true →
  forallb (has_register c1) (dict_values (regs c2)) = true →
  length (data c2) < fuel →
  extend fuel self rhs h =
  Some (Ok self, <[self := mkQuantumCircuit (data c1 ++ data c2) (regs c1)]> h).
Proof.
  intros Hne Hself Hrhs Hwf1 Hwf2 Hres2 Hall Hfuel.
  unfold extend. rewrite Hself, Hrhs, Hall.
  rewrite (extend_loop_Ok fuel 0 self rhs h c1 c2); [done..| |lia].
  rewrite drop_0. by apply resolves_transfer.
Qed.

(** The circuit that [combine] makes resolves its bit references. *)
Lemma resolves_app (c1 c2 : QuantumCircuit) :
  wf_regs (regs c2) = true → resolves c1 = true → resolves c2 = true →
  forallb (has_register c1) (dict_values (regs c2)) = true →
  resolves (mkQuantumCircuit (data c1 ++ data c2) (regs c1)) = true.
Proof.
  intros Hwf2 Hres1 Hres2 Hall. unfold resolves. simpl. rewrite forallb_app.
  apply andb_true_iff. split; [done|]. by apply resolves_transfer.
Qed.

Lemma has_register_self (c : QuantumCircuit) :
  wf_regs (regs c) = true → forallb (has_register c) (dict_values (regs c)) = true.
Proof.
  intros Hwf. apply forallb_forall. intros r Hr%list_elem_of_In.
  by apply has_register_elem.
Qed.

(** A register test that holds for [c1] on the registers of [c2], and for
    [c2] on those of [c3], holds for [c1] on those of [c3]. *)
Lemma has_register_trans (c1 c2 c3 : QuantumCircuit) :
  wf_regs (regs c2) = true →
  forallb (has_register c1) (dict_values (regs c2)) = true →
  forallb (has_register c2) (dict_values (regs c3)) = true →
  forallb (has_register c1) (dict_values (regs c3)) = true.
Proof.
  intros Hwf H12 H23. apply forallb_forall. intros r Hr.
  rewrite forallb_forall in H12, H23. apply H12, list_elem_of_In.
  apply has_register_elem; [done|]. by apply H23.
Qed.

(** X15: [extend] on two different circuit objects, when every register of
    [rhs] is a register of [self]: the loop ends after [len(rhs)] steps, the
    instructions of [rhs] are at the end of [self], in their order, [self] is
    what is returned, and no other circuit has changed, [rhs] among them. *)
Theorem extend_appends (fuel self rhs : nat) (h : Heap) (c1 c2 : QuantumCircuit) :
  self ≠ rhs → h !! self = Some c1 → h !! rhs = Some c2 →
  wf_regs (regs c1) = true → wf_regs (regs c2) = true → resolves c2 = true →
  forallb (has_register c1) (dict_values (regs c2)) = true →
  len c2 < fuel →
  ∃ h', extend fuel self rhs h = Some (Ok self, h')
        ∧ h' !! self = Some (mkQuantumCircuit (data c1 ++ data c2) (regs c1))
        ∧ length h' = length h
        ∧ ∀ other, other ≠ self → h' !! other = h !! other.
Proof.
  intros Hne Hself Hrhs Hwf1 Hwf2 Hres2 Hall Hfuel.
  eexists. split; [by apply (extend_Ok fuel self rhs h c1 c2)|].
  split_and!.
  - apply list_lookup_insert_eq. by apply lookup_lt_Some in Hself.
  - by rewrite length_insert.
  - intros other Hother. by rewrite list_lookup_insert_ne.
Qed.

Lemma extend_appends_witness :
  (0 ≠ 1 ∧ [ex_chain; ex_measured] !! 0 = Some ex_chain
   ∧ [ex_chain; ex_measured] !! 1 = Some ex_measured
   ∧ wf_regs (regs ex_chain) = true ∧ wf_regs (regs ex_measured) = true
   ∧ resolves ex_measured = true
   ∧ forallb (has_register ex_chain) (dict_values (regs ex_measured)) = true
   ∧ len ex_measured < 2)
  ∧ ∃ h', extend 2 0 1 [ex_chain; ex_measured] = Some (Ok 0, h')
          ∧ h' !! 0 = Some (mkQuantumCircuit (data ex_chain ++ data ex_measured)
                              (regs ex_chain))
          ∧ length h' = length [ex_chain; ex_measured]
          ∧ ∀ other, other ≠ 0 → h' !! other = [ex_chain; ex_measured] !! other.
Proof.
  split; [split_and!; (reflexivity || lia || (unfold len; simpl; lia))|].
  apply (extend_appends 2 0 1 [ex_chain; ex_measured] ex_chain ex_measured);
    (reflexivity || lia || (unfold len; simpl; lia)).
Defined.

Lemma extend_loop_self (fuel i self : nat) (h : Heap) (c : QuantumCircuit) :
  h !! self = Some c → wf_regs (regs c) = true → resolves c = true →
  i < length (data c) →
  extend_loop fuel i self self h = None.
Proof.
  revert i h c. induction fuel as [|fuel IH]; intros i h c Hself Hwf Hres Hi; [done|].
  cbn [extend_loop]. rewrite Hself.
  destruct (lookup_lt_is_Some_2 (data c) i Hi) as [gate Hgate]. rewrite Hgate.
  assert (forallb (λ b, has_register c (fst b)) (arg gate) = true) as Hargs.
  { unfold resolves in Hres. rewrite forallb_forall in Hres.
    by apply Hres, list_elem_of_In, list_elem_of_lookup_2 with i. }
  unfold reapply_at. rewrite Hself, reapply_Ok by done.
  apply (IH _ _ (mkQuantumCircuit (data c ++ [gate]) (regs c))).
  - apply list_lookup_insert_eq. by apply lookup_lt_Some in Hself.
  - done.
  - unfold resolves. simpl. rewrite forallb_app. simpl.
    apply andb_true_iff. split; [exact Hres|].
    apply andb_true_iff. split; [exact Hargs|done].
  - simpl. rewrite length_app. simpl. lia.
Qed.

(** X16: [extend] of a circuit with itself, [c.extend(c)] or [c += c], never
    returns when [c] holds at least one instruction: the loop reads the list
    that it appends to, and no number of steps ends it. On a circuit without
    instructions it returns at once and changes nothing. *)
Theorem extend_self_diverges (self : nat) (h : Heap) (c : QuantumCircuit) :
  h !! self = Some c → wf_regs (regs c) = true → resolves c = true →
  (0 < len c → ∀ fuel, QuantumCircuit_iadd fuel self self h = None)
  ∧ (len c = 0 → ∀ fuel, QuantumCircuit_iadd (S fuel) self self h = Some (Ok self, h)).
Proof.
  intros Hself Hwf Hres. unfold QuantumCircuit_iadd, extend, len.
  rewrite Hself, has_register_self by done. split.
  - intros Hlen fuel. by rewrite (extend_loop_self fuel 0 self h c).
  - intros Hlen fuel. cbn [extend_loop]. rewrite Hself.
    destruct (data c) as [|g gs]; [done|]. simpl in Hlen. lia.
Qed.

Lemma extend_self_diverges_witness :
  ([ex_measured] !! 0 = Some ex_measured ∧ wf_regs (regs ex_measured) = true
   ∧ resolves ex_measured = true)
  ∧ (0 < len ex_measured → ∀ fuel, QuantumCircuit_iadd fuel 0 0 [ex_measured] = None)
  ∧ (len ex_measured = 0 →
     ∀ fuel, QuantumCircuit_iadd (S fuel) 0 0 [ex_measured] = Some (Ok 0, [ex_measured])).
Proof.
  split; [by split_and!|].
  apply (extend_self_diverges 0 [ex_measured] ex_measured); reflexivity.
Defined.

(** X17: [c1 + c2] makes a new circuit that is exactly what [c1 += c2] turns
    [c1] into: the same registers and the same instructions. *)
Theorem add_iadd_agree (fuel self rhs : nat) (h : Heap) (c1 c2 : QuantumCircuit) :
  self ≠ rhs → h !! self = Some c1 → h !! rhs = Some c2 →
  wf_regs (regs c1) = true → resolves c1 = true →
  wf_regs (regs c2) = true → resolves c2 = true →
  forallb (has_register c1) (dict_values (regs c2)) = true →
  len c2 < fuel →
  ∃ new h1 h2,
    QuantumCircuit_add self rhs h = (Ok new, h1)
    ∧ QuantumCircuit_iadd fuel self rhs h = Some (Ok self, h2)
    ∧ is_Some (h1 !! new)
    ∧ h1 !! new = h2 !! self
    ∧ h1 !! self = Some c1.
Proof.
  intros Hne Hself Hrhs Hwf1 Hres1 Hwf2 Hres2 Hall Hfuel.
  unfold QuantumCircuit_add, QuantumCircuit_iadd.
  rewrite (combine_Ok h self rhs c1 c2), (extend_Ok fuel self rhs h c1 c2) by done.
  eexists _, _, _. split_and!; [done|done|..].
  - rewrite lookup_app_r, Nat.sub_diag by done. by eexists.
  - rewrite lookup_app_r, Nat.sub_diag by done. simpl.
    symmetry. apply list_lookup_insert_eq. by apply lookup_lt_Some in Hself.
  - by apply lookup_app_l_Some.
Qed.

Lemma add_iadd_agree_witness :
  (0 ≠ 1 ∧ [ex_chain; ex_measured] !! 0 = Some ex_chain
   ∧ [ex_chain; ex_measured] !! 1 = Some ex_measured
   ∧ wf_regs (regs ex_chain) = true ∧ resolves ex_chain = true
   ∧ wf_regs (regs ex_measured) = true ∧ resolves ex_measured = true
   ∧ forallb (has_register ex_chain) (dict_values (regs ex_measured)) = true
   ∧ len ex_measured < 2)
  ∧ ∃ new h1 h2,
      QuantumCircuit_add 0 1 [ex_chain; ex_measured] = (Ok new, h1)
      ∧ QuantumCircuit_iadd 2 0 1 [ex_chain; ex_measured] = Some (Ok 0, h2)
      ∧ is_Some (h1 !! new)
      ∧ h1 !! new = h2 !! 0
      ∧ h1 !! 0 = Some ex_chain.
Proof.
  split; [split_and!; (reflexivity || lia || (unfold len; simpl; lia))|].
  apply (add_iadd_agree 2 0 1 [ex_chain; ex_measured] ex_chain ex_measured);
    (reflexivity || lia || (unfold len; simpl; lia)).
Defined.

(** X18: [+] is associative: [(a + b) + c] and [a + (b + c)] are both defined
    when [a] has the registers of [b] and [b] has those of [c], and they are
    circuits with the same registers and the same instructions, those of [a],
    [b] and [c] in this order. *)
Theorem combine_assoc (h : Heap) (a b c : nat) (ca cb cc : QuantumCircuit) :
  h !! a = Some ca → h !! b = Some cb → h !! c = Some cc →
  wf_regs (regs ca) = true → resolves ca = true →
  wf_regs (regs cb) = true → resolves cb = true →
  wf_regs (regs cc) = true → resolves cc = true →
  forallb (has_register ca) (dict_values (regs cb)) = true →
  forallb (has_register cb) (dict_values (regs cc)) = true →
  ∃ ab h1 l h2 bc h3 r h4,
    QuantumCircuit_add a b h = (Ok ab, h1)
    ∧ QuantumCircuit_add ab c h1 = (Ok l, h2)
    ∧ QuantumCircuit_add b c h = (Ok bc, h3)
    ∧ QuantumCircuit_add a bc h3 = (Ok r, h4)
    ∧ h2 !! l = Some (mkQuantumCircuit (data ca ++ data cb ++ data cc) (regs ca))
    ∧ h4 !! r = h2 !! l.
Proof.
  intros Ha Hb Hc Hwfa Hresa Hwfb Hresb Hwfc Hresc Hab Hbc.
  pose proof (has_register_trans ca cb cc Hwfb Hab Hbc) as Hac.
  unfold QuantumCircuit_add.
  set (cab := mkQuantumCircuit (data ca ++ data cb) (regs ca)).
  set (cbc := mkQuantumCircuit (data cb ++ data cc) (regs cb)).
  exists (length h), (h ++ [cab]), (length (h ++ [cab])),
    ((h ++ [cab]) ++ [mkQuantumCircuit (data cab ++ data cc) (regs cab)]),
    (length h), (h ++ [cbc]), (length (h ++ [cbc])),
    ((h ++ [cbc]) ++ [mkQuantumCircuit (data ca ++ data cbc) (regs ca)]).
  split_and!.
  - by apply combine_Ok.
  - apply combine_Ok; try done.
    + by rewrite lookup_app_r, Nat.sub_diag.
    + by apply lookup_app_l_Some.
    + by apply resolves_app.
  - by apply combine_Ok.
  - apply combine_Ok; try done.
    + by apply lookup_app_l_Some.
    + by rewrite lookup_app_r, Nat.sub_diag.
    + by apply resolves_app.
  - rewrite lookup_app_r, Nat.sub_diag by done. simpl. by rewrite <- app_assoc.
  - rewrite !(lookup_app_r _ [_]), !Nat.sub_diag by done. simpl. by rewrite <- app_assoc.
Qed.

Lemma combine_assoc_witness :
  ([ex_chain; ex_measured; ex_cq] !! 0 = Some ex_chain
   ∧ [ex_chain; ex_measured; ex_cq] !! 1 = Some ex_measured
   ∧ [ex_chain; ex_measured; ex_cq] !! 2 = Some ex_cq
   ∧ wf_regs (regs ex_chain) = true ∧ resolves ex_chain = true
   ∧ wf_regs (regs ex_measured) = true ∧ resolves ex_measured = true
   ∧ wf_regs (regs ex_cq) = true ∧ resolves ex_cq = true
   ∧ forallb (has_register ex_chain) (dict_values (regs ex_measured)) = true
   ∧ forallb (has_register ex_measured) (dict_values (regs ex_cq)) = true)
  ∧ ∃ ab h1 l h2 bc h3 r h4,
      QuantumCircuit_add 0 1 [ex_chain; ex_measured; ex_cq] = (Ok ab, h1)
      ∧ QuantumCircuit_add ab 2 h1 = (Ok l, h2)
      ∧ QuantumCircuit_add 1 2 [ex_chain; ex_measured; ex_cq] = (Ok bc, h3)
      ∧ QuantumCircuit_add 0 bc h3 = (Ok r, h4)
      ∧ h2 !! l = Some (mkQuantumCircuit
                          (data ex_chain ++ data ex_measured ++ data ex_cq)
                          (regs ex_chain))
      ∧ h4 !! r = h2 !! l.
Proof.
  split; [by split_and!|].
  apply (combine_assoc [ex_chain; ex_measured; ex_cq] 0 1 2 ex_chain ex_measured ex_cq);
    reflexivity.
Defined.

(** ** [qasm] *)

Lemma string_app_cons (a : Ascii.ascii) (s1 s2 : string) :
  (String a s1 ++ s2)%string = String a (s1 ++ s2)%string.
Proof. reflexivity. Qed.

Lemma string_app_assoc (s1 s2 s3 : string) :
  ((s1 ++ s2) ++ s3 = s1 ++ (s2 ++ s3))%string.
Proof. induction s1 as [|a s1 IH]; [done|]. by rewrite !string_app_cons, IH. Qed.

Lemma string_app_nil_r (s : string) : (s ++ EmptyString)%string = s.
Proof. induction s as [|a s IH]; [done|]. by rewrite string_app_cons, IH. Qed.

Lemma text_lines_cons {A : Type} (f : A → string) (x : A) (l : list A) :
  text_lines f (x :: l) = ((f x ++ newline) ++ text_lines f l)%string.
Proof.
  unfold text_lines. simpl. destruct (map _ l) eqn:Hl; simpl; [|done].
  by rewrite string_app_nil_r.
Qed.

Lemma text_lines_app {A : Type} (f : A → string) (l1 l2 : list A) :
  text_lines f (l1 ++ l2) = (text_lines f l1 ++ text_lines f l2)%string.
Proof.
  induction l1 as [|x l1 IH]; [reflexivity|].
  rewrite <- app_comm_cons, !text_lines_cons, IH. by rewrite !string_app_assoc.
Qed.

Lemma fold_left_lines {A : Type} (f : A → string) (l : list A) (s : string) :
  fold_left (λ s x, (s ++ (f x ++ newline))%string) l s = (s ++ text_lines f l)%string.
Proof.
  revert s. induction l as [|x l IH]; intros s; simpl.
  - by rewrite string_app_nil_r.
  - by rewrite IH, text_lines_cons, !string_app_assoc.
Qed.

(** X19: The text of a circuit is the header line, then one line for every
    register in the order of the register map, then one line for every
    instruction in the order of the program. So an instruction that is
    attached adds its line at the end of the text and changes nothing before
    it. *)
Theorem qasm_text (Register_qasm : Register → string)
    (Instruction_qasm : Instruction → string) (self : QuantumCircuit) :
  qasm Register_qasm Instruction_qasm self
  = ((header ++ newline) ++ text_lines Register_qasm (dict_values (regs self))
     ++ text_lines Instruction_qasm (data self))%string
  ∧ ∀ gate r self', _attach gate self = (r, self') →
      qasm Register_qasm Instruction_qasm self'
      = (qasm Register_qasm Instruction_qasm self
         ++ (Instruction_qasm gate ++ newline))%string.
Proof.
  assert (∀ c, qasm Register_qasm Instruction_qasm c
               = ((header ++ newline) ++ text_lines Register_qasm (dict_values (regs c))
                  ++ text_lines Instruction_qasm (data c))%string) as Hqasm.
  { intros c. unfold qasm. cbv zeta. by rewrite !fold_left_lines, !string_app_assoc. }
  split; [done|]. intros gate r self'. unfold _attach. intros [= _ <-].
  rewrite !Hqasm. simpl. rewrite text_lines_app, text_lines_cons.
  unfold text_lines at 4. simpl. rewrite string_app_nil_r.
  by rewrite !string_app_assoc.
Qed.

(** ** [dag_to_circuit] on any DAG *)

Lemma lookup_bits_declared (rs : OrderedDict Register) (bs : list Bit) :
  (∃ bs', lookup_bits rs bs = Ok bs') ↔ bits_declared rs bs.
Proof.
  unfold bits_declared. induction bs as [|b bs IH]; simpl.
  - split; [constructor | by eexists].
  - rewrite Forall_cons, <- IH. clear IH. unfold Register_getitem.
    destruct (dict_get rs (reg_name (fst b))) as [r|]; simpl.
    + destruct (check_range r (snd b)) as [[]|] eqn:Hr; simpl.
      * apply check_range_inv in Hr.
        destruct (lookup_bits rs bs) as [bs'|]; simpl.
        -- split; [intros _; split; by eexists | by eexists].
        -- split; [by intros [? ?] | by intros [_ [? ?]]].
      * split; [by intros [? ?]|]. intros [(r'&[= <-]&Hin) _].
        by rewrite check_range_Ok in Hr.
    + split; [by intros [? ?] | by intros [(?&?&_) _]].
Qed.

Lemma dag_to_circuit_loop_returns (d : DAGCircuit) (qregs' cregs' : OrderedDict Register)
    (order : list nat) (circ circ' : QuantumCircuit) :
  dag_to_circuit_loop d qregs' cregs' order circ = (Ok tt, circ') ↔
  Forall (λ n, n < length (nodes d)) order
  ∧ Forall (λ op, bits_declared qregs' (op_qargs op) ∧ bits_declared cregs' (op_cargs op))
      (ops_at d order)
  ∧ circ' = mkQuantumCircuit (data circ ++ map instruction_of (ops_at d order)) (regs circ).
Proof.
  revert circ. induction order as [|n order IH]; intros circ.
  - simpl. unfold retM. rewrite app_nil_r. split.
    + intros [= <-]. split_and!; [constructor..|by destruct circ].
    + intros (_&_&->). by destruct circ.
  - cbn [dag_to_circuit_loop]. rewrite ops_at_cons, Forall_cons.
    unfold bindM, dag_to_circuit_node.
    destruct (nodes d !! n) as [x|] eqn:Hn.
    + apply lookup_lt_Some in Hn as Hlt.
      destruct x as [w|w|op]; simpl.
      * rewrite IH. tauto.
      * rewrite IH. tauto.
      * rewrite Forall_cons, <- !lookup_bits_declared.
        unfold bindM, liftR, _attach, retM.
        destruct (lookup_bits qregs' (op_qargs op)) as [qs|]; simpl.
        -- destruct (lookup_bits cregs' (op_cargs op)) as [cs|]; simpl.
           ++ rewrite IH. simpl. rewrite <- app_assoc. simpl.
              split; [intros (?&?&->); split_and!; eauto | intros ((_&?)&(_&?)&->); done].
           ++ split; [done | by intros (_&((_&[? ?])&_)&_)].
        -- split; [done | by intros (_&(([? ?]&_)&_)&_)].
    + apply lookup_ge_None in Hn. simpl. unfold raise.
      split; [done | intros ((?&_)&_); lia].
Qed.

(** X20: [dag_to_circuit] returns exactly when the constructor accepts the new
    registers, every number of the order is a node of the DAG, and every
    operand of an operation that is met names a register of its group with an
    index in range. The circuit then holds one instruction for every operation
    node met, in the order in which they are met, and nothing for the terminal
    nodes. *)
Theorem dag_to_circuit_returns (d : DAGCircuit) (order : list nat)
    (circuit : QuantumCircuit) :
  dag_to_circuit d order = Ok circuit ↔
  ∃ c0, QuantumCircuit_init
          (map PReg (dict_values (fresh_registers QuantumRegister (qregs d)))
           ++ map PReg (dict_values (fresh_registers ClassicalRegister (cregs d))))
        = Ok c0
        ∧ Forall (λ n, n < length (nodes d)) order
        ∧ Forall (λ op,
                    bits_declared (fresh_registers QuantumRegister (qregs d)) (op_qargs op)
                    ∧ bits_declared (fresh_registers ClassicalRegister (cregs d))
                        (op_cargs op))
            (ops_at d order)
        ∧ circuit = mkQuantumCircuit (map instruction_of (ops_at d order)) (regs c0).
Proof.
  unfold dag_to_circuit. cbv zeta.
  destruct (QuantumCircuit_init _) as [c0|e] eqn:Hinit; simpl.
  - assert (data c0 = []) as Hdata.
    { unfold QuantumCircuit_init in Hinit.
      destruct (add _ _) as [[[]|?] c] eqn:Hadd; [|done]. injection Hinit as ->.
      by apply add_Ok_registers in Hadd as (_&_&_&?). }
    destruct (dag_to_circuit_loop _ _ _ _ c0) as [[[]|e] c1] eqn:Hloop.
    + apply dag_to_circuit_loop_returns in Hloop as (Hn&Hops&->). rewrite Hdata. simpl.
      split; [intros [= <-]; by exists c0 | by intros (?&[= <-]&_&_&->)].
    + split; [done|]. intros (c&[= <-]&Hn&Hops&_).
      assert (dag_to_circuit_loop d (fresh_registers QuantumRegister (qregs d))
                (fresh_registers ClassicalRegister (cregs d)) order c0
              = (Ok tt, mkQuantumCircuit (data c0 ++ map instruction_of (ops_at d order))
                          (regs c0))) as Hok by (by apply dag_to_circuit_loop_returns).
      congruence.
  - split; [done | by intros (?&?&_)].
Qed.

(** ** Registers of a DAG under one name *)

Lemma dict_in_set {V : Type} (d : OrderedDict V) (k k' : string) (v : V) :
  dict_in (dict_set d k v) k' = dict_in d k' || String.eqb k k'.
Proof.
  unfold dict_in. induction d as [|[k0 v0] d IH]; simpl.
  - by destruct (String.eqb k k').
  - destruct (String.eqb_spec k0 k) as [->|Hne]; simpl.
    + destruct (String.eqb_spec k k'); simpl; [done|]. by rewrite orb_false_r.
    + destruct (String.eqb_spec k0 k'); simpl; [done|]. apply IH.
Qed.

Lemma dict_set_named (d : OrderedDict Register) (r : Register) :
  Forall (λ kv, reg_name (snd kv) = fst kv) d →
  Forall (λ kv, reg_name (snd kv) = fst kv) (dict_set d (reg_name r) r).
Proof.
  induction 1 as [|[k0 v0] d Hkv Hd IH]; simpl.
  - by repeat constructor.
  - destruct (String.eqb_spec k0 (reg_name r)) as [->|Hne]; by constructor.
Qed.

Lemma fresh_registers_names (mk : nat → string → Register) (rs : OrderedDict Register)
    (r : Register) :
  (∀ s n, reg_name (mk s n) = n) →
  r ∈ dict_values rs →
  reg_name r ∈ map reg_name (dict_values (fresh_registers mk rs)).
Proof.
  intros Hmk Hr. unfold fresh_registers.
  assert (∀ (l : list Register) (acc : OrderedDict Register),
    Forall (λ kv, reg_name (snd kv) = fst kv) acc →
    let res := fold_left (λ acc r, dict_set acc (reg_name r) (mk (reg_size r) (reg_name r)))
                 l acc in
    Forall (λ kv, reg_name (snd kv) = fst kv) res
    ∧ ∀ k, (k ∈ map reg_name l ∨ dict_in acc k = true) → dict_in res k = true) as H.
  { induction l as [|r0 l IH]; intros acc Hacc; simpl.
    - split; [done|]. intros k [Hk|Hk]; [by apply elem_of_nil in Hk | done].
    - destruct (IH (dict_set acc (reg_name r0) (mk (reg_size r0) (reg_name r0)))) as [H1 H2].
      { rewrite <- (Hmk (reg_size r0) (reg_name r0)) at 1. by apply dict_set_named. }
      split; [done|]. intros k Hk. apply H2.
      destruct Hk as [[->|Hk]%elem_of_cons|Hk]; [right|by left|right].
      + by rewrite dict_in_set, String.eqb_refl, orb_true_r.
      + by rewrite dict_in_set, Hk. }
  destruct (H (dict_values rs) []) as [Hnamed Hin]; [constructor|]. simpl in *.
  specialize (Hin (reg_name r)).
  set (res := fold_left _ _ _) in *.
  assert (reg_name r ∈ map reg_name (dict_values rs)) as Hname by (by apply list_elem_of_fmap_2).
  specialize (Hin (or_introl Hname)).
  apply dict_in_spec in Hin as [r' Hget]. apply dict_get_elem in Hget.
  rewrite Forall_forall in Hnamed. specialize (Hnamed _ Hget). simpl in Hnamed.
  rewrite <- Hnamed. apply list_elem_of_fmap_2.
  by apply (list_elem_of_fmap_2 snd) in Hget.
Qed.

(** The constructor refuses registers of which two have the same name. *)
Lemma QuantumCircuit_init_duplicate (l : list Register) :
  ¬ NoDup (map reg_name l) →
  ∃ n, n ∈ map reg_name l
       ∧ QuantumCircuit_init (map PReg l) = Err (RegisterNameAlreadyExists n).
Proof.
  intros Hnd. unfold QuantumCircuit_init.
  destruct (add (map PReg l) (mkQuantumCircuit [] [])) as [[[]|e] self] eqn:Hadd.
  - exfalso. apply Hnd.
    assert (wf_regs (regs self) = true) as Hwf by (by apply add_wf_regs in Hadd).
    apply add_Ok in Hadd as [Hregs _]. simpl in Hregs. rewrite Hregs in Hwf.
    apply wf_regs_names in Hwf. by rewrite keyed_dict_values in Hwf.
  - apply add_Err in Hadd as (pre&v&post&Heq&_&Href).
    assert (v ∈ map PReg l) as (r&->&Hr)%list_elem_of_fmap.
    { rewrite Heq. apply elem_of_app. right. apply elem_of_cons. by left. }
    simpl in Href. destruct (dict_in (regs self) (reg_name r)); [|done].
    injection Href as <-. exists (reg_name r). split; [|done].
    by apply list_elem_of_fmap_2.
Qed.

(** X21: A DAG that holds a quantum and a classical register under one name
    cannot be turned into a circuit: the constructor of line 35 raises
    "register name already exists", whatever the nodes and the order are. *)
Theorem dag_to_circuit_duplicate_name (d : DAGCircuit) (order : list nat)
    (rq rc : Register) :
  rq ∈ dict_values (qregs d) → rc ∈ dict_values (cregs d) →
  reg_name rq = reg_name rc →
  ∃ n, dag_to_circuit d order = Err (RegisterNameAlreadyExists n)
       ∧ error_kind (RegisterNameAlreadyExists n) = DuplicateRegisterNameError.
Proof.
  intros Hq Hc Hname. unfold dag_to_circuit. cbv zeta. rewrite <- map_app.
  destruct (QuantumCircuit_init_duplicate
              (dict_values (fresh_registers QuantumRegister (qregs d))
               ++ dict_values (fresh_registers ClassicalRegister (cregs d))))
    as (n&_&->); [|by exists n].
  rewrite map_app. intros (_&Hdisj&_)%NoDup_app.
  apply (Hdisj (reg_name rq)).
  - by apply fresh_registers_names.
  - rewrite Hname. by apply fresh_registers_names.
Qed.

Lemma dag_to_circuit_duplicate_name_witness :
  (ex_q ∈ dict_values [keyed ex_q]
   ∧ mkRegister "q" 1 Classical ∈ dict_values [keyed (mkRegister "q" 1 Classical)]
   ∧ reg_name ex_q = reg_name (mkRegister "q" 1 Classical))
  ∧ ∃ n, dag_to_circuit
           (mkDAGCircuit [keyed ex_q] [keyed (mkRegister "q" 1 Classical)] ∅ ∅ [] [] ∅ ∅) []
         = Err (RegisterNameAlreadyExists n)
         ∧ error_kind (RegisterNameAlreadyExists n) = DuplicateRegisterNameError.
Proof.
  split; [split_and!; [apply list_elem_of_here..|reflexivity]|].
  apply (dag_to_circuit_duplicate_name
           (mkDAGCircuit [keyed ex_q] [keyed (mkRegister "q" 1 Classical)] ∅ ∅ [] [] ∅ ∅)
           [] ex_q (mkRegister "q" 1 Classical));
    [apply list_elem_of_here..|reflexivity].
Defined.

(** ** The round trip of any well-formed circuit *)

(** The loop over the instructions of a well-formed circuit puts an edge
    between two instructions that act on one bit when no instruction between
    them acts on it. *)
Lemma dag_instructions_edges (self : QuantumCircuit) (gs : list Instruction) (d : DAGCircuit) :
  wf_regs (regs self) = true → regs_match self d →
  forallb (wf_instruction self) gs = true →
  basis_ok (basis d) → wires_declared d →
  ∃ d', foldR dag_instruction gs d = Ok d'
        ∧ (∀ e, e ∈ edges d → e ∈ edges d')
        ∧ (∀ w n k g, last_writer d !! w = Some n →
             gs !! k = Some g → touches g w = true →
             (∀ k' g', k' < k → gs !! k' = Some g' → touches g' w = false) →
             (n, length (nodes d) + k) ∈ edges d')
        ∧ (∀ w i j gi gj, i < j →
             gs !! i = Some gi → gs !! j = Some gj →
             touches gi w = true → touches gj w = true →
             (∀ k' g', i < k' < j → gs !! k' = Some g' → touches g' w = false) →
             (length (nodes d) + i, length (nodes d) + j) ∈ edges d').
Proof.
  intros Hwf. revert d.
  induction gs as [|g gs IH]; intros d Hmatch Hgs Hok Hdecl.
  - exists d. simpl. by split_and!.
  - simpl in Hgs. apply andb_true_iff in Hgs as [Hg Hgs].
    destruct (dag_instruction_Ok self g d Hwf Hmatch Hg Hok Hdecl) as (writers&Hwriters&Hstep).
    set (d1 := mkDAGCircuit _ _ _ _ _ _ _ _) in Hstep.
    assert (wires_declared d1) as Hdecl1.
    { intros r j Hr Hj. simpl. rewrite lookup_fold_insert.
      destruct (bool_decide _); [by eexists | by apply Hdecl]. }
    destruct (IH d1 Hmatch Hgs (basis_ok_after g _ Hok) Hdecl1) as (d'&Hfold&Hmono&Hfirst&Hnext).
    assert (length (nodes d1) = S (length (nodes d))) as Hlen.
    { simpl. rewrite length_app. simpl. lia. }
    assert (∀ w, last_writer d1 !! w =
                 if touches g w then Some (length (nodes d)) else last_writer d !! w) as Hlw.
    { intros w. simpl. by rewrite lookup_fold_insert. }
    exists d'. simpl. rewrite Hstep. simpl. split; [done|]. split_and!.
    + intros e He. apply Hmono. simpl. apply elem_of_app. by left.
    + intros w n [|k] g0 Hn Hk Ht Hbefore; simpl in Hk.
      * injection Hk as <-. rewrite Nat.add_0_r. apply Hmono. simpl.
        apply elem_of_app. right. apply list_elem_of_fmap. exists n. split; [done|].
        apply (last_writers_complete _ _ _ w n Hwriters); [|done].
        by apply bool_decide_eq_true in Ht.
      * replace (length (nodes d) + S k) with (length (nodes d1) + k) by lia.
        apply (Hfirst w n k g0); [|done..|].
        -- rewrite Hlw, (Hbefore 0 g); [done|lia|done].
        -- intros k' g' Hk' Hg'. apply (Hbefore (S k') g'); [lia|done].
    + intros w [|i] [|j] gi gj Hij Hi Hj Hti Htj Hbetween; simpl in Hi, Hj; try lia.
      * injection Hi as <-. rewrite Nat.add_0_r.
        replace (length (nodes d) + S j) with (length (nodes d1) + j) by lia.
        apply (Hfirst w (length (nodes d)) j gj); [|done..|].
        -- by rewrite Hlw, Hti.
        -- intros k' g' Hk' Hg'. apply (Hbetween (S k') g'); [lia|done].
      * replace (length (nodes d) + S i) with (length (nodes d1) + i) by lia.
        replace (length (nodes d) + S j) with (length (nodes d1) + j) by lia.
        apply (Hnext w i j gi gj); [lia|done..|].
        intros k' g' Hk' Hg'. apply (Hbetween (S k') g'); [lia|done].
Qed.

(** The DAG of a well-formed circuit: the operation nodes follow the
    terminals in the order of the program, and two instructions that act on
    one bit with no instruction between them acting on it are joined by an
    edge. *)
Lemma dag_shared_edges (definitions : gmap string GateData) (self : QuantumCircuit)
    (d : DAGCircuit) :
  wf_circuit self = true → compatible_definitions definitions = true →
  dag definitions self = Ok d →
  ∃ ts,
    nodes d = ts ++ map NodeOp (map dag_op_of (data self))
    ∧ Forall (λ x, as_op x = None) ts
    ∧ ∀ w i j gi gj, i < j →
        data self !! i = Some gi → data self !! j = Some gj →
        touches gi w = true → touches gj w = true →
        (∀ k' g', i < k' < j → data self !! k' = Some g' → touches g' w = false) →
        (length ts + i, length ts + j) ∈ edges d.
Proof.
  intros Hwfc Hdefs Hdag.
  destruct (dag_Ok definitions self Hwfc Hdefs) as (d0&ts&Hd0&_&Hn&Hts&_).
  assert (d0 = d) as -> by congruence. clear Hd0.
  apply wf_circuit_spec in Hwfc as [Hwf Hdata]. unfold dag in Hdag.
  destruct (dag_registers_Ok (dict_values (regs self)) DAGCircuit_init [] [])
    as (d1&Hd1&Hq1&Hc1&Hb1&Hg1&He1&(ts1&Hn1&Hts1)&Hinv1&Hdecl1); [done..| | | |].
  { by apply wf_regs_names. }
  { apply dag_inv_init. }
  { intros r j Hr. by apply elem_of_nil in Hr. }
  rewrite Hd1 in Hdag. simpl in *.
  destruct (dag_definitions_Ok (map_to_list definitions) d1) as (B&G&Hd2&HB).
  { apply NoDup_fst_map_to_list. }
  { intros k _. by rewrite Hb1. }
  rewrite Hd2 in Hdag. simpl in Hdag.
  assert (B = arity_of <$> definitions) as ->.
  { apply map_eq. intros k. rewrite HB, list_to_map_to_list, lookup_fmap, Hb1.
    by destruct (definitions !! k). }
  set (d2 := mkDAGCircuit _ _ _ _ _ _ _ _) in Hdag.
  destruct (dag_instructions_edges self (data self) d2)
    as (d'&Hfold&_&_&Hnext); [done| |done| | |].
  { by split. }
  { by apply compatible_definitions_basis_ok. }
  { done. }
  assert (d' = d) as -> by congruence.
  assert (length ts1 = length ts) as Hlen.
  { destruct (dag_instructions_Ok self (data self) d2)
      as (d''&Hfold'&_&_&Hn'&_); [done| |done| | | |].
    { by split. }
    { by apply compatible_definitions_basis_ok. }
    { done. }
    { by apply (dag_inv_ext d1). }
    assert (d'' = d) as -> by congruence.
    simpl in Hn'. rewrite Hn1, Hn in Hn'. apply (f_equal length) in Hn'.
    rewrite !length_app in Hn'. lia. }
  exists ts. split_and!; [done..|].
  intros w i j gi gj Hij Hi Hj Hti Htj Hbetween.
  specialize (Hnext w i j gi gj Hij Hi Hj Hti Htj Hbetween).
  simpl in Hnext. by rewrite Hn1, Hlen in Hnext.
Qed.

(** ** Positions in an order *)

Lemma precedes_lookup (l : list nat) (u v : nat) :
  precedes l u v ↔ ∃ i j, i < j ∧ l !! i = Some u ∧ l !! j = Some v.
Proof.
  split.
  - intros (l1&l2&l3&->). exists (length l1), (length l1 + S (length l2)).
    split_and!; [lia|by apply list_lookup_middle|].
    rewrite lookup_app_r by lia. replace (length l1 + S (length l2) - length l1)
      with (S (length l2)) by lia.
    simpl. by apply list_lookup_middle.
  - intros (i&j&Hij&Hi&Hj).
    exists (take i l), (take (j - S i) (drop (S i) l)), (drop (S j) l).
    rewrite <- (take_drop_middle l i u Hi) at 1. do 2 f_equal.
    assert (drop (S i) l !! (j - S i) = Some v) as Hj'.
    { rewrite lookup_drop. by replace (S i + (j - S i)) with j by lia. }
    rewrite <- (take_drop_middle _ _ _ Hj') at 1. do 2 f_equal.
    rewrite drop_drop. f_equal. lia.
Qed.

Lemma precedes_trans (l : list nat) (u v w : nat) :
  NoDup l → precedes l u v → precedes l v w → precedes l u w.
Proof.
  rewrite !precedes_lookup. intros Hnd (i&j&Hij&Hi&Hj) (j'&k&Hjk&Hj'&Hk).
  assert (j = j') as <- by (by eapply NoDup_lookup).
  exists i, k. split_and!; [lia|done..].
Qed.

Lemma precedes_map (f : nat → nat) (l : list nat) (u v : nat) :
  precedes l u v → precedes (map f l) (f u) (f v).
Proof.
  intros (l1&l2&l3&->). exists (map f l1), (map f l2), (map f l3).
  by rewrite map_app, map_cons, map_app, map_cons.
Qed.

(** The first number between [i] and [j] on which [P] holds, if any. *)
Lemma least_between (P : nat → bool) (i j : nat) :
  (∀ k, i < k < j → P k = false)
  ∨ ∃ k, i < k < j ∧ P k = true ∧ ∀ k', i < k' < k → P k' = false.
Proof.
  induction j as [|j [IH|(k&Hk&HP&Hleast)]].
  - left. intros k Hk. lia.
  - destruct (P j) eqn:Hj.
    + destruct (decide (i < j)) as [Hij|Hij].
      * right. exists j. split; [lia|]. split; [done|]. intros k' Hk'. apply IH. lia.
      * left. intros k Hk. lia.
    + left. intros k Hk. destruct (decide (k = j)) as [->|Hne]; [done|]. apply IH. lia.
  - right. exists k. split; [lia|]. by split.
Qed.

(** In an order of the nodes in which every edge goes forward, the node of
    an instruction comes before the node of every later instruction that
    acts on a bit it acts on. *)
Lemma dag_shared_precedes (self : QuantumCircuit) (d : DAGCircuit) (ts : list DagNode)
    (order : list nat) (w : Wire) :
  NoDup order →
  (∀ u v, (u, v) ∈ edges d → precedes order u v) →
  (∀ i j gi gj, i < j →
     data self !! i = Some gi → data self !! j = Some gj →
     touches gi w = true → touches gj w = true →
     (∀ k' g', i < k' < j → data self !! k' = Some g' → touches g' w = false) →
     (length ts + i, length ts + j) ∈ edges d) →
  ∀ (n i j : nat) gi gj, (j - i ≤ n)%nat → i < j →
    data self !! i = Some gi → data self !! j = Some gj →
    touches gi w = true → touches gj w = true →
    precedes order (length ts + i) (length ts + j).
Proof.
  intros Hnd Hforward Hedges.
  induction n as [|n IH]; intros i j gi gj Hn Hij Hi Hj Hti Htj; [lia|].
  destruct (least_between
              (λ k, match data self !! k with Some g => touches g w | None => false end) i j)
    as [Hnone|(k&Hk&HP&Hleast)].
  - apply Hforward, (Hedges i j gi gj); try done.
    intros k' g' Hk' Hg'. specialize (Hnone k' Hk'). by rewrite Hg' in Hnone.
  - destruct (data self !! k) as [gk|] eqn:Hgk; [|done].
    apply (precedes_trans order _ (length ts + k)); [done| |].
    + apply Hforward, (Hedges i k gi gk); try done; [lia|].
      intros k' g' Hk' Hg'. specialize (Hleast k' Hk'). by rewrite Hg' in Hleast.
    + apply (IH k j gk gj); (done || lia).
Qed.

Lemma omap_cons_eq {A B : Type} (f : A → option B) (x : A) (l : list A) :
  omap f (x :: l) = match f x with Some y => y :: omap f l | None => omap f l end.
Proof. reflexivity. Qed.

Lemma omap_lookup_seq {A : Type} (pre l : list A) :
  omap (λ i, (pre ++ l) !! i) (seq (length pre) (length l)) = l.
Proof.
  revert pre. induction l as [|x l IH]; intros pre; [done|].
  cbn [length seq]. rewrite omap_cons_eq, list_lookup_middle by done. f_equal.
  specialize (IH (pre ++ [x])). rewrite <- app_assoc, length_app in IH. simpl in IH.
  by rewrite Nat.add_1_r in IH.
Qed.

(** The instructions that come back from the operation nodes met along
    [l], for numbers of operation nodes. *)
Lemma ops_at_data (self : QuantumCircuit) (d : DAGCircuit) (ts : list DagNode)
    (l : list nat) :
  nodes d = ts ++ map NodeOp (map dag_op_of (data self)) →
  forallb (wf_instruction self) (data self) = true →
  Forall (λ n : nat, (length ts ≤ n)%nat) l →
  map instruction_of (ops_at d l)
  = omap (λ i, data self !! i) (map (λ n, n - length ts) l).
Proof.
  intros Hn Hdata. induction 1 as [|n l Hle _ IH]; [done|].
  rewrite ops_at_cons, Hn, lookup_app_r by done. cbn [map].
  rewrite omap_cons_eq, !list_lookup_fmap.
  destruct (data self !! (n - length ts)) as [g|] eqn:Hg; simpl; [|done].
  rewrite IH. f_equal. apply (instruction_of_dag_op_of self).
  rewrite forallb_forall in Hdata.
  by apply Hdata, list_elem_of_In, list_elem_of_lookup_2 with (n - length ts).
Qed.

(** X22: For a well-formed circuit and every topological order of the nodes of
    its DAG, [dag_to_circuit] returns the instructions of the circuit in an
    order [π] that is a permutation of their positions [0 .. len-1]: no
    instruction is lost, added or changed. The permutation keeps every two
    instructions that share a bit in the order they have in the circuit; only
    instructions on different bits may change places. *)
Theorem roundtrip_reorders (definitions : gmap string GateData) (self : QuantumCircuit)
    (d : DAGCircuit) (order : list nat) :
  wf_circuit self = true → compatible_definitions definitions = true →
  dag definitions self = Ok d → is_topological_order d order = true →
  ∃ circuit π,
    dag_to_circuit d order = Ok circuit
    ∧ π ≡ₚ seq 0 (len self)
    ∧ data circuit = omap (λ i, data self !! i) π
    ∧ data circuit ≡ₚ data self
    ∧ ∀ i j g1 g2, i < j →
        data self !! i = Some g1 → data self !! j = Some g2 →
        shares_bit g1 g2 = true → precedes π i j.
Proof.
  intros Hwfc Hdefs Hdag Horder.
  destruct (roundtrip_Ok definitions self Hwfc Hdefs) as (d0&Hd0&_&Hback&_).
  assert (d0 = d) as -> by congruence. clear Hd0.
  destruct (dag_shared_edges definitions self d Hwfc Hdefs Hdag) as (ts&Hn&Hts&Hedges).
  apply wf_circuit_spec in Hwfc as [Hwf Hdata].
  pose proof Horder as [Hperm Hforward]%is_topological_order_spec.
  assert (NoDup order) as Hnd by (rewrite Hperm; apply NoDup_seq).
  set (l := List.filter (Nat.leb (length ts)) order).
  set (π := map (λ n, n - length ts) l).
  assert (length (nodes d) = length ts + len self) as Hlen.
  { by rewrite Hn, length_app, !length_map. }
  assert (π ≡ₚ seq 0 (len self)) as Hπ.
  { unfold π, l. rewrite (Permutation_filter_bool _ _ _ Hperm), Hlen, filter_seq_ge.
    assert (seq (length ts) (len self) = (λ x, length ts + x) <$> seq 0 (len self)) as ->
      by (by rewrite fmap_add_seq, Nat.add_0_r).
    rewrite <- list_fmap_compose.
    rewrite (list_fmap_ext _ id); [by rewrite list_fmap_id|].
    intros i x _. simpl. lia. }
  assert (map instruction_of (ops_at d order) = omap (λ i, data self !! i) π) as Hdata'.
  { rewrite (ops_at_filter d ts).
    - apply (ops_at_data self d ts); [done..|].
      apply Forall_forall. intros n [_ Hle]%list_elem_of_In%filter_In.
      by apply Nat.leb_le.
    - intros n x Hlt Hx. rewrite Hn, lookup_app_l in Hx by done.
      rewrite Forall_forall in Hts. by apply Hts, list_elem_of_lookup_2 with n. }
  eexists _, π. split; [by apply Hback|]. simpl. split_and!; [done..| |].
  - rewrite Hdata', Hπ.
    assert (omap (λ i, data self !! i) (seq 0 (len self)) = data self) as ->
      by apply (omap_lookup_seq [] (data self)).
    done.
  - intros i j g1 g2 Hij H1 H2 (b&Hb1&Hb2)%shares_bit_spec.
    replace i with (length ts + i - length ts) by lia.
    replace j with (length ts + j - length ts) by lia.
    apply (precedes_map (λ n, n - length ts)), precedes_filter;
      [apply Nat.leb_le; lia..|].
    apply (dag_shared_precedes self d ts order (wire_of b) Hnd) with (j - i) g1 g2;
      try done.
    + intros u v Huv. apply Hforward. unfold dag_edges. apply elem_of_app. by left.
    + apply Hedges.
    + apply bool_decide_eq_true. by apply list_elem_of_fmap_2.
    + apply bool_decide_eq_true. by apply list_elem_of_fmap_2.
Qed.

Lemma roundtrip_reorders_witness :
  (wf_circuit ex_spec = true ∧ compatible_definitions ∅ = true
   ∧ dag ∅ ex_spec = Ok ex_spec_dag
   ∧ is_topological_order ex_spec_dag [0; 2; 4; 6; 8; 10; 9; 1; 3; 5; 7] = true)
  ∧ ∃ circuit π,
      dag_to_circuit ex_spec_dag [0; 2; 4; 6; 8; 10; 9; 1; 3; 5; 7] = Ok circuit
      ∧ π ≡ₚ seq 0 (len ex_spec)
      ∧ data circuit = omap (λ i, data ex_spec !! i) π
      ∧ data circuit ≡ₚ data ex_spec
      ∧ ∀ i j g1 g2, i < j →
          data ex_spec !! i = Some g1 → data ex_spec !! j = Some g2 →
          shares_bit g1 g2 = true → precedes π i j.
Proof.
  split; [split_and!; vm_compute; reflexivity|].
  apply (roundtrip_reorders ∅ ex_spec ex_spec_dag [0; 2; 4; 6; 8; 10; 9; 1; 3; 5; 7]);
    vm_compute; reflexivity.
Defined.
